(** * daily_report.py: the portfolio report pipeline

    A shallow embedding of [src/daily_report.py].  The script is a linear
    batch job over pandas objects; the embedding keeps its order of steps,
    its shared mutable objects ([portfolio_stocks], the frames held by
    [stock_data]) and the points where a Python exception can leave it.

    Numbers.  pandas stores the prices and market caps as binary64 floats.
    The model keeps the special values that decide control and data flow
    ([NaN] as the missing marker, the two infinities produced by a division
    by zero) and takes the finite values as exact rationals: rounding and
    signed zeros are outside the model.

    Libraries.  The script targets pandas 1.x ([Series.iteritems] is
    used), so [pct_change] pads missing values first and [sort_values]
    sorts with its default kind.  What the script does not define itself
    is a parameter of the model: the market-data provider ([Provider]),
    the drawing calls that take a whole table ([Renderer]) and the sorting
    routine behind [sort_values]. *)

From Stdlib Require Import Ascii String QArith Qfield Lia.
From stdpp Require Import base list sorting strings.

Local Open Scope string_scope.
Local Open Scope list_scope.

(** ** Floating values *)

Module Float.

Inductive fval : Type :=
  | Fin (q : Q)
  | Inf (neg : bool)
  | NaN.

Definition isna (v : fval) : bool :=
  match v with NaN => true | _ => false end.

Definition notna (v : fval) : bool := negb (isna v).

Definition Qzero (q : Q) : bool := Qeq_bool q 0.
Definition Qneg (q : Q) : bool := (Qnum q <? 0)%Z.

Definition fopp (a : fval) : fval :=
  match a with
  | Fin x => Fin (- x)
  | Inf s => Inf (negb s)
  | NaN => NaN
  end.

Definition fadd (a b : fval) : fval :=
  match a, b with
  | NaN, _ | _, NaN => NaN
  | Fin x, Fin y => Fin (x + y)
  | Fin _, Inf s => Inf s
  | Inf s, Fin _ => Inf s
  | Inf s, Inf t => if Bool.eqb s t then Inf s else NaN
  end.

Definition fsub (a b : fval) : fval := fadd a (fopp b).

Definition fmul (a b : fval) : fval :=
  match a, b with
  | NaN, _ | _, NaN => NaN
  | Fin x, Fin y => Fin (x * y)
  | Fin x, Inf s => if Qzero x then NaN else Inf (xorb (Qneg x) s)
  | Inf s, Fin y => if Qzero y then NaN else Inf (xorb s (Qneg y))
  | Inf s, Inf t => Inf (xorb s t)
  end.

Definition fdiv (a b : fval) : fval :=
  match a, b with
  | NaN, _ | _, NaN => NaN
  | Fin x, Fin y =>
      if Qzero y then (if Qzero x then NaN else Inf (Qneg x))
      else Fin (x / y)
  | Fin _, Inf _ => Fin 0
  | Inf s, Fin y => Inf (xorb s (Qneg y))
  | Inf _, Inf _ => NaN
  end.

(** Two floating values denote the same number ([NaN] is the same marker as
    [NaN] here: this is identity of cell contents, not IEEE [==]). *)
Definition feq (a b : fval) : Prop :=
  match a, b with
  | Fin x, Fin y => (x == y)%Q
  | Inf s, Inf t => s = t
  | NaN, NaN => True
  | _, _ => False
  end.

(** The order used when sorting non-missing values. *)
Definition fle (a b : fval) : bool :=
  match a, b with
  | NaN, _ | _, NaN => false
  | Inf true, _ => true
  | _, Inf false => true
  | Inf false, _ => false
  | _, Inf true => false
  | Fin x, Fin y => Qle_bool x y
  end.

(** [Series.sum()] with the default [skipna=True] and [min_count=0]:
    missing values are left out, the empty sum is 0. *)
Definition sum_skipna (l : list fval) : fval :=
  foldr fadd (Fin 0) (filter (fun v => notna v = true) l).

(** [Series.count()]: the number of cells that hold a value. *)
Definition count (l : list fval) : nat :=
  length (filter (fun v => notna v = true) l).

End Float.
Export Float.

(** ** Return calculation: [Series.pct_change()] *)

(** [fillna(method='pad')]: a missing cell takes the last value seen. *)
Fixpoint pad_from (last : fval) (l : list fval) : list fval :=
  match l with
  | [] => []
  | x :: r =>
      let y := if isna x then last else x in
      y :: pad_from y r
  end.

Definition pad (l : list fval) : list fval := pad_from NaN l.

(** [shift(1)]: every cell moves one place down, the first cell is
    missing and the last value falls off. *)
Definition shift (l : list fval) : list fval :=
  match l with
  | [] => []
  | _ :: _ => NaN :: removelast l
  end.

(** [pct_change()] is [data / data.shift(1) - 1] on the padded data. *)
Definition pct_change (close : list fval) : list fval :=
  let data := pad close in
  zip_with (fun d s => fsub (fdiv d s) (Fin 1)) data (shift data).

Definition prices (l : list Q) : list fval := map Fin l.

(** The return column, cell by cell: each price against the one before. *)
Fixpoint changes (prev : fval) (l : list fval) : list fval :=
  match l with
  | [] => []
  | x :: r => fsub (fdiv x prev) (Fin 1) :: changes x r
  end.

(** A price is usable when it is a number other than zero. *)
Definition usable (v : fval) : Prop :=
  exists q, v = Fin q /\ ~ (q == 0)%Q.

(** ** Index labels and [date_fmt] *)

(** A row label of a frame is either the timestamp the provider delivered
    or, after the return calculation, a text. *)
Inductive label : Type :=
  | Timestamp (year month day : nat)
  | Text (s : string).

Global Instance label_eq_dec : EqDecision label.
Proof. solve_decision. Defined.

(** Python exceptions: the class and the message. *)
Record exn : Type := Exn { exn_class : string; exn_msg : string }.

Global Instance exn_eq_dec : EqDecision exn.
Proof. solve_decision. Defined.

Inductive result (A : Type) : Type :=
  | Ok (a : A)
  | Raise (e : exn).
Arguments Ok {A} a.
Arguments Raise {A} e.

Definition digit (n : nat) : ascii := ascii_of_nat (48 + n mod 10).

Definition two_digits (n : nat) : string :=
  String (digit (n / 10)) (String (digit n) EmptyString).

Definition four_digits (n : nat) : string :=
  String (digit (n / 1000)) (String (digit (n / 100)) (two_digits n)).

Definition AttributeError_strftime : exn :=
  Exn "AttributeError" "'str' object has no attribute 'strftime'".

(** [date_fmt = lambda d: d.strftime('%d-%m-%Y')].  A timestamp has the
    method; a [str] has not, and the call raises. *)
Definition date_fmt (d : label) : result string :=
  match d with
  | Timestamp y m dd =>
      Ok (two_digits dd +:+ "-" +:+ two_digits m +:+ "-" +:+ four_digits y)
  | Text _ => Raise AttributeError_strftime
  end.

(** The list comprehension [[date_fmt(idx) for idx in index]]: the first
    failing call ends it. *)
Fixpoint date_fmt_all (l : list label) : result (list label) :=
  match l with
  | [] => Ok []
  | d :: r =>
      match date_fmt d with
      | Raise e => Raise e
      | Ok s =>
          match date_fmt_all r with
          | Raise e => Raise e
          | Ok r' => Ok (Text s :: r')
          end
      end
  end.

(** ** Frames *)

(** A DataFrame, column-major: the row labels and the named columns in
    their order of insertion. *)
Record frame : Type := Frame {
  index : list label;
  columns : list (string * list fval)
}.

Definition empty_frame : frame := Frame [] [].

(** [df.empty]: some axis has length 0. *)
Definition empty (df : frame) : bool :=
  Nat.eqb (length (index df)) 0 || Nat.eqb (length (columns df)) 0.

Fixpoint assoc {A : Type} (k : string) (l : list (string * A)) : option A :=
  match l with
  | [] => None
  | (k', v) :: r => if String.eqb k k' then Some v else assoc k r
  end.

(** ["Close" in df] and [df["Close"]]. *)
Definition has_column (name : string) (df : frame) : bool :=
  match assoc name (columns df) with Some _ => true | None => false end.

Definition column (name : string) (df : frame) : option (list fval) :=
  assoc name (columns df).

(** [d[k] = v] on an insertion-ordered mapping: an existing key keeps its
    place, a new key goes last. *)
Fixpoint assign {A : Type} (k : string) (v : A) (l : list (string * A))
  : list (string * A) :=
  match l with
  | [] => [(k, v)]
  | (k', v') :: r =>
      if String.eqb k k' then (k, v) :: r else (k', v') :: assign k v r
  end.

Definition keys {A : Type} (l : list (string * A)) : list string :=
  map fst l.

(** [df[name] = values], for values already aligned with [df.index]. *)
Definition set_column (name : string) (values : list fval) (df : frame)
  : frame :=
  Frame (index df) (assign name values (columns df)).

Definition set_index (labels : list label) (df : frame) : frame :=
  Frame labels (columns df).

(** A Series: labels and values, position by position. *)
Record series : Type := Series {
  s_index : list label;
  s_values : list fval
}.

Fixpoint series_lookup (l : label) (ix : list label) (vs : list fval)
  : fval :=
  match ix, vs with
  | i :: ix', v :: vs' =>
      if decide (l = i) then v else series_lookup l ix' vs'
  | _, _ => NaN
  end.

Fixpoint unique (l : list label) : bool :=
  match l with
  | [] => true
  | x :: r => negb (bool_decide (x ∈ r)) && unique r
  end.

Definition ValueError_duplicate : exn :=
  Exn "ValueError" "cannot reindex on an axis with duplicate labels".

(** [returns[ticker] = s] for a non-empty series [s].  A frame whose index
    is still empty takes the index of [s]; otherwise [s] is aligned with
    the index the frame already has: labels of [s] that the frame lacks
    are dropped, labels the frame has and [s] lacks become missing cells.
    Aligning a series with repeated labels raises. *)
Definition setitem_series (name : string) (s : series) (df : frame)
  : result frame :=
  if Nat.eqb (length (index df)) 0 then
    Ok (Frame (s_index s) (assign name (s_values s) (columns df)))
  else if bool_decide (s_index s = index df) then
    Ok (set_column name (s_values s) df)
  else if unique (s_index s) then
    Ok (set_column name
          (map (fun l => series_lookup l (s_index s) (s_values s)) (index df))
          df)
  else Raise ValueError_duplicate.

(** ** The script's globals and its effects *)

(** One value of [portfolio_stocks]: [{"sector": ..., "market_cap": ...}];
    [None] is the unset market cap. *)
Record entry : Type := Entry {
  sector : string;
  market_cap : option Q
}.

(** A line of the price-trend figure: [plt.plot(prices.index, prices,
    label=ticker, ...)].  [bold] stands for [linewidth=3]; the other lines
    have [linewidth=1.5, alpha=0.7]. *)
Record line : Type := Line {
  line_label : string;
  line_x : list label;
  line_y : list fval;
  bold : bool
}.

(** The returns table after [returns.T]: one row per ticker, one column per
    date label. *)
Record rtable : Type := RTable {
  dates : list label;
  rows : list (string * list fval)
}.

(** A row of [df_portfolio]. *)
Record prow : Type := PRow {
  ticker : string;
  row_sector : string;
  row_market_cap : fval;
  market_cap_crore : fval
}.

(** What a written file holds.  The two tables of the HTML body are kept as
    the tuples its f-strings format: (rank, ticker, crore, sector) and
    (rank, sector, value, percentage). *)
Inductive artifact : Type :=
  | HeatmapImage (t : rtable)
  | BarImage (bars : list prow)
  | PieImage (slices : list (string * fval))
  | LineImage (lines : list line)
  | HtmlBody (marketcap_rows : list (nat * string * fval * string))
             (sector_rows : list (nat * string * fval * fval)).

(** The state of a run: the two global dictionaries, what was printed, the
    lines of the current figure and the files written so far. *)
Record world : Type := World {
  portfolio_stocks : list (string * entry);
  stock_data : list (string * frame);
  stdout : list string;
  figure : list line;
  output : list (string * artifact)
}.

(** The market-data provider ([yfinance]): a call answers or raises. *)
Record Provider : Type := {
  history : string -> result frame;
  info_marketCap : string -> result (option Q)
}.

(** The drawing calls of seaborn and matplotlib that take a whole table:
    [None] when the call returns, the exception when it raises. *)
Record Renderer : Type := {
  sns_heatmap : rtable -> option exn;
  sns_barplot : list prow -> option exn;
  plt_pie : list (string * fval) -> option exn
}.

(** A computation of the script: it reads and changes the globals and
    either returns or raises.  The globals keep the changes made before
    the exception. *)
Definition M (A : Type) : Type := world -> result A * world.

Definition ret {A : Type} (a : A) : M A := fun w => (Ok a, w).

Definition bind {A B : Type} (m : M A) (k : A -> M B) : M B :=
  fun w =>
    match m w with
    | (Ok a, w') => k a w'
    | (Raise e, w') => (Raise e, w')
    end.

Notation "'let*' x := m 'in' k" := (bind m (fun x => k))
  (at level 10, x name, m at level 100, k at level 200).

Definition raise {A : Type} (e : exn) : M A := fun w => (Raise e, w).

Definition lift {A : Type} (r : result A) : M A := fun w => (r, w).

(** [try: body except Exception as e: handler(e)]. *)
Definition try_except {A : Type} (body : M A) (handler : exn -> M A) : M A :=
  fun w =>
    match body w with
    | (Ok a, w') => (Ok a, w')
    | (Raise e, w') => handler e w'
    end.

Definition get : M world := fun w => (Ok w, w).

Definition print (s : string) : M unit :=
  fun w => (Ok tt,
            World (portfolio_stocks w) (stock_data w) (stdout w ++ [s])
                  (figure w) (output w)).

Definition set_stock_data (d : list (string * frame)) : M unit :=
  fun w => (Ok tt,
            World (portfolio_stocks w) d (stdout w) (figure w) (output w)).

(** [plt.figure()] starts an empty figure, [plt.plot] adds a line to it. *)
Definition plt_figure : M unit :=
  fun w => (Ok tt,
            World (portfolio_stocks w) (stock_data w) (stdout w) []
                  (output w)).

Definition plt_plot (l : line) : M unit :=
  fun w => (Ok tt,
            World (portfolio_stocks w) (stock_data w) (stdout w)
                  (figure w ++ [l]) (output w)).

(** [plt.savefig] and the final [f.write]: the file is written.  File
    names are relative to [OUTPUT_DIR]; a failure of the file system is
    outside the model. *)
Definition write_file (name : string) (a : artifact) : M unit :=
  fun w => (Ok tt,
            World (portfolio_stocks w) (stock_data w) (stdout w) (figure w)
                  (output w ++ [(name, a)])).

Definition draw (r : option exn) : M unit :=
  match r with
  | None => ret tt
  | Some e => raise e
  end.

(** ** Step 1: [fetch_stock_data] *)

Fixpoint fetch_stock_loop (P : Provider) (tickers : list string)
    (data : list (string * frame)) : M (list (string * frame)) :=
  match tickers with
  | [] => ret data
  | t :: rest =>
      let* hist := lift (history P t) in
      let* _ := (if empty hist then print ("Warning: No data for " +:+ t)
                 else ret tt) in
      fetch_stock_loop P rest (assign t hist data)
  end.

Definition fetch_stock_data (P : Provider) (tickers : list string)
  : M (list (string * frame)) :=
  fetch_stock_loop P tickers [].

(** ** Step 2: the returns table *)

Definition KeyError (k : string) : exn := Exn "KeyError" k.

(** [df[name]]: a missing column raises. *)
Definition getitem (name : string) (df : frame) : result (list fval) :=
  match column name df with
  | Some c => Ok c
  | None => Raise (KeyError name)
  end.

(** The frame object stored under [t] is changed in place. *)
Definition mutate_frame (t : string) (df : frame) : M unit :=
  fun w => (Ok tt,
            World (portfolio_stocks w) (assign t df (stock_data w))
                  (stdout w) (figure w) (output w)).

(** [for ticker, df in stock_data.items(): ...].  Each frame that has rows
    and a Close column gets a 'Daily Return' column and a text index, both
    written to the frame object itself, and its return column becomes the
    column [ticker] of [returns]. *)
Fixpoint returns_loop (items : list (string * frame)) (returns : frame)
  : M frame :=
  match items with
  | [] => ret returns
  | (t, df) :: rest =>
      if negb (empty df) && has_column "Close" df then
        let* close := lift (getitem "Close" df) in
        let df1 := set_column "Daily Return" (pct_change close) df in
        let* _ := mutate_frame t df1 in
        let* labels := lift (date_fmt_all (index df1)) in
        let df2 := set_index labels df1 in
        let* _ := mutate_frame t df2 in
        let* daily := lift (getitem "Daily Return" df2) in
        let* returns' :=
          lift (setitem_series t (Series (index df2) daily) returns) in
        returns_loop rest returns'
      else returns_loop rest returns
  end.

(** [returns.T]: the columns become the rows. *)
Definition transpose (f : frame) : rtable := RTable (index f) (columns f).

Definition str_le (a b : string) : Prop := String.leb a b = true.

Global Instance str_le_dec : RelDecision str_le.
Proof. intros a b. unfold str_le. apply _. Defined.

Definition key_le {A : Type} (a b : string * A) : Prop :=
  str_le (fst a) (fst b).

Global Instance key_le_dec {A : Type} : RelDecision (@key_le A).
Proof. intros a b. unfold key_le. apply _. Defined.

(** [returns.sort_index()]: the rows in ascending order of the ticker. *)
Definition sort_index (t : rtable) : rtable :=
  RTable (dates t) (merge_sort key_le (rows t)).

Definition cell (j : nat) (vs : list fval) : fval := nth j vs NaN.

(** [dropna(axis=1, how='all')]: a date column stays when some row holds a
    value in it. *)
Definition column_kept (rs : list (string * list fval)) (j : nat) : bool :=
  existsb (fun r => notna (cell j (snd r))) rs.

Fixpoint select {A : Type} (mask : list bool) (l : list A) : list A :=
  match mask, l with
  | b :: mask', x :: l' =>
      if b then x :: select mask' l' else select mask' l'
  | _, _ => []
  end.

Definition dropna_all (t : rtable) : rtable :=
  let mask := map (column_kept (rows t)) (seq 0 (length (dates t))) in
  RTable (select mask (dates t))
         (map (fun r => (fst r, select mask (snd r))) (rows t)).

(** Lines 37 to 49: the table that the heatmap is drawn from. *)
Definition daily_returns : M rtable :=
  let* w := get in
  let* returns := returns_loop (stock_data w) empty_frame in
  ret (dropna_all (sort_index (transpose returns))).

(** Lines 52 to 75. *)
Definition render_heatmap (R : Renderer) (returns : rtable) : M unit :=
  let* _ := plt_figure in
  let* _ := draw (sns_heatmap R returns) in
  write_file "heatmap.png" (HeatmapImage returns).

(** ** Step 3: [fetch_market_caps] and [df_portfolio] *)

(** [portfolio_stocks[ticker]["market_cap"] = v]: the subscript raises
    KeyError for a ticker that is not a key. *)
Definition set_market_cap (t : string) (v : option Q) : M unit :=
  fun w =>
    match assoc t (portfolio_stocks w) with
    | None => (Raise (KeyError t), w)
    | Some e =>
        (Ok tt,
         World (assign t (Entry (sector e) v) (portfolio_stocks w))
               (stock_data w) (stdout w) (figure w) (output w))
    end.

(** [f"Error fetching market cap for {ticker}: {e}"]. *)
Definition market_cap_error (t : string) (e : exn) : string :=
  "Error fetching market cap for " +:+ t +:+ ": " +:+ exn_msg e.

Fixpoint fetch_market_caps (P : Provider) (tickers : list string) : M unit :=
  match tickers with
  | [] => ret tt
  | t :: rest =>
      let* _ :=
        try_except
          (let* market_cap := lift (info_marketCap P t) in
           set_market_cap t market_cap)
          (fun e =>
             let* _ := print (market_cap_error t e) in
             set_market_cap t None) in
      fetch_market_caps P rest
  end.

(** A column cell for an optional number: [None] is the missing value. *)
Definition cell_of (v : option Q) : fval :=
  match v with
  | Some q => Fin q
  | None => NaN
  end.

Definition crore : fval := Fin 10000000.

(** [pd.DataFrame.from_dict(portfolio_stocks, orient='index')] and the
    new column [market_cap / 1e7]: one row per key, in the order of the
    dictionary.  An unset market cap is a missing cell of the column, and
    stays one in the quotient.  (The columns are taken as float columns;
    pandas keeps a column of [None] only as Python objects.) *)
Definition from_dict (p : list (string * entry)) : list prow :=
  map (fun kv =>
         let cap := cell_of (market_cap (snd kv)) in
         PRow (fst kv) (sector (snd kv)) cap (fdiv cap crore))
      p.

(** The sorting routine behind [sort_values].  The call leaves [kind] at
    its default, 'quicksort', for which pandas promises an ascending order
    and nothing about the relative order of equal keys ('mergesort' and
    'stable' are the stable kinds).  The routine is therefore any function
    that returns the positions of its argument in an ascending order. *)
Definition gather {A : Type} (l : list A) (ix : list nat) : list A :=
  omap (fun i => l !! i) ix.
Global Arguments gather {A} l ix : simpl never.

Definition ascending (l : list fval) : Prop :=
  StronglySorted (fun a b => fle a b = true) l.

Definition sorting_routine (argsort : list fval -> list nat) : Prop :=
  (forall l, argsort l ≡ₚ seq 0 (length l)) /\
  (forall l, Forall (fun v => notna v = true) l ->
             ascending (gather l (argsort l))).

(** [nargsort(items, kind, ascending=False, na_position='last')] of
    pandas: the missing cells are set apart, the others are reversed,
    sorted ascending, and the outcome reversed again; the positions of the
    missing cells follow in their original order. *)
Definition nargsort_desc (argsort : list fval -> list nat)
    (items : list fval) : list nat :=
  let idx := seq 0 (length items) in
  let non_nan_idx := filter (fun i => notna (cell i items) = true) idx in
  let nan_idx := filter (fun i => isna (cell i items) = true) idx in
  let non_nans := reverse (gather items non_nan_idx) in
  let non_nan_idx := reverse non_nan_idx in
  let indexer := gather non_nan_idx (argsort non_nans) in
  reverse indexer ++ nan_idx.

(** [df.sort_values('market_cap_crore', ascending=False)]. *)
Definition sort_values_desc (argsort : list fval -> list nat)
    (df : list prow) : list prow :=
  gather df (nargsort_desc argsort (map market_cap_crore df)).

Definition df_portfolio (argsort : list fval -> list nat)
    (p : list (string * entry)) : list prow :=
  sort_values_desc argsort (from_dict p).

(** Lines 97 to 108. *)
Definition render_marketcap (R : Renderer) (df : list prow) : M unit :=
  let* _ := plt_figure in
  let* _ := draw (sns_barplot R df) in
  write_file "marketcap.png" (BarImage df).

(** ** Step 5: sector allocation *)

(** [df.groupby('sector')['market_cap_crore'].sum()]: the groups are the
    distinct sectors in sorted order ([sort=True] is the default), and the
    sum of a group leaves out its missing cells. *)
Definition group_keys (df : list prow) : list string :=
  merge_sort str_le (remove_dups (map row_sector df)).

Definition group (s : string) (df : list prow) : list fval :=
  map market_cap_crore (filter (fun r => row_sector r = s) df).

Definition sector_caps (df : list prow) : list (string * fval) :=
  map (fun s => (s, sum_skipna (group s df))) (group_keys df).

(** [sector_caps / sector_caps.sum() * 100]. *)
Definition sector_percentage (caps : list (string * fval))
  : list (string * fval) :=
  let total := sum_skipna (map snd caps) in
  map (fun kv => (fst kv, fmul (fdiv (snd kv) total) (Fin 100))) caps.

(** Lines 113 to 119: [plt.pie(sector_percentage, labels=sector_caps.index,
    ...)]. *)
Definition pie_slices (caps : list (string * fval)) : list (string * fval) :=
  combine (keys caps) (map snd (sector_percentage caps)).

Definition render_sector (R : Renderer) (caps : list (string * fval))
  : M unit :=
  let slices := pie_slices caps in
  let* _ := plt_figure in
  let* _ := draw (plt_pie R slices) in
  write_file "sector_allocation.png" (PieImage slices).

(** ** Step 6: price trends *)

Definition highlight_stock : string := "HDFCBANK.NS".

(** [for ticker, data in stock_data.items(): ...].  The new index is set
    on the Series [prices] only; nothing reads it afterwards. *)
Fixpoint trend_loop (items : list (string * frame)) : M unit :=
  match items with
  | [] => ret tt
  | (t, data) :: rest =>
      if empty data then trend_loop rest
      else
        let* prices := lift (getitem "Close" data) in
        let* labels := lift (date_fmt_all (index data)) in
        let* _ := plt_plot (Line t labels prices (String.eqb t highlight_stock)) in
        trend_loop rest
  end.

(** Lines 122 to 140. *)
Definition render_trends : M unit :=
  let* _ := plt_figure in
  let* w := get in
  let* _ := trend_loop (stock_data w) in
  let* w' := get in
  write_file "price_trends.png" (LineImage (figure w')).

(** ** Step 7: the HTML body *)

Fixpoint enumerate {A : Type} (start : nat) (l : list A) : list (nat * A) :=
  match l with
  | [] => []
  | x :: r => (start, x) :: enumerate (S start) r
  end.

(** [sector_percentage[sector]]. *)
Definition percentage_of (s : string) (pct : list (string * fval)) : fval :=
  match assoc s pct with
  | Some v => v
  | None => NaN
  end.

Definition marketcap_table_rows (df : list prow)
  : list (nat * string * fval * string) :=
  map (fun ir => (fst ir, ticker (snd ir), market_cap_crore (snd ir),
                  row_sector (snd ir)))
      (enumerate 1 df).

Definition sector_table_rows (caps : list (string * fval))
  : list (nat * string * fval * fval) :=
  let pct := sector_percentage caps in
  map (fun ikv => (fst ikv, fst (snd ikv), snd (snd ikv),
                   percentage_of (fst (snd ikv)) pct))
      (enumerate 1 caps).

Definition generate_email_body (df : list prow) (caps : list (string * fval))
  : artifact :=
  HtmlBody (marketcap_table_rows df) (sector_table_rows caps).

(** ** The script, top to bottom *)

Definition main (P : Provider) (R : Renderer)
    (argsort : list fval -> list nat) : M unit :=
  let* w0 := get in
  let* data := fetch_stock_data P (keys (portfolio_stocks w0)) in
  let* _ := set_stock_data data in
  let* returns := daily_returns in
  let* _ := render_heatmap R returns in
  let* w1 := get in
  let* _ := fetch_market_caps P (keys (portfolio_stocks w1)) in
  let* w2 := get in
  let df := df_portfolio argsort (portfolio_stocks w2) in
  let* _ := render_marketcap R df in
  let caps := sector_caps df in
  let* _ := render_sector R caps in
  let* _ := render_trends in
  let* _ := write_file "email_body.html" (generate_email_body df caps) in
  print "Daily report generated with charts and email summary.".

(** The configuration of the script (lines 13 to 18). *)
Definition portfolio_config : list (string * entry) :=
  [ ("ICICIBANK.NS", Entry "Banking" None);
    ("HDFCBANK.NS", Entry "Financial Services" None);
    ("CDSL.NS", Entry "Financial Services" None);
    ("ETERNAL.NS", Entry "Consumer Services" None) ].

Definition initial (p : list (string * entry)) : world :=
  World p [] [] [] [].

(** ** Vocabulary of the statements *)

(** The sum of the numbers in a column, the missing cells left out. *)
Fixpoint known_sum (l : list fval) : Q :=
  match l with
  | [] => 0
  | Fin q :: r => q + known_sum r
  | _ :: r => known_sum r
  end.

(** A cell of a market-cap column: a number or the missing value. *)
Definition number_or_missing (v : fval) : Prop :=
  v = NaN \/ exists q, v = Fin q.

Definition descending (l : list fval) : Prop :=
  StronglySorted (fun a b => fle b a = true) l.

Definition cap_missing (r : prow) : Prop := isna (market_cap_crore r) = true.
Definition cap_known (r : prow) : Prop := notna (market_cap_crore r) = true.

Global Instance cap_missing_dec (r : prow) : Decision (cap_missing r).
Proof. unfold cap_missing. apply _. Defined.

Global Instance cap_known_dec (r : prow) : Decision (cap_known r).
Proof. unfold cap_known. apply _. Defined.


(** What the return calculation leaves of a fetched frame: a frame with
    rows and a Close column has the new column and the text index, any
    other frame is as it was. *)
Definition with_returns (df : frame) : frame :=
  if negb (empty df) && has_column "Close" df then
    match column "Close" df, date_fmt_all (index df) with
    | Some close, Ok labels =>
        Frame labels (assign "Daily Return" (pct_change close) (columns df))
    | _, _ => df
    end
  else df.

Definition is_text (l : label) : Prop :=
  match l with Text _ => True | Timestamp _ _ _ => False end.

(** The market cap that [fetch_market_caps] records for a ticker: what the
    provider answers, and nothing when the call raises. *)
Definition fetched_cap (P : Provider) (t : string) : option Q :=
  match info_marketCap P t with
  | Ok v => v
  | Raise _ => None
  end.

(** The entries of the configuration whose market cap is unset. *)
Definition cap_unset (kv : string * entry) : Prop := market_cap (snd kv) = None.

Global Instance cap_unset_dec (kv : string * entry) : Decision (cap_unset kv).
Proof. unfold cap_unset. destruct (market_cap (snd kv)); [right|left]; congruence. Defined.

(** Two sorting routines.  Both sort (value, position) pairs by value;
    among equal values the first keeps the earlier position first, the
    second puts the later position first.  Either is an ascending sort. *)
Definition fle_total (a b : fval) : bool :=
  match a, b with
  | _, NaN => true
  | NaN, _ => false
  | _, _ => fle a b
  end.

Definition before (tie : relation nat) (a b : fval * nat) : Prop :=
  fle_total (fst a) (fst b) = true /\
  (fle_total (fst b) (fst a) = true -> tie (snd a) (snd b)).

Global Instance before_dec (tie : relation nat) `{!RelDecision tie} :
  RelDecision (before tie).
Proof. intros a b. unfold before. apply _. Defined.

Definition argsort_by (tie : relation nat) `{!RelDecision tie}
    (l : list fval) : list nat :=
  map snd (merge_sort (before tie) (zip l (seq 0 (length l)))).

Definition later (i j : nat) : Prop := j <= i.

Global Instance later_dec : RelDecision later.
Proof. intros i j. unfold later. apply _. Defined.

Definition argsort_stable : list fval -> list nat := argsort_by le.
Definition argsort_reversing : list fval -> list nat := argsort_by later.

(** [l'] is the day-month-year text of the timestamp [l]. *)
Definition formatted (l l' : label) : Prop :=
  exists y m d,
    l = Timestamp y m d /\
    l' = Text (two_digits d +:+ "-" +:+ two_digits m +:+ "-" +:+ four_digits y).

(** The item of [stock_data] after the return calculation. *)
Definition updated (kv : string * frame) : string * frame :=
  (fst kv, with_returns (snd kv)).

(** A frame on which the body of the trend loop raises. *)
Definition blocked (df : frame) : Prop :=
  column "Close" df = None \/
  exists e, date_fmt_all (index df) = Raise e.

(** Two states of the globals that differ at most in what was printed. *)
Definition same_data (w w' : world) : Prop :=
  portfolio_stocks w' = portfolio_stocks w /\
  stock_data w' = stock_data w /\
  figure w' = figure w /\
  output w' = output w.

(** The sector totals of a frame whose cells are numbers or missing. *)
Definition totals (df : list prow) : list Q :=
  map (fun s => known_sum (group s df)) (group_keys df).

(** The files of a run, in the order in which they are written. *)
Definition artifact_names : list string :=
  [ "heatmap.png"; "marketcap.png"; "sector_allocation.png";
    "price_trends.png"; "email_body.html" ].

Section RunOutcomes.

Variables (P : Provider) (R : Renderer) (argsort : list fval -> list nat).
Variable p : list (string * entry).

(** What [fetch_stock_data] returns when no call raises: one frame per
    ticker, the one the provider gave. *)
Definition fetched (data : list (string * frame)) : Prop :=
  NoDup (keys data) /\
  (forall t df, (t, df) ∈ data -> t ∈ keys p /\ history P t = Ok df) /\
  (forall t, t ∈ keys p -> exists df, history P t = Ok df /\ (t, df) ∈ data).

(** The rows of the returns table are tickers whose frame has rows. *)
Definition returns_of (data : list (string * frame)) (tbl : rtable) : Prop :=
  forall c, c ∈ keys (rows tbl) ->
            exists df, (c, df) ∈ data /\ empty df = false.

(** [portfolio_stocks] after [fetch_market_caps]. *)
Definition caps_fetched (ps : list (string * entry)) : Prop :=
  keys ps = keys p /\
  forall t e, assoc t p = Some e ->
    exists e', assoc t ps = Some e' /\ sector e' = sector e /\
               market_cap e' = fetched_cap P t.

(** The ways a run can end: the exception or the normal end, with the
    files written up to there. *)
Inductive outcome : result unit -> list (string * artifact) -> Prop :=
  | stopped_at_fetch e t :
      t ∈ keys p -> history P t = Raise e ->
      outcome (Raise e) []
  | stopped_at_returns e data :
      fetched data ->
      outcome (Raise e) []
  | stopped_at_heatmap e data tbl :
      fetched data -> returns_of data tbl ->
      sns_heatmap R tbl = Some e ->
      outcome (Raise e) []
  | stopped_at_barplot e data tbl ps :
      fetched data -> returns_of data tbl -> sns_heatmap R tbl = None ->
      caps_fetched ps ->
      sns_barplot R (df_portfolio argsort ps) = Some e ->
      outcome (Raise e) [("heatmap.png", HeatmapImage tbl)]
  | stopped_at_pie e data tbl ps :
      fetched data -> returns_of data tbl -> sns_heatmap R tbl = None ->
      caps_fetched ps ->
      sns_barplot R (df_portfolio argsort ps) = None ->
      plt_pie R (pie_slices (sector_caps (df_portfolio argsort ps))) = Some e ->
      outcome (Raise e)
        [("heatmap.png", HeatmapImage tbl);
         ("marketcap.png", BarImage (df_portfolio argsort ps))]
  | stopped_at_trends e data tbl ps :
      fetched data -> returns_of data tbl -> sns_heatmap R tbl = None ->
      caps_fetched ps ->
      sns_barplot R (df_portfolio argsort ps) = None ->
      plt_pie R (pie_slices (sector_caps (df_portfolio argsort ps))) = None ->
      outcome (Raise e)
        [("heatmap.png", HeatmapImage tbl);
         ("marketcap.png", BarImage (df_portfolio argsort ps));
         ("sector_allocation.png",
          PieImage (pie_slices (sector_caps (df_portfolio argsort ps))))]
  | completed data tbl ps :
      fetched data -> returns_of data tbl -> sns_heatmap R tbl = None ->
      caps_fetched ps ->
      sns_barplot R (df_portfolio argsort ps) = None ->
      plt_pie R (pie_slices (sector_caps (df_portfolio argsort ps))) = None ->
      (forall t df, (t, df) ∈ data -> empty df = true) ->
      outcome (Ok tt)
        [("heatmap.png", HeatmapImage tbl);
         ("marketcap.png", BarImage (df_portfolio argsort ps));
         ("sector_allocation.png",
          PieImage (pie_slices (sector_caps (df_portfolio argsort ps))));
         ("price_trends.png", LineImage []);
         ("email_body.html",
          generate_email_body (df_portfolio argsort ps)
                              (sector_caps (df_portfolio argsort ps)))].

End RunOutcomes.

(** The example of the specification: A (500, Banking), B (300, Banking),
    C (200, Tech). *)
Definition portfolio_example : list (string * entry) :=
  [ ("A", Entry "Banking" (Some 500%Q));
    ("B", Entry "Banking" (Some 300%Q));
    ("C", Entry "Tech" (Some 200%Q)) ].

(** A provider that cannot be reached: every call raises. *)
Definition ConnectionError : exn :=
  Exn "ConnectionError" "Max retries exceeded".

Definition provider_down : Provider :=
  {| history := fun _ => Raise ConnectionError;
     info_marketCap := fun _ => Raise ConnectionError |}.

(** A provider without price history: every frame is empty, every market
    cap is known. *)
Definition provider_no_prices : Provider :=
  {| history := fun _ => Ok empty_frame;
     info_marketCap := fun _ => Ok (Some 1000000000000%Q) |}.

(** A provider with three days of prices for one ticker. *)
Definition example_frame : frame :=
  Frame [Timestamp 2026 11 2; Timestamp 2026 11 3; Timestamp 2026 11 4]
        [("Close", prices [100; 102; 99]%Q)].

Definition provider_one_series : Provider :=
  {| history := fun t => if String.eqb t "HDFCBANK.NS" then Ok example_frame
                         else Ok empty_frame;
     info_marketCap := fun _ => Ok (Some 1000000000000%Q) |}.

(** Drawing calls that always return, and drawing calls of which the
    heatmap refuses a table without rows. *)
Definition renderer_lenient : Renderer :=
  {| sns_heatmap := fun _ => None;
     sns_barplot := fun _ => None;
     plt_pie := fun _ => None |}.

Definition ValueError_empty : exn :=
  Exn "ValueError"
      "zero-size array to reduction operation fmin which has no identity".

Definition renderer_strict : Renderer :=
  {| sns_heatmap := fun t => match rows t with
                             | [] => Some ValueError_empty
                             | _ :: _ => None
                             end;
     sns_barplot := fun _ => None;
     plt_pie := fun _ => None |}.


(** ** Further vocabulary *)

(** Prices rebuilt from a first price and the returns that follow it:
    each return takes the price before it to the next price. *)
Fixpoint compound (p : Q) (rs : list fval) : list Q :=
  match rs with
  | Fin r :: rest => let q := (p * (1 + r))%Q in q :: compound q rest
  | _ => []
  end.

(** A timestamp whose fields fit the two, two and four digits of the
    format. *)
Definition printable (l : label) : Prop :=
  match l with
  | Timestamp y m d => d < 100 /\ m < 100 /\ y < 100 * 100
  | Text _ => False
  end.

(** The frame the provider has for a ticker (no rows when the call
    raises). *)
Definition frame_of (P : Provider) (t : string) : frame :=
  match history P t with
  | Ok df => df
  | Raise _ => empty_frame
  end.

(** [f"Warning: No data for {ticker}"]. *)
Definition no_data_warning (t : string) : string :=
  "Warning: No data for " +:+ t.

(** The tickers for which [fetch_stock_data] prints its warning. *)
Definition without_data (P : Provider) (tickers : list string) : list string :=
  filter (fun t => empty (frame_of P t) = true) tickers.

(** The globals with other printed lines. *)
Definition with_stdout (out : list string) (w : world) : world :=
  World (portfolio_stocks w) (stock_data w) out (figure w) (output w).



(** No two tickers of the configuration hold the same market cap. *)
Definition tie_free (p : list (string * entry)) : Prop :=
  forall kv kv' q q',
    kv ∈ p -> kv' ∈ p ->
    market_cap (snd kv) = Some q -> market_cap (snd kv') = Some q' ->
    (q == q')%Q -> kv = kv'.

(** What a cell adds to a sum that leaves the missing cells out. *)
Definition known (v : fval) : Q :=
  match v with
  | Fin q => q
  | _ => 0%Q
  end.

(** The globals with other lines in the current figure. *)
Definition with_figure (lines : list line) (w : world) : world :=
  World (portfolio_stocks w) (stock_data w) (stdout w) lines (output w).

(** A frame as the provider delivers it: its row labels are timestamps. *)
Definition dated (df : frame) : Prop :=
  Forall (fun l => ~ is_text l) (index df).

(** The items for which the trend loop draws. *)
Definition with_rows (items : list (string * frame))
  : list (string * frame) :=
  filter (fun kv => empty (snd kv) = false) items.

(** The test of the returns loop: [not df.empty and "Close" in df]. *)
Definition qualifies (kv : string * frame) : bool :=
  negb (empty (snd kv)) && has_column "Close" (snd kv).

(** The items of [stock_data] that pass the test. *)
Definition qualified (items : list (string * frame))
  : list (string * frame) :=
  filter (fun kv => qualifies kv = true) items.

(** Two tickers whose price histories start on different days, and one
    without prices. *)
Definition later_frame : frame :=
  Frame [Timestamp 2026 11 3; Timestamp 2026 11 4; Timestamp 2026 11 5]
        [("Close", prices [50; 55; 66]%Q)].

Definition two_tickers : world :=
  World portfolio_config
        [("HDFCBANK.NS", example_frame); ("CDSL.NS", later_frame);
         ("ETERNAL.NS", empty_frame)]
        [] [] [].

(** A table whose rows have one cell per date. *)
Definition rectangular (t : rtable) : Prop :=
  Forall (fun r => length (snd r) = length (dates t)) (rows t).

(** The values of a row, the missing cells left out. *)
Definition values (vs : list fval) : list fval :=
  filter (fun v => notna v = true) vs.

(** A returns table with a date on which no ticker has a return. *)
Definition sparse_table : rtable :=
  RTable [Text "02-11-2026"; Text "03-11-2026"; Text "04-11-2026"]
         [("CDSL.NS", [NaN; NaN; Fin 0.1]);
          ("HDFCBANK.NS", [NaN; Fin 0.02; Fin (-0.03)])].

(** The closing line of the script (line 184). *)
Definition done_message : string :=
  "Daily report generated with charts and email summary.".

(** The lines printed on the way: a warning of [fetch_stock_data] or an
    error line of [fetch_market_caps]. *)
Definition log_line (s : string) : Prop :=
  (exists t, s = no_data_warning t) \/ (exists t e, s = market_cap_error t e).

(** A computation that prints nothing but such lines, and takes none
    back. *)
Definition quiet {A : Type} (m : M A) : Prop :=
  forall w r w',
    m w = (r, w') ->
    exists out, stdout w' = stdout w ++ out /\ Forall log_line out.

(** A computation that prints such lines and then, if it returns, the
    closing line. *)
Definition closing (m : M unit) : Prop :=
  forall w r w',
    m w = (r, w') ->
    exists out,
      Forall log_line out /\
      stdout w' = stdout w ++ out ++ match r with
                                     | Ok _ => [done_message]
                                     | Raise _ => []
                                     end.


(** A frame on the trading calendar [ds]: one usable closing price for
    every day. *)
Definition on_calendar (ds : list label) (df : frame) : Prop :=
  index df = ds /\
  exists qs, column "Close" df = Some (prices qs) /\
             length qs = length ds /\
             Forall (fun q => ~ (q == 0)%Q) qs.

(** The return column of a frame. *)
Definition return_column (df : frame) : list fval :=
  match column "Close" df with
  | Some close => pct_change close
  | None => []
  end.

(** A row of returns over [n] days: nothing on the first day, a number on
    every later day. *)
Definition return_row (n : nat) (vs : list fval) : Prop :=
  length vs = n /\ notna (cell 0 vs) = false /\
  forall j, 1 <= j < n -> notna (cell j vs) = true.

(** A frame as the provider delivers it: its row labels are distinct
    days, and where it has rows it has a Close column. *)
Definition fresh (df : frame) : Prop :=
  NoDup (index df) /\ Forall printable (index df) /\
  (empty df = false -> has_column "Close" df = true).

(** * Properties *)

(** ** Arithmetic of floating values *)

Section FloatFacts.

Lemma Qzero_true (q : Q) : Qzero q = true <-> (q == 0)%Q.
Proof. unfold Qzero. apply Qeq_bool_iff. Qed.

Lemma Qzero_false (q : Q) : Qzero q = false <-> ~ (q == 0)%Q.
Proof.
  rewrite <- Qzero_true. destruct (Qzero q); split; congruence.
Qed.

Lemma Qzero_num (q : Q) : Qzero q = true <-> Qnum q = 0%Z.
Proof.
  rewrite Qzero_true. unfold Qeq. simpl. lia.
Qed.

Lemma Qneg_minus_zero (a b : Q) :
  Qzero b = true -> Qneg (a + - b) = Qneg a.
Proof.
  rewrite Qzero_num. intros Hb. unfold Qneg.
  destruct a as [an ad], b as [bn bd]. simpl in *. subst bn. simpl.
  rewrite Z.add_0_r.
  destruct (Z.ltb_spec an 0), (Z.ltb_spec (an * Z.pos bd) 0); try reflexivity; nia.
Qed.

Lemma Qzero_minus_zero (a b : Q) :
  Qzero b = true -> Qzero (a + - b) = Qzero a.
Proof.
  intros Hb. apply Qzero_true in Hb.
  destruct (Qzero a) eqn:Ha.
  - apply Qzero_true in Ha. apply Qzero_true. rewrite Ha, Hb. reflexivity.
  - apply Qzero_false in Ha. apply Qzero_false. intros H. apply Ha.
    rewrite Hb in H. rewrite <- H. ring.
Qed.

(** [x / y - 1] and [(x - y) / y] are the same floating value, also when
    [y] is zero. *)
Lemma ratio_minus_one (x y : Q) :
  feq (fsub (fdiv (Fin x) (Fin y)) (Fin 1))
      (fdiv (fsub (Fin x) (Fin y)) (Fin y)).
Proof.
  unfold fsub. simpl. destruct (Qzero y) eqn:Hy.
  - rewrite (Qzero_minus_zero x y Hy), (Qneg_minus_zero x y Hy).
    destruct (Qzero x); simpl; auto.
  - simpl. apply Qzero_false in Hy. field. exact Hy.
Qed.

Lemma feq_refl (a : fval) : feq a a.
Proof. destruct a; simpl; auto. reflexivity. Qed.

End FloatFacts.

(** ** The return column *)

Section Returns.

Lemma zip_shift_changes (p : fval) (l : list fval) :
  zip_with (fun d s => fsub (fdiv d s) (Fin 1)) l (p :: removelast l)
  = changes p l.
Proof.
  revert p. induction l as [|x l IH]; intros p; [reflexivity|].
  simpl. f_equal. destruct l as [|y l]; [reflexivity|]. apply IH.
Qed.

Lemma pct_change_changes (close : list fval) :
  pct_change close = changes NaN (pad close).
Proof.
  unfold pct_change, shift. destruct (pad close) as [|x l] eqn:E.
  - reflexivity.
  - apply zip_shift_changes.
Qed.

Lemma length_changes (p : fval) (l : list fval) :
  length (changes p l) = length l.
Proof. revert p. induction l; intros; simpl; auto. Qed.

Lemma length_pad_from (p : fval) (l : list fval) :
  length (pad_from p l) = length l.
Proof. revert p. induction l; intros; simpl; auto. Qed.

Lemma length_pct_change (close : list fval) :
  length (pct_change close) = length close.
Proof.
  rewrite pct_change_changes, length_changes. apply length_pad_from.
Qed.

Lemma pad_from_prices (p : fval) (l : list Q) :
  pad_from p (prices l) = prices l.
Proof.
  revert p. induction l as [|x l IH]; intros p; simpl; [reflexivity|].
  f_equal. apply IH.
Qed.

Lemma pct_change_prices (l : list Q) :
  pct_change (prices l) = changes NaN (prices l).
Proof.
  rewrite pct_change_changes. unfold pad. now rewrite pad_from_prices.
Qed.

Lemma fdiv_nan_r (a : fval) : fdiv a NaN = NaN.
Proof. destruct a; reflexivity. Qed.

Lemma changes_nan_head (l : list fval) (v : fval) (r : list fval) :
  changes NaN l = v :: r -> v = NaN.
Proof.
  destruct l as [|x l]; simpl; [discriminate|].
  rewrite fdiv_nan_r. simpl. congruence.
Qed.

Lemma count_le_length (l : list fval) : count l <= length l.
Proof. unfold count. apply length_filter. Qed.

Lemma count_cons (v : fval) (l : list fval) :
  count (v :: l) = (if notna v then 1 else 0) + count l.
Proof.
  unfold count. rewrite filter_cons.
  destruct (notna v); simpl; reflexivity.
Qed.

Lemma usable_prices (l : list fval) :
  Forall usable l -> exists qs, l = prices qs /\ Forall (fun q => ~ (q == 0)%Q) qs.
Proof.
  induction 1 as [|v l [q [-> Hq]] _ [qs [-> Hqs]]].
  - exists []. split; [reflexivity|constructor].
  - exists (q :: qs). split; [reflexivity|]. constructor; assumption.
Qed.

Lemma count_changes_usable (p : Q) (qs : list Q) :
  ~ (p == 0)%Q -> Forall (fun q => ~ (q == 0)%Q) qs ->
  count (changes (Fin p) (prices qs)) = length qs.
Proof.
  intros Hp H. revert p Hp. induction H as [|q qs Hq _ IH]; intros p Hp.
  - reflexivity.
  - simpl. rewrite count_cons. apply Qzero_false in Hp. rewrite Hp. simpl.
    f_equal. apply IH. assumption.
Qed.

Lemma nth_changes (p : fval) (l : list fval) (i : nat) :
  i < length l ->
  cell i (changes p l)
  = fsub (fdiv (cell i l) (match i with 0 => p | S j => cell j l end)) (Fin 1).
Proof.
  unfold cell. revert p i. induction l as [|x l IH]; intros p i Hi.
  - simpl in Hi. lia.
  - destruct i as [|i]; simpl; [reflexivity|].
    simpl in Hi. rewrite IH by lia. destruct i; reflexivity.
Qed.

Lemma cell_prices (l : list Q) (i : nat) :
  i < length l -> cell i (prices l) = Fin (nth i l 0%Q).
Proof.
  intros Hi. unfold cell, prices.
  rewrite (nth_indep _ NaN (Fin 0)) by (rewrite length_map; lia).
  apply (map_nth Fin).
Qed.

End Returns.

(** ** Claims on the return calculation *)



(** C1, as stated, fails: the return column of a series of length N has N
    cells, not N-1.  The single price 100 gives the one cell NaN, not the
    empty series; three prices give three cells; and after two closes of 0
    not even the number of cells that hold a return is N-1. *)
Lemma return_series_length_counterexample :
  pct_change (prices [100%Q]) = [NaN] /\
  length (pct_change (prices [100%Q])) <> length (prices [100%Q]) - 1 /\
  length (pct_change (prices [100; 102; 99]%Q)) <> 3 - 1 /\
  pct_change (prices [0; 0; 5]%Q) = [NaN; NaN; Inf false] /\
  count (pct_change (prices [0; 0; 5]%Q)) <> 3 - 1.
Proof.
  split; [reflexivity|]. split; [vm_compute; lia|].
  split; [vm_compute; lia|]. split; [reflexivity|vm_compute; lia].
Qed.

(** C1, amended.  The return column of a price series of length N has N
    cells and its first cell is always missing; it holds at most N-1
    returns, and exactly N-1 when every close is a number other than
    zero. *)
Theorem return_series_length (close : list fval) :
  length (pct_change close) = length close /\
  (forall v r, pct_change close = v :: r -> v = NaN) /\
  count (pct_change close) <= length close - 1 /\
  (Forall usable close -> count (pct_change close) = length close - 1).
Proof.
  split; [apply length_pct_change|]. split; [|split].
  - rewrite pct_change_changes. intros v r. apply changes_nan_head.
  - pose proof (length_pct_change close) as Hlen.
    destruct (pct_change close) as [|v r] eqn:E; [apply Nat.le_0_l|].
    assert (v = NaN) as ->.
    { rewrite pct_change_changes in E. eapply changes_nan_head, E. }
    rewrite count_cons. simpl. simpl in Hlen.
    pose proof (count_le_length r). lia.
  - intros H. apply usable_prices in H as [qs [-> Hqs]].
    rewrite pct_change_prices. unfold prices at 2. rewrite length_map.
    destruct Hqs as [|q qs Hq Hqs]; [reflexivity|].
    simpl. rewrite count_cons. simpl.
    rewrite count_changes_usable by assumption. lia.
Qed.

Lemma return_series_length_witness :
  Forall usable (prices [100; 102; 99]%Q) /\
  count (pct_change (prices [100; 102; 99]%Q)) = 3 - 1.
Proof.
  assert (Forall usable (prices [100; 102; 99]%Q)) as H.
  { repeat constructor; eexists; (split; [reflexivity|]);
      intros E; discriminate E. }
  split; [exact H|].
  exact (proj2 (proj2 (proj2 (return_series_length _))) H).
Defined.

(** ** The order of strings *)

Section StringOrder.

Lemma ascii_compare_trans (a b c : ascii) :
  Ascii.compare a b <> Gt -> Ascii.compare b c <> Gt ->
  Ascii.compare a c <> Gt /\
  (Ascii.compare a c = Eq -> Ascii.compare a b = Eq /\ Ascii.compare b c = Eq).
Proof.
  unfold Ascii.compare.
  destruct (N.compare_spec (N_of_ascii a) (N_of_ascii b)),
           (N.compare_spec (N_of_ascii b) (N_of_ascii c)),
           (N.compare_spec (N_of_ascii a) (N_of_ascii c));
    intros Hab Hbc; try congruence;
    (split;
     [ first [ discriminate | exfalso; lia ]
     | intros He; try discriminate He;
       split; first [ reflexivity | exfalso; lia ] ]).
Qed.

Lemma string_compare_trans (s1 s2 s3 : string) :
  String.compare s1 s2 <> Gt -> String.compare s2 s3 <> Gt ->
  String.compare s1 s3 <> Gt.
Proof.
  revert s2 s3. induction s1 as [|a s1 IH]; intros [|b s2] [|c s3];
    simpl; try congruence.
  intros H12 H23.
  assert (Ascii.compare a b <> Gt) as Hab
    by (destruct (Ascii.compare a b); congruence).
  assert (Ascii.compare b c <> Gt) as Hbc
    by (destruct (Ascii.compare b c); congruence).
  destruct (ascii_compare_trans a b c Hab Hbc) as [Hac Heq].
  destruct (Ascii.compare a c) eqn:E; try congruence.
  destruct Heq as [E1 E2]; [reflexivity|].
  rewrite E1 in H12. rewrite E2 in H23. eapply IH; eassumption.
Qed.

Global Instance str_le_trans : Transitive str_le.
Proof.
  intros a b c. unfold str_le, String.leb. intros Hab Hbc.
  pose proof (string_compare_trans a b c) as H.
  destruct (String.compare a b); try discriminate;
    destruct (String.compare b c); try discriminate;
    destruct (String.compare a c); try reflexivity;
    exfalso; apply H; congruence.
Qed.

Global Instance str_le_total : Total str_le.
Proof. intros a b. apply String.leb_total. Qed.

Global Instance str_le_antisym : AntiSymm (=) str_le.
Proof. intros a b. apply String.leb_antisym. Qed.

Global Instance key_le_trans {A : Type} : Transitive (@key_le A).
Proof. intros a b c. unfold key_le. apply str_le_trans. Qed.

Global Instance key_le_total {A : Type} : Total (@key_le A).
Proof. intros a b. unfold key_le. apply str_le_total. Qed.

End StringOrder.

(** ** The sector aggregate *)

Section Sectors.

Lemma keys_sector_caps (df : list prow) :
  keys (sector_caps df) = group_keys df.
Proof.
  unfold keys, sector_caps. rewrite map_map. simpl. apply map_id.
Qed.

Lemma keys_sector_percentage (caps : list (string * fval)) :
  keys (sector_percentage caps) = keys caps.
Proof.
  unfold keys, sector_percentage. rewrite map_map. reflexivity.
Qed.

Lemma group_keys_sorted (df : list prow) :
  StronglySorted str_le (group_keys df).
Proof. apply StronglySorted_merge_sort; apply _. Qed.

Lemma group_keys_perm (df : list prow) :
  group_keys df ≡ₚ remove_dups (map row_sector df).
Proof. apply merge_sort_Permutation. Qed.

Lemma group_keys_NoDup (df : list prow) : NoDup (group_keys df).
Proof. rewrite group_keys_perm. apply NoDup_remove_dups. Qed.

Lemma elem_of_group_keys (df : list prow) (s : string) :
  s ∈ group_keys df <-> s ∈ map row_sector df.
Proof. rewrite group_keys_perm. apply elem_of_remove_dups. Qed.

Lemma map_fst_enumerate {A B : Type} (f : A -> B) (n : nat) (l : list A) :
  map (fun ix => f (snd ix)) (enumerate n l) = map f l.
Proof. revert n. induction l; intros; simpl; f_equal; auto. Qed.

Lemma map_fst_combine {A B : Type} (l : list A) (l' : list B) :
  length l = length l' -> map fst (combine l l') = l.
Proof.
  revert l'. induction l; intros [|b l'] H; simpl in *; try lia; f_equal; auto.
Qed.

End Sectors.

(** C10.  The sector aggregate is in ascending order of the sector name,
    whatever the market caps and the order of the configuration; the
    percentage series, the pie chart and the sector table of the report
    follow the same order. *)
Theorem sector_aggregate_alphabetical (df : list prow) :
  StronglySorted str_le (keys (sector_caps df)) /\
  NoDup (keys (sector_caps df)) /\
  keys (sector_percentage (sector_caps df)) = keys (sector_caps df) /\
  keys (pie_slices (sector_caps df)) = keys (sector_caps df) /\
  map (fun r => snd (fst (fst r))) (sector_table_rows (sector_caps df))
    = keys (sector_caps df) /\
  (forall df' : list prow,
     (forall s, s ∈ map row_sector df' <-> s ∈ map row_sector df) ->
     keys (sector_caps df') = keys (sector_caps df)).
Proof.
  repeat split.
  - rewrite keys_sector_caps. apply group_keys_sorted.
  - rewrite keys_sector_caps. apply group_keys_NoDup.
  - apply keys_sector_percentage.
  - unfold pie_slices, keys at 1. apply map_fst_combine.
    unfold keys, sector_percentage. now rewrite !length_map.
  - unfold sector_table_rows.
    rewrite (map_map _ (fun r : nat * string * fval * fval => snd (fst (fst r)))).
    simpl. apply (map_fst_enumerate fst).
  - intros df' Hsame. rewrite !keys_sector_caps.
    apply (StronglySorted_unique str_le); try apply group_keys_sorted.
    apply NoDup_Permutation; try apply group_keys_NoDup.
    intros s. rewrite !elem_of_group_keys. apply Hsame.
Qed.

(** ** Taking rows by position *)

Section Gather.

Context {A : Type}.
Implicit Types (l : list A) (ix jx : list nat).

Lemma gather_nil l : gather l [] = [].
Proof. reflexivity. Qed.

Lemma gather_cons l i ix :
  gather l (i :: ix)
  = match l !! i with Some x => x :: gather l ix | None => gather l ix end.
Proof. reflexivity. Qed.

Lemma gather_app l ix jx : gather l (ix ++ jx) = gather l ix ++ gather l jx.
Proof.
  induction ix as [|i ix IH]; [reflexivity|].
  simpl. rewrite !gather_cons, IH. destruct (l !! i); reflexivity.
Qed.

Lemma gather_reverse l ix : gather l (reverse ix) = reverse (gather l ix).
Proof.
  induction ix as [|i ix IH]; [reflexivity|].
  rewrite reverse_cons, gather_app, IH, !gather_cons, gather_nil.
  destruct (l !! i).
  - now rewrite reverse_cons.
  - now rewrite app_nil_r.
Qed.

Lemma gather_seq_from pre l :
  gather (pre ++ l) (seq (length pre) (length l)) = l.
Proof.
  revert pre. induction l as [|x l IH]; intros pre; [reflexivity|].
  simpl. rewrite gather_cons.
  rewrite lookup_app_r, Nat.sub_diag by lia. simpl. f_equal.
  specialize (IH (pre ++ [x])).
  rewrite <- app_assoc, length_app in IH. simpl in IH.
  rewrite Nat.add_1_r in IH. exact IH.
Qed.

Lemma gather_seq l : gather l (seq 0 (length l)) = l.
Proof. apply (gather_seq_from []). Qed.

Lemma gather_Permutation l ix jx : ix ≡ₚ jx -> gather l ix ≡ₚ gather l jx.
Proof.
  induction 1 as [|i ix jx _ IH|i j ix|ix jx kx _ IH1 _ IH2].
  - reflexivity.
  - rewrite !gather_cons. destruct (l !! i); [now constructor|assumption].
  - rewrite !gather_cons. destruct (l !! i), (l !! j); try reflexivity.
    apply perm_swap.
  - etransitivity; eassumption.
Qed.

Lemma gather_elem_of l ix x : x ∈ gather l ix -> x ∈ l.
Proof.
  induction ix as [|i ix IH]; [inversion 1|].
  rewrite gather_cons. destruct (l !! i) as [y|] eqn:E; [|exact IH].
  intros [->|H]%elem_of_cons; [|auto].
  eapply list_elem_of_lookup_2, E.
Qed.

Lemma lookup_gather l ix j :
  Forall (fun i => i < length l) ix ->
  gather l ix !! j = ix !! j ≫= (fun i => l !! i).
Proof.
  intros H. revert j. induction H as [|i ix Hi _ IH]; intros j; [reflexivity|].
  rewrite gather_cons.
  destruct (lookup_lt_is_Some_2 l i Hi) as [x Hx]. rewrite Hx.
  destruct j as [|j]; simpl; [now rewrite Hx|apply IH].
Qed.

End Gather.

Lemma gather_gather {A : Type} (l : list A) (ix a : list nat) :
  Forall (fun i => i < length l) ix ->
  gather l (gather ix a) = gather (gather l ix) a.
Proof.
  intros H. induction a as [|j a IH]; [reflexivity|].
  rewrite (gather_cons (gather l ix)), lookup_gather by assumption.
  rewrite (gather_cons ix). destruct (ix !! j) as [i|] eqn:E; simpl.
  - rewrite gather_cons, IH. reflexivity.
  - exact IH.
Qed.

Lemma gather_fmap {A B : Type} (f : A -> B) (l : list A) (ix : list nat) :
  gather (map f l) ix = map f (gather l ix).
Proof.
  induction ix as [|i ix IH]; [reflexivity|].
  rewrite !gather_cons. change (map f l) with (f <$> l) at 1.
  rewrite list_lookup_fmap. destruct (l !! i); simpl; now rewrite IH.
Qed.

(** Taking the positions whose cell passes a test is filtering. *)
Lemma gather_filter_from {A : Type} (f : A -> fval) (p : fval -> bool)
    (pre l : list A) :
  gather (pre ++ l)
    (filter (fun i => p (cell i (map f (pre ++ l))) = true)
            (seq (length pre) (length l)))
  = filter (fun x => p (f x) = true) l.
Proof.
  revert pre. induction l as [|x l IH]; intros pre; [reflexivity|].
  simpl seq. rewrite !filter_cons.
  assert (cell (length pre) (map f (pre ++ x :: l)) = f x) as ->.
  { unfold cell. rewrite map_app. rewrite app_nth2; rewrite length_map; [|lia].
    now rewrite Nat.sub_diag. }
  specialize (IH (pre ++ [x])).
  rewrite <- app_assoc, length_app in IH. simpl in IH.
  rewrite Nat.add_1_r in IH.
  destruct (decide (p (f x) = true)) as [Hp|Hp].
  - rewrite gather_cons, lookup_app_r, Nat.sub_diag by lia. simpl.
    f_equal. exact IH.
  - exact IH.
Qed.

Lemma gather_filter {A : Type} (f : A -> fval) (p : fval -> bool)
    (l : list A) :
  gather l (filter (fun i => p (cell i (map f l)) = true) (seq 0 (length l)))
  = filter (fun x => p (f x) = true) l.
Proof. apply (gather_filter_from f p []). Qed.

Lemma StronglySorted_flip_reverse {A : Type} (R : relation A) (l : list A) :
  StronglySorted R l -> StronglySorted (fun a b => R b a) (reverse l).
Proof.
  induction 1 as [|x l _ IH Hx]; [constructor|].
  rewrite reverse_cons. apply StronglySorted_app. split; [|split].
  - intros a b Ha Hb. apply list_elem_of_singleton in Hb as ->.
    rewrite Forall_forall in Hx. apply Hx.
    now apply elem_of_reverse.
  - exact IH.
  - repeat constructor.
Qed.

(** ** Sorting routines *)

Section Routines.

Lemma fle_total_total (a b : fval) :
  fle_total a b = true \/ fle_total b a = true.
Proof.
  destruct a as [x|[]|], b as [y|[]|]; simpl; auto.
  rewrite !Qle_bool_iff.
  destruct (Qlt_le_dec x y); [left; now apply Qlt_le_weak|now right].
Qed.

Lemma fle_total_trans (a b c : fval) :
  fle_total a b = true -> fle_total b c = true -> fle_total a c = true.
Proof.
  destruct a as [x|[]|], b as [y|[]|], c as [z|[]|]; simpl;
    try reflexivity; try discriminate.
  rewrite !Qle_bool_iff. apply Qle_trans.
Qed.

Lemma fle_total_notna (a b : fval) :
  notna a = true -> notna b = true -> fle_total a b = fle a b.
Proof.
  destruct a as [x|[]|], b as [y|[]|]; cbn; intros;
    first [reflexivity | discriminate].
Qed.

Context (tie : relation nat) `{!RelDecision tie, !Total tie, !Transitive tie}.

Global Instance before_total : Total (before tie).
Proof.
  intros [v i] [w j]. unfold before. simpl.
  destruct (fle_total v w) eqn:Hvw, (fle_total w v) eqn:Hwv.
  - destruct (total tie i j); [left|right]; auto.
  - left. split; [reflexivity|discriminate].
  - right. split; [reflexivity|discriminate].
  - destruct (fle_total_total v w); congruence.
Qed.

Global Instance before_trans : Transitive (before tie).
Proof.
  intros [v i] [w j] [u k]. unfold before. simpl.
  intros [H1 T1] [H2 T2]. split.
  - eapply fle_total_trans; eassumption.
  - intros Huv. transitivity j.
    + apply T1. eapply fle_total_trans; eassumption.
    + apply T2. eapply fle_total_trans; eassumption.
Qed.

Lemma zip_seq_lookup (l : list fval) (v : fval) (i : nat) :
  (v, i) ∈ zip l (seq 0 (length l)) -> l !! i = Some v.
Proof.
  intros [k Hk]%list_elem_of_lookup_1.
  apply lookup_zip_with_Some in Hk as (x & y & E & Hx & Hy).
  apply lookup_seq in Hy as [-> _]. now inversion E; subst.
Qed.

Lemma gather_snd_fst (l : list fval) (s : list (fval * nat)) :
  Forall (fun vi => l !! snd vi = Some (fst vi)) s ->
  gather l (map snd s) = map fst s.
Proof.
  induction 1 as [|[v i] s Hvi _ IH]; [reflexivity|].
  simpl. rewrite gather_cons. simpl in Hvi. rewrite Hvi. now f_equal.
Qed.

Lemma before_ascending (s : list (fval * nat)) :
  Forall (fun vi => notna (fst vi) = true) s ->
  StronglySorted (before tie) s ->
  ascending (map fst s).
Proof.
  intros Hs H. induction H as [|a s _ IH Ha]; [constructor|].
  apply Forall_cons in Hs as [Hna Hs]. simpl. constructor; [now apply IH|].
  rewrite Forall_forall in Ha, Hs. apply Forall_forall.
  intros v [b [-> Hb]]%list_elem_of_fmap.
  destruct (Ha b Hb) as [Hle _].
  rewrite <- fle_total_notna; auto.
Qed.

Lemma argsort_by_routine : sorting_routine (argsort_by tie).
Proof.
  split; intros l.
  - unfold argsort_by.
    rewrite (Permutation_map snd (merge_sort_Permutation (before tie) _)).
    change (map snd ?z) with (z.*2). rewrite snd_zip; [reflexivity|].
    now rewrite length_seq.
  - intros Hl. unfold argsort_by.
    set (z := zip l (seq 0 (length l))).
    assert (merge_sort (before tie) z ≡ₚ z) as Hp
      by apply merge_sort_Permutation.
    assert (Forall (fun vi => l !! snd vi = Some (fst vi))
                   (merge_sort (before tie) z)) as Hz.
    { apply Forall_forall. intros [v i] Hvi. rewrite Hp in Hvi.
      now apply zip_seq_lookup. }
    rewrite gather_snd_fst by exact Hz.
    apply before_ascending.
    + rewrite Forall_forall in Hl. eapply Forall_impl; [exact Hz|].
      intros [v i] Hvi. simpl in *. apply Hl.
      eapply list_elem_of_lookup_2, Hvi.
    + apply StronglySorted_merge_sort; apply _.
Qed.

End Routines.

Global Instance later_total : Total later.
Proof. intros i j. unfold later. lia. Qed.

Global Instance later_trans : Transitive later.
Proof. intros i j k. unfold later. lia. Qed.

Lemma argsort_stable_routine : sorting_routine argsort_stable.
Proof. apply argsort_by_routine; apply _. Qed.

Lemma argsort_reversing_routine : sorting_routine argsort_reversing.
Proof. apply argsort_by_routine; apply _. Qed.

(** ** The ranked table *)

Section SortValues.

Variable argsort : list fval -> list nat.
Hypothesis routine : sorting_routine argsort.

Lemma cap_missing_iff (r : prow) : cap_missing r <-> ~ cap_known r.
Proof.
  unfold cap_missing, cap_known, notna.
  destruct (isna (market_cap_crore r)); simpl; split; congruence.
Qed.

Lemma seq_in_range (n : nat) (P : nat -> Prop) `{!forall i, Decision (P i)} :
  Forall (fun i => i < n) (filter P (seq 0 n)).
Proof.
  apply Forall_forall. intros i [_ Hi]%list_elem_of_filter.
  apply elem_of_seq in Hi. lia.
Qed.

(** The sorted frame is the rows with a market cap, in descending order,
    followed by the rows without one in the order they had. *)
Lemma sort_values_desc_shape (df : list prow) :
  exists known : list prow,
    sort_values_desc argsort df = known ++ filter cap_missing df /\
    known ≡ₚ filter cap_known df /\
    descending (map market_cap_crore known).
Proof.
  destruct routine as [Hperm Hasc].
  unfold sort_values_desc, nargsort_desc. rewrite length_map.
  set (nn := filter (fun i => notna (cell i (map market_cap_crore df)) = true)
                    (seq 0 (length df))).
  assert (gather df nn = filter cap_known df) as Hnn
    by apply (gather_filter market_cap_crore notna).
  assert (gather (map market_cap_crore df) nn
          = map market_cap_crore (filter cap_known df)) as Hitems
    by (rewrite gather_fmap; now f_equal).
  rewrite Hitems.
  set (kr := reverse (filter cap_known df)).
  assert (reverse (map market_cap_crore (filter cap_known df))
          = map market_cap_crore kr) as Hr
    by (symmetry; apply (fmap_reverse market_cap_crore)).
  rewrite Hr.
  set (a := argsort (map market_cap_crore kr)).
  exists (reverse (gather kr a)). split; [|split].
  - rewrite gather_app, gather_reverse. f_equal.
    + f_equal. rewrite gather_gather.
      * rewrite gather_reverse, Hnn. reflexivity.
      * apply Forall_reverse. apply seq_in_range.
    + apply (gather_filter market_cap_crore isna).
  - rewrite reverse_Permutation.
    rewrite (gather_Permutation kr a (seq 0 (length kr))).
    + rewrite gather_seq. apply reverse_Permutation.
    + unfold a. rewrite Hperm. now rewrite length_map.
  - change (map market_cap_crore ?l) with (market_cap_crore <$> l).
    rewrite fmap_reverse. apply StronglySorted_flip_reverse.
    change (market_cap_crore <$> ?l) with (map market_cap_crore l).
    rewrite <- gather_fmap. apply Hasc.
    apply Forall_fmap, Forall_reverse, Forall_forall.
    intros r [Hr' _]%list_elem_of_filter. exact Hr'.
Qed.

Lemma sort_values_desc_Permutation (df : list prow) :
  sort_values_desc argsort df ≡ₚ df.
Proof.
  destruct (sort_values_desc_shape df) as (known & -> & Hk & _).
  rewrite Hk.
  rewrite (list_filter_iff cap_missing (fun r => ~ cap_known r))
    by apply cap_missing_iff.
  apply filter_app_complement.
Qed.

End SortValues.

Section FromDict.

Lemma fdiv_crore (q : Q) : fdiv (Fin q) crore = Fin (q / 10000000).
Proof. reflexivity. Qed.


Lemma elem_of_from_dict (p : list (string * entry)) (r : prow) :
  r ∈ from_dict p <->
  exists t e, (t, e) ∈ p /\
    r = PRow t (sector e) (cell_of (market_cap e))
             (fdiv (cell_of (market_cap e)) crore).
Proof.
  unfold from_dict. change (map ?f p) with (f <$> p).
  rewrite list_elem_of_fmap. split.
  - intros [[t e] [-> H]]. exists t, e. auto.
  - intros (t & e & H & ->). exists (t, e). auto.
Qed.


(** Dividing by ten million keeps the order of the market caps. *)
Lemma crore_order (x y : Q) :
  fle (fdiv (Fin y) crore) (fdiv (Fin x) crore) = fle (Fin y) (Fin x).
Proof.
  rewrite !fdiv_crore. simpl.
  assert (0 < / 10000000)%Q as Hc by reflexivity.
  destruct (Qle_bool y x) eqn:E.
  - apply Qle_bool_iff. apply Qle_bool_iff in E.
    unfold Qdiv. now apply Qmult_le_r.
  - destruct (Qle_bool (y / 10000000) (x / 10000000)) eqn:E'; [|reflexivity].
    apply Qle_bool_iff in E'. unfold Qdiv in E'.
    apply Qmult_le_r in E'; [|exact Hc].
    apply Qle_bool_iff in E'. congruence.
Qed.



End FromDict.

(** ** Claim on the ranked table *)


(** With a routine that keeps equal values in their order the same two
    tickers stay in configuration order. *)
Example ranked_table_ties_stable_routine :
  map ticker
    (df_portfolio argsort_stable
       [("A", Entry "Banking" (Some 5%Q)); ("B", Entry "Banking" (Some 5%Q))])
  = ["A"; "B"].
Proof. reflexivity. Qed.



(** ** Sums of market-cap columns *)

Lemma elem_of_map {A B : Type} (f : A -> B) (l : list A) (y : B) :
  y ∈ map f l <-> exists x, y = f x /\ x ∈ l.
Proof. apply (list_elem_of_fmap f). Qed.

Section Sums.

Lemma sum_skipna_cons (v : fval) (l : list fval) :
  sum_skipna (v :: l)
  = if notna v then fadd v (sum_skipna l) else sum_skipna l.
Proof.
  unfold sum_skipna. rewrite filter_cons.
  destruct (notna v); reflexivity.
Qed.

Lemma sum_skipna_known (l : list fval) :
  Forall number_or_missing l -> sum_skipna l = Fin (known_sum l).
Proof.
  induction 1 as [|v l [->|[q ->]] _ IH]; [reflexivity| |];
    rewrite sum_skipna_cons; simpl; rewrite IH; reflexivity.
Qed.

Lemma sum_skipna_all_missing (l : list fval) :
  Forall (fun v => v = NaN) l -> sum_skipna l = Fin 0.
Proof.
  induction 1 as [|v l -> _ IH]; [reflexivity|].
  now rewrite sum_skipna_cons.
Qed.

Lemma known_sum_numbers (cs : list Q) :
  Forall number_or_missing (map Fin cs).
Proof.
  induction cs; constructor; [right; eauto|assumption].
Qed.

Lemma known_sum_nonneg (l : list fval) :
  Forall (fun v => forall q, v = Fin q -> (0 <= q)%Q) l ->
  (0 <= known_sum l)%Q.
Proof.
  induction 1 as [|v l Hv _ IH]; simpl; [apply Qle_refl|].
  destruct v as [q| |]; try assumption.
  specialize (Hv q eq_refl).
  replace 0%Q with (0 + 0)%Q by reflexivity. now apply Qplus_le_compat.
Qed.

Lemma known_sum_pos (l : list fval) (q : Q) :
  Forall (fun v => forall q, v = Fin q -> (0 <= q)%Q) l ->
  Fin q ∈ l -> (0 < q)%Q -> (0 < known_sum l)%Q.
Proof.
  intros H Hin Hq. induction H as [|v l Hv Hl IH]; [inversion Hin|].
  apply elem_of_cons in Hin as [<-|Hin]; simpl.
  - pose proof (known_sum_nonneg l Hl).
    replace 0%Q with (0 + 0)%Q by reflexivity.
    now apply Qplus_lt_le_compat.
  - specialize (IH Hin). destruct v as [q'| |]; try assumption.
    specialize (Hv q' eq_refl).
    rewrite (Qplus_comm q'). replace 0%Q with (0 + 0)%Q by reflexivity.
    now apply Qplus_lt_le_compat.
Qed.


Lemma map_snd_sector_percentage (caps : list (string * fval)) :
  map snd (sector_percentage caps)
  = map (fun v => fmul (fdiv v (sum_skipna (map snd caps))) (Fin 100))
        (map snd caps).
Proof. unfold sector_percentage. now rewrite !map_map. Qed.

Lemma group_numbers (s : string) (df : list prow) :
  Forall number_or_missing (map market_cap_crore df) ->
  Forall number_or_missing (group s df).
Proof.
  intros H. rewrite Forall_forall in H. apply Forall_forall. intros v Hv.
  apply elem_of_map in Hv as [r [-> Hr]].
  apply list_elem_of_filter in Hr as [_ Hr].
  apply H, elem_of_map. eauto.
Qed.

Lemma map_snd_sector_caps (df : list prow) :
  Forall number_or_missing (map market_cap_crore df) ->
  map snd (sector_caps df) = map Fin (totals df).
Proof.
  intros H. unfold sector_caps, totals. rewrite !map_map. simpl.
  apply map_ext. intros s. apply sum_skipna_known. now apply group_numbers.
Qed.



End Sums.

(** ** Claims on the sector aggregate *)

Section Aggregates.

Variable argsort : list fval -> list nat.
Hypothesis routine : sorting_routine argsort.
Variable p : list (string * entry).

Lemma df_portfolio_rows (r : prow) :
  r ∈ df_portfolio argsort p <-> r ∈ from_dict p.
Proof.
  unfold df_portfolio.
  now rewrite (sort_values_desc_Permutation argsort routine).
Qed.

Lemma df_portfolio_numbers :
  Forall number_or_missing (map market_cap_crore (df_portfolio argsort p)).
Proof.
  apply Forall_forall. intros v [r [-> Hr]]%elem_of_map.
  apply df_portfolio_rows, elem_of_from_dict in Hr as (t & e & _ & ->).
  simpl. destruct (market_cap e); [right|left]; eauto.
Qed.

Lemma sector_listed (t : string) (e : entry) :
  (t, e) ∈ p -> sector e ∈ group_keys (df_portfolio argsort p).
Proof.
  intros H. apply elem_of_group_keys, elem_of_map.
  exists (PRow t (sector e) (cell_of (market_cap e))
               (fdiv (cell_of (market_cap e)) crore)).
  split; [reflexivity|]. apply df_portfolio_rows, elem_of_from_dict. eauto.
Qed.

Lemma group_cells (s : string) (v : fval) :
  v ∈ group s (df_portfolio argsort p) <->
  exists t e, (t, e) ∈ p /\ sector e = s /\
              v = fdiv (cell_of (market_cap e)) crore.
Proof.
  unfold group. rewrite elem_of_map. split.
  - intros [r [-> [Hs Hr]%list_elem_of_filter]].
    apply df_portfolio_rows, elem_of_from_dict in Hr as (t & e & H & ->).
    exists t, e. auto.
  - intros (t & e & H & Hs & ->).
    exists (PRow t (sector e) (cell_of (market_cap e))
                 (fdiv (cell_of (market_cap e)) crore)).
    split; [reflexivity|]. apply list_elem_of_filter. split; [exact Hs|].
    apply df_portfolio_rows, elem_of_from_dict. eauto.
Qed.

Lemma sector_caps_entry (s : string) :
  s ∈ group_keys (df_portfolio argsort p) ->
  (s, sum_skipna (group s (df_portfolio argsort p)))
    ∈ sector_caps (df_portfolio argsort p).
Proof.
  intros H. unfold sector_caps. apply elem_of_map. eauto.
Qed.

End Aggregates.

(** C5, as stated, fails: the sum of a sector skips the missing market
    caps, and a sector whose only ticker has no market cap is listed in the
    sector aggregate with the total 0. *)
Lemma missing_cap_counterexample :
  sector_caps
    (df_portfolio argsort_stable
       [("A", Entry "Banking" (Some 5000000000%Q)); ("B", Entry "Tech" None)])
  = [("Banking", Fin (5000000000 / 10000000 + 0)); ("Tech", Fin 0)].
Proof. reflexivity. Qed.

(** C5, amended.  An unset market cap stays missing through the unit
    conversion and the ranked table (the row of its ticker is kept, with
    both cells missing, never zero); the sector sums leave the missing
    cells out, so a sector all of whose tickers lack a market cap is listed
    in the sector aggregate with the total 0. *)
Theorem missing_cap_propagation (argsort : list fval -> list nat)
    (p : list (string * entry)) :
  sorting_routine argsort ->
  (forall t e, (t, e) ∈ p -> market_cap e = None ->
     PRow t (sector e) NaN NaN ∈ df_portfolio argsort p) /\
  (forall s,
     (exists t e, (t, e) ∈ p /\ sector e = s) ->
     (forall t e, (t, e) ∈ p -> sector e = s -> market_cap e = None) ->
     (s, Fin 0) ∈ sector_caps (df_portfolio argsort p)).
Proof.
  intros routine. split.
  - intros t e H Hnone. apply (df_portfolio_rows argsort routine).
    apply elem_of_from_dict. exists t, e. split; [exact H|].
    now rewrite Hnone.
  - intros s (t & e & H & Hs) Hall.
    rewrite <- (sum_skipna_all_missing (group s (df_portfolio argsort p))).
    + apply sector_caps_entry. subst s.
      eapply sector_listed; eassumption.
    + apply Forall_forall. intros v Hv.
      apply (group_cells argsort routine) in Hv as (t' & e' & H' & Hs' & ->).
      now rewrite (Hall t' e' H' Hs').
Qed.

Lemma missing_cap_propagation_witness :
  sorting_routine argsort_stable /\
  PRow "ICICIBANK.NS" "Banking" NaN NaN
    ∈ df_portfolio argsort_stable portfolio_config.
Proof.
  split; [exact argsort_stable_routine|].
  apply (proj1 (missing_cap_propagation argsort_stable portfolio_config
                  argsort_stable_routine)
               "ICICIBANK.NS" (Entry "Banking" None)).
  - apply list_elem_of_here.
  - reflexivity.
Defined.

Section Shares.

Variable argsort : list fval -> list nat.
Hypothesis routine : sorting_routine argsort.
Variable p : list (string * entry).

Let df := df_portfolio argsort p.

Lemma shares_of_portfolio :
  map snd (sector_percentage (sector_caps df))
  = map (fun v => fmul (fdiv v (Fin (known_sum (map Fin (totals df)))))
                       (Fin 100))
        (map Fin (totals df)) /\
  sum_skipna (map snd (sector_caps df))
  = Fin (known_sum (map Fin (totals df))).
Proof.
  pose proof (df_portfolio_numbers argsort routine p) as Hn. fold df in Hn.
  rewrite map_snd_sector_percentage, (map_snd_sector_caps df Hn).
  rewrite (sum_skipna_known _ (known_sum_numbers (totals df))).
  split; reflexivity.
Qed.

Lemma crore_nonneg (q : Q) : (0 <= q)%Q -> (0 <= q / 10000000)%Q.
Proof.
  intros H. unfold Qdiv.
  rewrite <- (Qmult_0_l (/ 10000000)).
  apply Qmult_le_compat_r; [exact H|discriminate].
Qed.

Lemma crore_pos (q : Q) : (0 < q)%Q -> (0 < q / 10000000)%Q.
Proof.
  intros H. unfold Qdiv.
  rewrite <- (Qmult_0_l (/ 10000000)).
  apply Qmult_lt_compat_r; [reflexivity|exact H].
Qed.

Hypothesis caps_nonneg :
  forall t e q, (t, e) ∈ p -> market_cap e = Some q -> (0 <= q)%Q.

Lemma group_nonneg (s : string) :
  Forall (fun v => forall q, v = Fin q -> (0 <= q)%Q) (group s df).
Proof.
  apply Forall_forall. intros v Hv q ->.
  apply (group_cells argsort routine) in Hv as (t & e & H & _ & E).
  destruct (market_cap e) as [c|] eqn:Hc; simpl in E; [|discriminate].
  inversion E; subst. apply crore_nonneg. eapply caps_nonneg; eassumption.
Qed.

Lemma totals_nonneg :
  Forall (fun v => forall q, v = Fin q -> (0 <= q)%Q) (map Fin (totals df)).
Proof.
  apply Forall_forall. intros v [c [-> Hc]]%elem_of_map q E.
  inversion E; subst. apply elem_of_map in Hc as [s [-> _]].
  apply known_sum_nonneg, group_nonneg.
Qed.

Lemma total_pos (t : string) (e : entry) (q : Q) :
  (t, e) ∈ p -> market_cap e = Some q -> (0 < q)%Q ->
  (0 < known_sum (map Fin (totals df)))%Q.
Proof.
  intros H Hq Hpos.
  apply (known_sum_pos _ (known_sum (group (sector e) df))).
  - apply totals_nonneg.
  - apply elem_of_map. eexists. split; [reflexivity|].
    apply elem_of_map. exists (sector e). split; [reflexivity|].
    eapply sector_listed; eassumption.
  - apply (known_sum_pos _ (q / 10000000)).
    + apply group_nonneg.
    + apply (group_cells argsort routine). exists t, e.
      repeat split; try assumption. now rewrite Hq.
    + now apply crore_pos.
Qed.

End Shares.






Example portfolio_example_tables :
  map ticker (df_portfolio argsort_stable portfolio_example) = ["A"; "B"; "C"] /\
  map ticker (df_portfolio argsort_reversing portfolio_example)
  = ["A"; "B"; "C"] /\
  sector_caps (from_dict portfolio_example)
  = [("Banking", Fin (500 / 10000000 + (300 / 10000000 + 0)));
     ("Tech", Fin (200 / 10000000 + 0))] /\
  Forall2 (fun kv expected => fst kv = fst expected /\
                              feq (snd kv) (Fin (snd expected)))
          (sector_percentage (sector_caps (from_dict portfolio_example)))
          [("Banking", 80%Q); ("Tech", 20%Q)].
Proof.
  repeat split; try reflexivity.
  repeat constructor; reflexivity.
Qed.

(** ** Insertion-ordered mappings *)

Section Assign.

Context {A : Type}.
Implicit Types (l : list (string * A)).

Lemma keys_assign_in k (v : A) l : k ∈ keys l -> keys (assign k v l) = keys l.
Proof.
  induction l as [|[k' v'] l IH]; simpl; [inversion 1|].
  destruct (String.eqb_spec k k') as [->|Hne]; simpl; [reflexivity|].
  intros [?|H]%elem_of_cons; [congruence|]. now rewrite IH.
Qed.

Lemma keys_assign_notin k (v : A) l :
  k ∉ keys l -> keys (assign k v l) = keys l ++ [k].
Proof.
  induction l as [|[k' v'] l IH]; simpl; [reflexivity|].
  intros H. apply not_elem_of_cons in H as [Hne Hl].
  destruct (String.eqb_spec k k') as [->|_]; [congruence|].
  simpl. now rewrite IH.
Qed.

Lemma NoDup_keys_assign k (v : A) l :
  NoDup (keys l) -> NoDup (keys (assign k v l)).
Proof.
  intros H. destruct (decide (k ∈ keys l)) as [Hin|Hout].
  - now rewrite keys_assign_in.
  - rewrite keys_assign_notin by assumption.
    apply NoDup_app. repeat split; [assumption| |apply NoDup_singleton].
    intros x Hx ->%list_elem_of_singleton. contradiction.
Qed.

Lemma elem_of_assign k (v : A) l k' v' :
  (k', v') ∈ assign k v l -> (k' = k /\ v' = v) \/ (k', v') ∈ l.
Proof.
  induction l as [|[k0 v0] l IH]; simpl.
  - intros H%list_elem_of_singleton. inversion H. auto.
  - destruct (String.eqb_spec k k0) as [->|Hne].
    + intros [H|H]%elem_of_cons; [inversion H; auto|].
      right. now apply list_elem_of_further.
    + intros [H|H]%elem_of_cons.
      * right. rewrite H. apply list_elem_of_here.
      * destruct (IH H); auto. right. now apply list_elem_of_further.
Qed.

Lemma elem_of_assign_same k (v : A) l : (k, v) ∈ assign k v l.
Proof.
  induction l as [|[k0 v0] l IH]; simpl; [apply list_elem_of_here|].
  destruct (String.eqb_spec k k0) as [->|Hne]; [apply list_elem_of_here|].
  now apply list_elem_of_further.
Qed.

Lemma elem_of_assign_other k (v : A) l k' v' :
  k' <> k -> (k', v') ∈ l -> (k', v') ∈ assign k v l.
Proof.
  intros Hne. induction l as [|[k0 v0] l IH]; simpl; [inversion 1|].
  intros [H|H]%elem_of_cons.
  - inversion H; subst. destruct (String.eqb_spec k k0); [congruence|].
    apply list_elem_of_here.
  - destruct (String.eqb_spec k k0); apply list_elem_of_further; auto.
Qed.

(** Assigning to the key at the head of the remaining items changes that
    item only, when the keys are distinct. *)
Lemma assign_middle k (v v0 : A) (done todo : list (string * A)) :
  k ∉ keys done ->
  assign k v (done ++ (k, v0) :: todo) = done ++ (k, v) :: todo.
Proof.
  induction done as [|[k' v'] done IH]; simpl.
  - intros _. now rewrite String.eqb_refl.
  - intros H. apply not_elem_of_cons in H as [Hne Hd].
    destruct (String.eqb_spec k k'); [congruence|]. now rewrite IH.
Qed.

Lemma assign_nonempty k (v : A) l : assign k v l <> [].
Proof.
  destruct l as [|[k' v'] l]; simpl; [discriminate|].
  destruct (String.eqb k k'); discriminate.
Qed.

Lemma assoc_elem_of k (v : A) l : assoc k l = Some v -> (k, v) ∈ l.
Proof.
  induction l as [|[k' v'] l IH]; simpl; [discriminate|].
  destruct (String.eqb_spec k k') as [->|_].
  - intros [= ->]. apply list_elem_of_here.
  - intros H. now apply list_elem_of_further, IH.
Qed.

Lemma assoc_keys k l : k ∈ keys l -> exists v, assoc k l = Some v.
Proof.
  induction l as [|[k' v'] l IH]; simpl; [inversion 1|].
  destruct (String.eqb_spec k k') as [->|Hne]; [eauto|].
  intros [?|H]%elem_of_cons; [congruence|auto].
Qed.

End Assign.

(** ** The stages, one by one *)

Section FetchStock.

Variable P : Provider.

Lemma fetch_stock_loop_spec (ts : list string) :
  forall data w r w',
    fetch_stock_loop P ts data w = (r, w') ->
    same_data w w' /\
    match r with
    | Ok data' =>
        (NoDup (keys data) -> NoDup (keys data')) /\
        (forall t df, (t, df) ∈ data' ->
                      (t, df) ∈ data \/ (t ∈ ts /\ history P t = Ok df)) /\
        (forall t df, (t, df) ∈ data ->
                      (t ∈ ts -> history P t = Ok df) -> (t, df) ∈ data') /\
        (forall t, t ∈ ts -> exists df, history P t = Ok df /\ (t, df) ∈ data')
    | Raise e => exists t, t ∈ ts /\ history P t = Raise e
    end.
Proof.
  induction ts as [|t0 ts IH]; intros data w r w' H; simpl in H.
  - inversion H; subst. split; [repeat split|].
    repeat split; auto. intros t Ht. inversion Ht.
  - unfold bind, lift in H. destruct (history P t0) as [hist|e] eqn:Hh.
    + assert (exists w1, (if empty hist
                          then print ("Warning: No data for " +:+ t0)
                          else ret tt) w = (Ok tt, w1) /\ same_data w w1)
        as (w1 & E1 & S1).
      { destruct (empty hist); eexists; (split; [reflexivity|]);
          repeat split. }
      rewrite E1 in H. apply IH in H as [S2 Hr].
      split.
      { destruct S1 as (?&?&?&?), S2 as (?&?&?&?).
        repeat split; congruence. }
      destruct r as [data'|e]; [|destruct Hr as (t & Ht & He); exists t;
                                  split; [now apply list_elem_of_further|exact He]].
      destruct Hr as (N & F2 & F3 & F4). repeat split.
      * intros Hn. apply N. now apply NoDup_keys_assign.
      * intros t df Hin. destruct (F2 t df Hin) as [Ha|[Ht Hd]].
        -- apply elem_of_assign in Ha as [[-> ->]|Ha]; [right|left; exact Ha].
           split; [apply list_elem_of_here|exact Hh].
        -- right. split; [now apply list_elem_of_further|exact Hd].
      * intros t df Hin Hc. apply F3.
        -- destruct (decide (t = t0)) as [->|Hne].
           ++ assert (hist = df) as ->.
              { specialize (Hc (list_elem_of_here _ _)). congruence. }
              apply elem_of_assign_same.
           ++ now apply elem_of_assign_other.
        -- intros Ht. apply Hc. now apply list_elem_of_further.
      * intros t [->|Ht]%elem_of_cons.
        -- exists hist. split; [exact Hh|]. apply F3.
           ++ apply elem_of_assign_same.
           ++ intros _. exact Hh.
        -- now apply F4.
    + inversion H; subst. split; [repeat split|].
      exists t0. split; [apply list_elem_of_here|exact Hh].
Qed.

Lemma fetch_stock_data_spec (ts : list string) (w : world) r w' :
  fetch_stock_data P ts w = (r, w') ->
  same_data w w' /\
  match r with
  | Ok data =>
      NoDup (keys data) /\
      (forall t df, (t, df) ∈ data -> t ∈ ts /\ history P t = Ok df) /\
      (forall t, t ∈ ts -> exists df, history P t = Ok df /\ (t, df) ∈ data)
  | Raise e => exists t, t ∈ ts /\ history P t = Raise e
  end.
Proof.
  intros H. apply fetch_stock_loop_spec in H as [S Hr]. split; [exact S|].
  destruct r as [data|e]; [|exact Hr].
  destruct Hr as (N & F2 & _ & F4). repeat split.
  - apply N. constructor.
  - destruct (F2 t df H) as [Hn|[? ?]]; [inversion Hn|assumption].
  - destruct (F2 t df H) as [Hn|[? ?]]; [inversion Hn|assumption].
  - exact F4.
Qed.

End FetchStock.

Section ReturnsStage.

Lemma assoc_assign_same {A : Type} (k : string) (v : A)
    (l : list (string * A)) :
  assoc k (assign k v l) = Some v.
Proof.
  induction l as [|[k' v'] l IH]; simpl.
  - now rewrite String.eqb_refl.
  - destruct (String.eqb_spec k k') as [->|Hne]; simpl.
    + now rewrite String.eqb_refl.
    + destruct (String.eqb_spec k k'); [congruence|exact IH].
Qed.

Lemma keys_assign_cases {A : Type} (k : string) (v : A)
    (l : list (string * A)) (c : string) :
  c ∈ keys (assign k v l) -> c = k \/ c ∈ keys l.
Proof.
  destruct (decide (k ∈ keys l)) as [Hin|Hout].
  - rewrite keys_assign_in by assumption. auto.
  - rewrite keys_assign_notin by assumption.
    intros [?|H]%elem_of_app; [auto|].
    apply list_elem_of_singleton in H. auto.
Qed.

Lemma setitem_series_keys (name : string) (s : series) (df df' : frame)
    (c : string) :
  setitem_series name s df = Ok df' ->
  c ∈ keys (columns df') -> c = name \/ c ∈ keys (columns df).
Proof.
  unfold setitem_series, set_column.
  destruct (Nat.eqb _ 0); [|destruct (bool_decide _); [|destruct (unique _)]];
    intros [= <-]; simpl; apply keys_assign_cases.
Qed.

Lemma date_fmt_all_text (l labels : list label) :
  date_fmt_all l = Ok labels ->
  Forall is_text labels /\ length labels = length l.
Proof.
  revert labels. induction l as [|d l IH]; simpl; intros labels.
  - intros [= <-]. split; [constructor|reflexivity].
  - destruct (date_fmt d); [|discriminate].
    destruct (date_fmt_all l) as [r|]; [|discriminate].
    intros [= <-]. destruct (IH r eq_refl) as [H1 H2].
    split; [constructor; [exact I|exact H1]|simpl; now rewrite H2].
Qed.

(** A text index cannot be formatted again. *)
Lemma date_fmt_all_of_text (l : list label) :
  Forall is_text l -> l <> [] -> date_fmt_all l = Raise AttributeError_strftime.
Proof.
  destruct 1 as [|d l Hd _]; [congruence|].
  intros _. destruct d; [destruct Hd|reflexivity].
Qed.

Lemma returns_loop_spec (todo : list (string * frame)) :
  forall done returns w r w',
    stock_data w = done ++ todo ->
    NoDup (keys (done ++ todo)) ->
    returns_loop todo returns w = (r, w') ->
    portfolio_stocks w' = portfolio_stocks w /\ stdout w' = stdout w /\
    figure w' = figure w /\ output w' = output w /\
    match r with
    | Ok returns' =>
        stock_data w' = done ++ map updated todo /\
        (forall c, c ∈ keys (columns returns') ->
                   c ∈ keys (columns returns) \/
                   exists df, (c, df) ∈ todo /\ empty df = false) /\
        (forall t df, (t, df) ∈ todo ->
                      negb (empty df) && has_column "Close" df = true ->
                      exists labels, date_fmt_all (index df) = Ok labels)
    | Raise _ => True
    end.
Proof.
  induction todo as [|[t df] todo IH]; intros done returns w r w' Hsd Hnd H.
  - simpl in H. inversion H; subst. repeat split; auto.
    intros t df Hin. inversion Hin.
  - assert (t ∉ keys done) as Ht.
    { unfold keys in Hnd. rewrite map_app in Hnd. simpl in Hnd.
      apply NoDup_app in Hnd as (_ & Hd & _). intros Hin.
      apply (Hd t Hin). apply list_elem_of_here. }
    assert (NoDup (keys ((done ++ [(t, with_returns df)]) ++ todo))) as Hnd'.
    { rewrite <- app_assoc. simpl. unfold keys in *.
      rewrite map_app in *. exact Hnd. }
    simpl in H.
    destruct (negb (empty df) && has_column "Close" df) eqn:Hq.
    + apply andb_prop in Hq as Hq'. destruct Hq' as [He Hc].
      apply negb_true_iff in He. unfold has_column in Hc.
      unfold bind, lift, getitem, column, mutate_frame in H.
      destruct (assoc "Close" (columns df)) as [close|] eqn:Hclose;
        [|discriminate].
      simpl in H.
      destruct (date_fmt_all (index df)) as [labels|e] eqn:Hfmt.
      * rewrite assoc_assign_same in H.
        rewrite Hsd, !assign_middle in H by assumption.
        assert (with_returns df
                = set_index labels
                    (set_column "Daily Return" (pct_change close) df)) as Hw.
        { unfold with_returns, column. rewrite Hq, Hclose, Hfmt. reflexivity. }
        rewrite <- Hw in H.
        destruct (setitem_series t _ returns) as [returns'|e] eqn:Hset.
        -- apply (IH (done ++ [(t, with_returns df)])) in H;
             [|simpl; now rewrite <- app_assoc|exact Hnd'].
           simpl in H. destruct H as (? & ? & ? & ? & Hr).
           repeat split; try assumption.
           destruct r as [returns''|]; [|exact I].
           destruct Hr as (Hs & Hk & Hd). split; [|split].
           ++ rewrite Hs, <- app_assoc. reflexivity.
           ++ intros c Hc'. destruct (Hk c Hc') as [Hk'|(df' & Hin & He')].
              ** destruct (setitem_series_keys _ _ _ _ c Hset Hk') as [->|?];
                   [right|left; assumption].
                 exists df. split; [apply list_elem_of_here|exact He].
              ** right. exists df'. split; [now apply list_elem_of_further|].
                 exact He'.
           ++ intros t' df' [E|Hin]%elem_of_cons Hq'.
              ** inversion E; subst. eauto.
              ** eapply Hd; eassumption.
        -- inversion H; subst. simpl. repeat split; auto.
      * inversion H; subst. simpl. repeat split; auto.
    + assert (with_returns df = df) as Hw
        by (unfold with_returns; now rewrite Hq).
      rewrite Hw in Hnd'.
      apply (IH (done ++ [(t, df)])) in H;
        [|now rewrite <- app_assoc|exact Hnd'].
      destruct H as (? & ? & ? & ? & Hr). repeat split; try assumption.
      destruct r as [returns'|]; [|exact I].
      destruct Hr as (Hs & Hk & Hd). split; [|split].
      * rewrite Hs, <- app_assoc. simpl. unfold updated at 2. simpl.
        now rewrite Hw.
      * intros c Hc'. destruct (Hk c Hc') as [?|(df' & Hin & He')]; [now left|].
        right. exists df'. split; [now apply list_elem_of_further|exact He'].
      * intros t' df' [E|Hin]%elem_of_cons Hq'.
        -- inversion E; subst. congruence.
        -- eapply Hd; eassumption.
Qed.

End ReturnsStage.

Section TableStage.

Lemma keys_dropna_all (t : rtable) : keys (rows (dropna_all t)) = keys (rows t).
Proof. unfold dropna_all, keys. simpl. now rewrite map_map. Qed.

Lemma keys_sort_index (t : rtable) : keys (rows (sort_index t)) ≡ₚ keys (rows t).
Proof.
  unfold sort_index, keys. simpl.
  apply Permutation_map, merge_sort_Permutation.
Qed.

Lemma daily_returns_spec (w : world) r w' :
  NoDup (keys (stock_data w)) ->
  daily_returns w = (r, w') ->
  portfolio_stocks w' = portfolio_stocks w /\ stdout w' = stdout w /\
  figure w' = figure w /\ output w' = output w /\
  match r with
  | Ok tbl =>
      stock_data w' = map updated (stock_data w) /\
      (forall c, c ∈ keys (rows tbl) ->
                 exists df, (c, df) ∈ stock_data w /\ empty df = false) /\
      (forall t df, (t, df) ∈ stock_data w ->
                    negb (empty df) && has_column "Close" df = true ->
                    exists labels, date_fmt_all (index df) = Ok labels)
  | Raise _ => True
  end.
Proof.
  intros Hnd H. unfold daily_returns, bind, get in H.
  destruct (returns_loop (stock_data w) empty_frame w) as [[returns|e] w1]
    eqn:E; apply (returns_loop_spec _ []) in E; try assumption; try reflexivity;
    destruct E as (? & ? & ? & ? & Hr); inversion H; subst;
    repeat split; try assumption.
  - apply Hr.
  - intros c Hc. rewrite keys_dropna_all, keys_sort_index in Hc.
    destruct Hr as (_ & Hk & _).
    destruct (Hk c Hc) as [Hn|?]; [inversion Hn|assumption].
  - apply Hr.
Qed.

End TableStage.

Section RenderStages.

Variable R : Renderer.

Lemma render_heatmap_eq (tbl : rtable) (w : world) :
  render_heatmap R tbl w
  = match sns_heatmap R tbl with
    | None =>
        (Ok tt, World (portfolio_stocks w) (stock_data w) (stdout w) []
                      (output w ++ [("heatmap.png", HeatmapImage tbl)]))
    | Some e =>
        (Raise e, World (portfolio_stocks w) (stock_data w) (stdout w) []
                        (output w))
    end.
Proof.
  unfold render_heatmap, bind, plt_figure, draw.
  destruct (sns_heatmap R tbl); reflexivity.
Qed.

Lemma render_marketcap_eq (df : list prow) (w : world) :
  render_marketcap R df w
  = match sns_barplot R df with
    | None =>
        (Ok tt, World (portfolio_stocks w) (stock_data w) (stdout w) []
                      (output w ++ [("marketcap.png", BarImage df)]))
    | Some e =>
        (Raise e, World (portfolio_stocks w) (stock_data w) (stdout w) []
                        (output w))
    end.
Proof.
  unfold render_marketcap, bind, plt_figure, draw.
  destruct (sns_barplot R df); reflexivity.
Qed.

Lemma render_sector_eq (caps : list (string * fval)) (w : world) :
  render_sector R caps w
  = match plt_pie R (pie_slices caps) with
    | None =>
        (Ok tt, World (portfolio_stocks w) (stock_data w) (stdout w) []
                      (output w ++ [("sector_allocation.png",
                                     PieImage (pie_slices caps))]))
    | Some e =>
        (Raise e, World (portfolio_stocks w) (stock_data w) (stdout w) []
                        (output w))
    end.
Proof.
  unfold render_sector, bind, plt_figure, draw.
  destruct (plt_pie R (pie_slices caps)); reflexivity.
Qed.

End RenderStages.

Section TrendStage.

Lemma trend_loop_spec (items : list (string * frame)) :
  forall w r w',
    trend_loop items w = (r, w') ->
    portfolio_stocks w' = portfolio_stocks w /\
    stock_data w' = stock_data w /\ stdout w' = stdout w /\
    output w' = output w /\
    exists lines,
      figure w' = figure w ++ lines /\
      (forall l, l ∈ lines ->
         exists df, (line_label l, df) ∈ items /\ empty df = false) /\
      ((forall t df, (t, df) ∈ items -> empty df = false -> blocked df) ->
       (exists t df, (t, df) ∈ items /\ empty df = false) ->
       exists e, r = Raise e).
Proof.
  induction items as [|[t df] items IH]; intros w r w' H; simpl in H.
  - inversion H; subst. repeat split; auto. exists []. rewrite app_nil_r.
    split; [reflexivity|]. split.
    + intros l Hl. inversion Hl.
    + intros _ (t & df & Hin & _). inversion Hin.
  - destruct (empty df) eqn:He.
    + apply IH in H as (? & ? & ? & ? & lines & Hf & Hl & Hb).
      repeat split; try assumption. exists lines.
      split; [assumption|]. split.
      * intros l Hin. destruct (Hl l Hin) as (df' & ? & ?).
        exists df'. split; [now apply list_elem_of_further|assumption].
      * intros Hall (t' & df' & Hin & He').
        apply Hb.
        -- intros t0 df0 Hin0. apply (Hall t0 df0).
           now apply list_elem_of_further.
        -- apply elem_of_cons in Hin as [Heq|Hin].
           ++ inversion Heq; subst. congruence.
           ++ eauto.
    + unfold bind, lift, getitem in H.
      destruct (column "Close" df) as [close|] eqn:Hc.
      * destruct (date_fmt_all (index df)) as [labels|e] eqn:Hfmt.
        -- apply IH in H as (? & ? & ? & ? & lines & Hf & Hl & Hb).
           simpl in *. repeat split; try assumption.
           exists (Line t labels close (String.eqb t highlight_stock) :: lines).
           split; [|split].
           ++ rewrite Hf, <- app_assoc. reflexivity.
           ++ intros l [->|Hin]%elem_of_cons.
              ** exists df. split; [apply list_elem_of_here|exact He].
              ** destruct (Hl l Hin) as (df' & ? & ?). exists df'.
                 split; [now apply list_elem_of_further|assumption].
           ++ intros Hall _.
              destruct (Hall t df (list_elem_of_here _ _) He) as [Hn|[e Hn]];
                congruence.
        -- inversion H; subst. repeat split; auto. exists [].
           rewrite app_nil_r. split; [reflexivity|]. split; [|eauto].
           intros l Hl. inversion Hl.
      * inversion H; subst. repeat split; auto. exists [].
        rewrite app_nil_r. split; [reflexivity|]. split; [|eauto].
        intros l Hl. inversion Hl.
Qed.

Lemma with_returns_blocked (df : frame) :
  empty df = false ->
  empty (with_returns df) = false /\ blocked (with_returns df).
Proof.
  intros He. unfold with_returns. rewrite He. simpl.
  unfold has_column, column.
  destruct (assoc "Close" (columns df)) as [close|] eqn:Hc.
  - destruct (date_fmt_all (index df)) as [labels|e] eqn:Hfmt.
    + apply date_fmt_all_text in Hfmt as [Ht Hlen].
      unfold empty in *. simpl.
      apply orb_false_iff in He as [Hi _]. apply Nat.eqb_neq in Hi.
      split.
      * apply orb_false_iff. split; apply Nat.eqb_neq; [lia|].
        pose proof (assign_nonempty "Daily Return" (pct_change close)
                      (columns df)) as Hne.
        destruct (assign _ _ _); simpl; [congruence|lia].
      * right. exists AttributeError_strftime.
        apply date_fmt_all_of_text; [exact Ht|].
        intros E. simpl in E. subst labels. simpl in Hlen. lia.
    + split; [exact He|]. right. eauto.
  - split; [exact He|]. left. exact Hc.
Qed.

End TrendStage.

Section MarketCaps.

Variable P : Provider.

Lemma assoc_assign_other {A : Type} (k k' : string) (v : A)
    (l : list (string * A)) :
  k' <> k -> assoc k' (assign k v l) = assoc k' l.
Proof.
  intros Hne. induction l as [|[k0 v0] l IH]; simpl.
  - destruct (String.eqb_spec k' k); [congruence|reflexivity].
  - destruct (String.eqb_spec k k0) as [->|Hk]; simpl.
    + destruct (String.eqb_spec k' k0); [congruence|reflexivity].
    + destruct (String.eqb_spec k' k0); [reflexivity|exact IH].
Qed.

(** One turn of the loop: the call is guarded, so the turn always returns,
    and the entry of the ticker holds what was fetched. *)
Lemma fetch_market_cap_turn (t : string) (e : entry) (w : world) :
  assoc t (portfolio_stocks w) = Some e ->
  exists out,
    try_except
      (let* market_cap := lift (info_marketCap P t) in
       set_market_cap t market_cap)
      (fun ex =>
         let* _ := print (market_cap_error t ex) in
         set_market_cap t None) w
    = (Ok tt,
       World (assign t (Entry (sector e) (fetched_cap P t)) (portfolio_stocks w))
             (stock_data w) out (figure w) (output w)) /\
    (forall s, s ∈ stdout w -> s ∈ out) /\
    (forall ex, info_marketCap P t = Raise ex -> market_cap_error t ex ∈ out).
Proof.
  intros He. unfold try_except, bind, lift, set_market_cap, print, fetched_cap.
  destruct (info_marketCap P t) as [v|ex]; simpl; rewrite He.
  - exists (stdout w). split; [reflexivity|]. split; [auto|discriminate].
  - exists (stdout w ++ [market_cap_error t ex]). split; [reflexivity|].
    split.
    + intros s Hs. apply elem_of_app. now left.
    + intros ex' [= <-]. apply elem_of_app. right. apply list_elem_of_here.
Qed.

Lemma fetch_market_caps_spec (ts : list string) :
  forall w,
    (forall t, t ∈ ts -> t ∈ keys (portfolio_stocks w)) ->
    exists w',
      fetch_market_caps P ts w = (Ok tt, w') /\
      keys (portfolio_stocks w') = keys (portfolio_stocks w) /\
      stock_data w' = stock_data w /\ figure w' = figure w /\
      output w' = output w /\
      (forall t e, assoc t (portfolio_stocks w) = Some e ->
         exists e', assoc t (portfolio_stocks w') = Some e' /\
                    sector e' = sector e /\
                    market_cap e'
                    = if bool_decide (t ∈ ts) then fetched_cap P t
                      else market_cap e) /\
      (forall s, s ∈ stdout w -> s ∈ stdout w') /\
      (forall t ex, t ∈ ts -> info_marketCap P t = Raise ex ->
                    market_cap_error t ex ∈ stdout w').
Proof.
  induction ts as [|t0 ts IH]; intros w Hts.
  - exists w. simpl. repeat split; auto.
    + intros t e He. exists e. repeat split; auto.
    + intros t ex Ht. inversion Ht.
  - destruct (assoc_keys t0 (portfolio_stocks w)) as [e0 He0].
    { apply Hts, list_elem_of_here. }
    destruct (fetch_market_cap_turn t0 e0 w He0) as (out & Eturn & Hmono & Hlog).
    set (w1 := World (assign t0 (Entry (sector e0) (fetched_cap P t0))
                             (portfolio_stocks w))
                     (stock_data w) out (figure w) (output w)) in *.
    assert (keys (portfolio_stocks w1) = keys (portfolio_stocks w)) as Hk1.
    { simpl. apply keys_assign_in. apply Hts, list_elem_of_here. }
    destruct (IH w1) as (w' & E & Hk & Hsd & Hf & Ho & Hv & Hm & Hl).
    { intros t Ht. rewrite Hk1. apply Hts. now apply list_elem_of_further. }
    exists w'. split.
    { simpl. unfold bind at 1. rewrite Eturn. exact E. }
    split; [congruence|]. repeat split; try assumption.
    + intros t e He.
      destruct (decide (t = t0)) as [->|Hne].
      * assert (e = e0) as -> by congruence.
        destruct (Hv t0 (Entry (sector e0) (fetched_cap P t0)))
          as (e' & He' & Hs & Hc).
        { simpl. apply assoc_assign_same. }
        exists e'. repeat split; try assumption.
        rewrite Hc. rewrite (bool_decide_eq_true_2 (t0 ∈ t0 :: ts))
          by apply list_elem_of_here.
        simpl. now destruct (bool_decide (t0 ∈ ts)).
      * destruct (Hv t e) as (e' & He' & Hs & Hc).
        { simpl. now rewrite assoc_assign_other. }
        exists e'. repeat split; try assumption. rewrite Hc.
        destruct (bool_decide (t ∈ ts)) eqn:B.
        -- apply bool_decide_eq_true in B.
           rewrite bool_decide_eq_true_2; [reflexivity|].
           now apply list_elem_of_further.
        -- apply bool_decide_eq_false in B.
           rewrite bool_decide_eq_false_2; [reflexivity|].
           intros [?|?]%elem_of_cons; congruence.
    + intros s Hs. apply Hm. simpl. now apply Hmono.
    + intros t ex [->|Ht]%elem_of_cons Hex.
      * apply Hm. simpl. now apply Hlog.
      * now apply Hl.
Qed.

End MarketCaps.

(** ** The runs of the script *)

Section Runs.

Variables (P : Provider) (R : Renderer) (argsort : list fval -> list nat).
Variable p : list (string * entry).

Lemma empty_with_returns (df : frame) : empty (with_returns df) = empty df.
Proof.
  destruct (empty df) eqn:He.
  - unfold with_returns. now rewrite He.
  - now apply with_returns_blocked.
Qed.

Lemma elem_of_updated (data : list (string * frame)) t df' :
  (t, df') ∈ map updated data ->
  exists df, (t, df) ∈ data /\ df' = with_returns df.
Proof.
  intros [[t0 df] [E Hin]]%elem_of_map. inversion E; subst. eauto.
Qed.

Lemma render_trends_spec (w : world) r w' :
  (forall t df, (t, df) ∈ stock_data w -> empty df = false -> blocked df) ->
  render_trends w = (r, w') ->
  match r with
  | Ok _ =>
      (forall t df, (t, df) ∈ stock_data w -> empty df = true) /\
      output w' = output w ++ [("price_trends.png", LineImage [])]
  | Raise _ => output w' = output w
  end.
Proof.
  intros Hb H. unfold render_trends, bind, plt_figure, get, write_file in H.
  simpl in H.
  destruct (trend_loop (stock_data w) _) as [[[]|e] w1] eqn:E;
    apply trend_loop_spec in E as (_ & _ & _ & Ho & lines & Hf & Hl & Hr);
    inversion H; subst; simpl in *; [|exact Ho].
  assert (forall t df, (t, df) ∈ stock_data w -> empty df = true) as Hall.
  { intros t df Hin. destruct (empty df) eqn:He; [reflexivity|].
    destruct (Hr Hb) as [e He']; [eauto|discriminate]. }
  split; [exact Hall|]. rewrite Ho, Hf. do 3 f_equal.
  destruct lines as [|l lines]; [reflexivity|].
  destruct (Hl l (list_elem_of_here _ _)) as (df & Hin & He).
  rewrite (Hall _ _ Hin) in He. discriminate.
Qed.

Lemma main_outcome (r : result unit) (w' : world) :
  main P R argsort (initial p) = (r, w') ->
  outcome P R argsort p r (output w').
Proof.
  cbv beta iota delta [main bind get set_stock_data initial]. simpl.
  destruct (fetch_stock_data P _ _) as [[data|e] w1] eqn:E1;
    apply fetch_stock_data_spec in E1 as [(Hps1 & _ & _ & Ho1) F];
    simpl in *.
  2:{ intros [= <- <-]. destruct F as (t & Ht & He). rewrite Ho1.
      eapply stopped_at_fetch; eassumption. }
  assert (fetched P p data) as Hf by exact F. destruct F as (Hnd & _ & _).
  destruct (daily_returns _) as [[tbl|e] w2] eqn:E2;
    apply daily_returns_spec in E2 as (Hps2 & _ & _ & Ho2 & T);
    simpl in *; try exact Hnd.
  2:{ intros [= <- <-]. rewrite Ho2, Ho1. eapply stopped_at_returns, Hf. }
  destruct T as (Hsd2 & Htbl & _).
  rewrite render_heatmap_eq.
  destruct (sns_heatmap R tbl) as [e|] eqn:E3.
  { intros [= <- <-]. simpl. rewrite Ho2, Ho1.
    eapply stopped_at_heatmap; eassumption. }
  destruct (fetch_market_caps_spec P (keys (portfolio_stocks w2))
              (World (portfolio_stocks w2) (stock_data w2) (stdout w2) []
                     (output w2 ++ [("heatmap.png", HeatmapImage tbl)])))
    as (w4 & E4 & Hk4 & Hsd4 & _ & Ho4 & Hv4 & _); [auto|].
  simpl in *. rewrite E4. cbv zeta.
  assert (caps_fetched P p (portfolio_stocks w4)) as Hcaps.
  { rewrite Hps2, Hps1 in *. split; [exact Hk4|].
    intros t e He. destruct (Hv4 t e He) as (e' & ? & ? & Hc).
    exists e'. repeat split; try assumption.
    rewrite Hc, bool_decide_eq_true_2; [reflexivity|].
    apply assoc_elem_of in He. apply elem_of_map. exists (t, e). auto. }
  rewrite render_marketcap_eq.
  destruct (sns_barplot R _) as [e|] eqn:E5.
  { intros [= <- <-]. simpl. rewrite Ho4, Ho2, Ho1.
    eapply stopped_at_barplot; eassumption. }
  rewrite render_sector_eq.
  destruct (plt_pie R _) as [e|] eqn:E6.
  { intros [= <- <-]. simpl. rewrite Ho4, Ho2, Ho1.
    eapply stopped_at_pie; eassumption. }
  destruct (render_trends _) as [[[]|e] w7] eqn:E7;
    apply render_trends_spec in E7; simpl in *.
  - destruct E7 as [Hall Ho7]. unfold write_file, print. simpl.
    intros [= <- <-]. simpl. rewrite Ho7, Ho4, Ho2, Ho1. simpl.
    eapply completed; try eassumption.
    intros t df Hin. rewrite <- empty_with_returns.
    apply (Hall t). rewrite Hsd4, Hsd2. apply elem_of_map.
    exists (t, df). split; [reflexivity|exact Hin].
  - rewrite Hsd4, Hsd2. intros t df' (df & Hin & ->)%elem_of_updated He.
    rewrite empty_with_returns in He. now apply with_returns_blocked.
  - intros [= <- <-]. rewrite E7, Ho4, Ho2, Ho1. simpl.
    eapply stopped_at_trends; eassumption.
  - rewrite Hsd4, Hsd2. intros t df' (df & Hin & ->)%elem_of_updated He.
    rewrite empty_with_returns in He. now apply with_returns_blocked.
Qed.

End Runs.

(** ** Claims on the whole run *)

(** C4.  The claim holds for the market-cap fetch and fails for the price
    fetch: [fetch_stock_data] has no handler, so an exception of
    [history] leaves the function and ends the run before anything is
    written. *)
Theorem price_fetch_exception_propagates (R : Renderer)
    (argsort : list fval -> list nat) :
  fetch_stock_data provider_down (keys portfolio_config)
                   (initial portfolio_config)
  = (Raise ConnectionError, initial portfolio_config) /\
  main provider_down R argsort (initial portfolio_config)
  = (Raise ConnectionError, initial portfolio_config).
Proof. split; reflexivity. Qed.

(** The sibling path: [fetch_market_caps] guards every call, so it always
    returns; a failed call is printed and recorded as a missing cap. *)
Lemma market_cap_exception_caught (P : Provider) (w : world) :
  exists w',
    fetch_market_caps P (keys (portfolio_stocks w)) w = (Ok tt, w') /\
    keys (portfolio_stocks w') = keys (portfolio_stocks w) /\
    forall t ex, t ∈ keys (portfolio_stocks w) ->
      info_marketCap P t = Raise ex ->
      market_cap_error t ex ∈ stdout w' /\
      exists e, assoc t (portfolio_stocks w') = Some e /\ market_cap e = None.
Proof.
  destruct (fetch_market_caps_spec P (keys (portfolio_stocks w)) w)
    as (w' & E & Hk & _ & _ & _ & Hv & _ & Hl); [auto|].
  exists w'. repeat split; try assumption.
  - now apply Hl.
  - destruct (assoc_keys t _ H) as [e He].
    destruct (Hv t e He) as (e' & He' & _ & Hc). exists e'.
    split; [exact He'|]. rewrite Hc, bool_decide_eq_true_2 by assumption.
    unfold fetched_cap. now rewrite H0.
Qed.

(** C7, as stated, fails: no rendering is guarded.  With no price history
    at all the returns table is empty; a heatmap call that refuses the
    empty table ends the run, and the bar chart, the pie chart and the
    price chart are never drawn although their own calls would return. *)
Lemma renderings_isolated_counterexample :
  fst (main provider_no_prices renderer_strict argsort_stable
            (initial portfolio_config))
  = Raise ValueError_empty /\
  output (snd (main provider_no_prices renderer_strict argsort_stable
                    (initial portfolio_config)))
  = [] /\
  (forall df, sns_barplot renderer_strict df = None) /\
  (forall s, plt_pie renderer_strict s = None).
Proof. repeat split; reflexivity. Qed.

(** C7, amended.  The five files have distinct names and are written in a
    fixed order, each by its own step.  The renderings are not isolated:
    the files a run leaves are the first k of the five, k is 5 exactly when
    the run ends normally, and a file is there only if the drawing call of
    every rendering up to it returned; an exception in one rendering ends
    the run before its file and all later files. *)
Theorem renderings_in_sequence (P : Provider) (R : Renderer)
    (argsort : list fval -> list nat) (p : list (string * entry)) :
  NoDup artifact_names /\
  exists k,
    keys (output (snd (main P R argsort (initial p))))
    = take k artifact_names /\
    match fst (main P R argsort (initial p)) with
    | Ok _ => k = 5
    | Raise _ => k < 5
    end /\
    (1 <= k ->
     exists tbl, sns_heatmap R tbl = None /\
       ("heatmap.png", HeatmapImage tbl)
         ∈ output (snd (main P R argsort (initial p)))) /\
    (2 <= k ->
     exists df, sns_barplot R df = None /\
       ("marketcap.png", BarImage df)
         ∈ output (snd (main P R argsort (initial p)))) /\
    (3 <= k ->
     exists s, plt_pie R s = None /\
       ("sector_allocation.png", PieImage s)
         ∈ output (snd (main P R argsort (initial p)))).
Proof.
  split.
  { apply (bool_decide_unpack (NoDup artifact_names)). vm_compute. exact I. }
  destruct (main P R argsort (initial p)) as [r w'] eqn:E.
  apply main_outcome in E. simpl.
  set (o := output w') in *. clearbody o.
  destruct E;
    [ exists 0 | exists 0 | exists 0 | exists 1 | exists 2 | exists 3
    | exists 5 ];
    (split; [reflexivity|]); (split; [simpl; lia|]);
    (split; [|split]); intros; try lia;
    eexists; (split; [eassumption|]);
    rewrite !elem_of_cons; tauto.
Qed.

Section EmptySeries.

Variables (P : Provider) (argsort : list fval -> list nat).
Variable p : list (string * entry).
Hypothesis routine : sorting_routine argsort.





End EmptySeries.



Lemma date_fmt_all_formatted (l labels : list label) :
  date_fmt_all l = Ok labels -> Forall2 formatted l labels.
Proof.
  revert labels. induction l as [|d l IH]; simpl; intros labels.
  - intros [= <-]. constructor.
  - destruct d as [y m dd|s]; simpl; [|discriminate].
    destruct (date_fmt_all l) as [r|]; [|discriminate].
    intros [= <-]. constructor; [|now apply IH].
    exists y, m, dd. split; reflexivity.
Qed.

(** C9.  The return calculation changes the fetched frames in place: when
    it returns, every frame with rows and a Close column has the new
    'Daily Return' column and has its index replaced by day-month-year
    texts, and every other frame is unchanged.  The price-trend step works
    on these changed frames: its [date_fmt] meets texts, so no run in which
    some ticker has price rows gets past it. *)
Theorem returns_stage_mutates_frames :
  (forall (w w' : world) (tbl : rtable) (t : string) (df : frame),
     NoDup (keys (stock_data w)) ->
     daily_returns w = (Ok tbl, w') ->
     (t, df) ∈ stock_data w ->
     if negb (empty df) && has_column "Close" df then
       exists close labels,
         column "Close" df = Some close /\
         Forall2 formatted (index df) labels /\
         (t, Frame labels
                   (assign "Daily Return" (pct_change close) (columns df)))
           ∈ stock_data w'
     else (t, df) ∈ stock_data w') /\
  (forall (P : Provider) (R : Renderer) (argsort : list fval -> list nat)
          (p : list (string * entry)) (t : string) (df : frame),
     t ∈ keys p -> history P t = Ok df -> empty df = false ->
     fst (main P R argsort (initial p)) <> Ok tt /\
     "price_trends.png"
       ∉ keys (output (snd (main P R argsort (initial p))))).
Proof.
  split.
  - intros w w' tbl t df Hnd H Hin.
    apply daily_returns_spec in H as (_ & _ & _ & _ & Hsd & _ & Hfmt);
      [|exact Hnd].
    assert ((t, with_returns df) ∈ stock_data w') as Hup.
    { rewrite Hsd. apply elem_of_map. exists (t, df). auto. }
    unfold with_returns in Hup.
    destruct (negb (empty df) && has_column "Close" df) eqn:Hq; [|exact Hup].
    destruct (Hfmt t df Hin Hq) as [labels Hl]. rewrite Hl in Hup.
    apply andb_prop in Hq as [_ Hc]. unfold has_column in Hc.
    unfold column in *.
    destruct (assoc "Close" (columns df)) as [close|]; [|discriminate].
    exists close, labels. split; [reflexivity|].
    split; [now apply date_fmt_all_formatted|exact Hup].
  - intros P R argsort p t df Ht Hh He.
    destruct (main P R argsort (initial p)) as [r w'] eqn:E.
    apply main_outcome in E. simpl.
    set (o := output w') in *. clearbody o.
    destruct E as [ | | | | | | data tbl ps Hf ? ? ? ? ? Hall ];
      try (split; [discriminate|];
           intros Hin; simpl in Hin;
           repeat (apply elem_of_cons in Hin as [Hin|Hin]; [discriminate|]);
           inversion Hin).
    exfalso. destruct Hf as (_ & _ & Hd).
    destruct (Hd t Ht) as (df' & Hh' & Hin).
    assert (df' = df) as -> by congruence.
    rewrite (Hall t df Hin) in He. discriminate.
Qed.

Lemma returns_stage_mutates_frames_witness :
  "HDFCBANK.NS" ∈ keys portfolio_config /\
  history provider_one_series "HDFCBANK.NS" = Ok example_frame /\
  empty example_frame = false /\
  fst (main provider_one_series renderer_lenient argsort_stable
            (initial portfolio_config)) <> Ok tt /\
  "price_trends.png"
    ∉ keys (output (snd (main provider_one_series renderer_lenient
                              argsort_stable (initial portfolio_config)))).
Proof.
  assert ("HDFCBANK.NS" ∈ keys portfolio_config) as Hin
    by (apply list_elem_of_further, list_elem_of_here).
  split; [exact Hin|]. split; [reflexivity|]. split; [reflexivity|].
  exact (proj2 returns_stage_mutates_frames provider_one_series
               renderer_lenient argsort_stable portfolio_config
               "HDFCBANK.NS" example_frame Hin eq_refl eq_refl).
Defined.

(** A run with three days of prices for one ticker: the heatmap, the bar
    chart and the pie chart are written, then the price-trend step raises
    on the text index that the return calculation left in the frame. *)
Example run_with_one_series :
  fst (main provider_one_series renderer_lenient argsort_stable
            (initial portfolio_config))
  = Raise AttributeError_strftime /\
  keys (output (snd (main provider_one_series renderer_lenient argsort_stable
                          (initial portfolio_config))))
  = ["heatmap.png"; "marketcap.png"; "sector_allocation.png"] /\
  assoc "HDFCBANK.NS"
        (stock_data (snd (main provider_one_series renderer_lenient
                               argsort_stable (initial portfolio_config))))
  = Some (Frame [Text "02-11-2026"; Text "03-11-2026"; Text "04-11-2026"]
                [("Close", prices [100; 102; 99]%Q);
                 ("Daily Return", pct_change (prices [100; 102; 99]%Q))]).
Proof. repeat split; reflexivity. Qed.

(** On frames as the provider delivers them the trend loop draws a line
    per ticker with prices, the highlighted one in bold. *)
Example trend_loop_on_fetched_frames :
  figure (snd (trend_loop [("ICICIBANK.NS", empty_frame);
                           ("HDFCBANK.NS", example_frame);
                           ("CDSL.NS", example_frame)]
                          (initial portfolio_config)))
  = [ Line "HDFCBANK.NS"
           [Text "02-11-2026"; Text "03-11-2026"; Text "04-11-2026"]
           (prices [100; 102; 99]%Q) true;
      Line "CDSL.NS"
           [Text "02-11-2026"; Text "03-11-2026"; Text "04-11-2026"]
           (prices [100; 102; 99]%Q) false ].
Proof. reflexivity. Qed.

(** A run without any price history and with drawing calls that accept
    every table ends normally, with the five files. *)
Example run_without_prices :
  fst (main provider_no_prices renderer_lenient argsort_stable
            (initial portfolio_config))
  = Ok tt /\
  keys (output (snd (main provider_no_prices renderer_lenient argsort_stable
                          (initial portfolio_config))))
  = artifact_names.
Proof. split; reflexivity. Qed.

(** * Further properties of the code *)

(** ** [pct_change] (line 41) *)

Section ReturnFacts.

Lemma Qneg_scale (c x : Q) : (0 < c)%Q -> Qneg (c * x) = Qneg x.
Proof.
  unfold Qneg, Qlt. destruct c as [cn cd], x as [xn xd]. simpl.
  intros Hc.
  destruct (Z.ltb_spec (cn * xn) 0), (Z.ltb_spec xn 0); try reflexivity; nia.
Qed.

Lemma Qzero_scale (c x : Q) : (0 < c)%Q -> Qzero (c * x) = Qzero x.
Proof.
  intros Hc.
  assert (~ (c == 0)%Q) as Hc0 by (intros E; rewrite E in Hc; discriminate Hc).
  destruct (Qzero x) eqn:Hx.
  - apply Qzero_true in Hx. apply Qzero_true. rewrite Hx. ring.
  - apply Qzero_false in Hx. apply Qzero_false. intros E.
    apply Qmult_integral in E as [E|E]; contradiction.
Qed.

Lemma change_scale (c x p : Q) :
  (0 < c)%Q ->
  feq (fsub (fdiv (Fin (c * x)) (Fin (c * p))) (Fin 1))
      (fsub (fdiv (Fin x) (Fin p)) (Fin 1)).
Proof.
  intros Hc. unfold fsub. simpl.
  rewrite !(Qzero_scale c) by exact Hc. rewrite (Qneg_scale c x Hc).
  destruct (Qzero p) eqn:Hp.
  - destruct (Qzero x); simpl; auto.
  - simpl. apply Qzero_false in Hp. field. split; [exact Hp|].
    intros E. rewrite E in Hc. discriminate Hc.
Qed.

Lemma changes_scale (c p : Q) (l : list Q) :
  (0 < c)%Q ->
  Forall2 feq (changes (Fin (c * p)) (prices (map (Qmult c) l)))
              (changes (Fin p) (prices l)).
Proof.
  intros Hc. revert p. induction l as [|x l IH]; intros p; simpl.
  - constructor.
  - constructor; [now apply change_scale|apply IH].
Qed.

Lemma compound_changes (p p' : Q) (l : list Q) :
  (p == p')%Q -> ~ (p' == 0)%Q ->
  Forall (fun q => ~ (q == 0)%Q) l ->
  Forall2 Qeq (compound p (changes (Fin p') (prices l))) l.
Proof.
  intros Hp Hp' Hl. revert p p' Hp Hp'.
  induction Hl as [|x l Hx _ IH]; intros p p' Hp Hp'; simpl.
  - constructor.
  - apply Qzero_false in Hp' as Hz. rewrite Hz. simpl.
    assert (p * (1 + (x / p' + - (1))) == x)%Q as E
      by (rewrite Hp; field; exact Hp').
    constructor; [exact E|]. apply IH; assumption.
Qed.

Lemma last_cons_indep {A : Type} (l : list A) (x d d' : A) :
  List.last (x :: l) d = List.last (x :: l) d'.
Proof.
  revert x. induction l as [|y l IH]; intros x; [reflexivity|].
  change (List.last (y :: l) d = List.last (y :: l) d'). apply IH.
Qed.

Lemma last_cons_default {A : Type} (x : A) (l : list A) (d : A) :
  List.last (x :: l) d = List.last l x.
Proof.
  destruct l as [|y l]; [reflexivity|].
  change (List.last (y :: l) d = List.last (y :: l) x).
  apply last_cons_indep.
Qed.

Lemma pad_from_app (p : fval) (l1 l2 : list fval) :
  pad_from p (l1 ++ l2)
  = pad_from p l1 ++ pad_from (List.last (pad_from p l1) p) l2.
Proof.
  revert p. induction l1 as [|x l1 IH]; intros p; [reflexivity|].
  simpl. f_equal. rewrite IH. f_equal. f_equal.
  symmetry. apply last_cons_default.
Qed.

Lemma changes_app (p : fval) (l1 l2 : list fval) :
  changes p (l1 ++ l2) = changes p l1 ++ changes (List.last l1 p) l2.
Proof.
  revert p. induction l1 as [|x l1 IH]; intros p; [reflexivity|].
  simpl. f_equal. rewrite IH. f_equal. f_equal.
  symmetry. apply last_cons_default.
Qed.

Lemma pad_from_gap (a : fval) (n : nat) :
  isna a = false -> pad_from a (replicate n NaN) = replicate n a.
Proof. intros Ha. induction n; simpl; [reflexivity|now f_equal]. Qed.

Lemma last_replicate (a p : fval) (n : nat) :
  List.last (replicate n a) p = match n with 0 => p | S _ => a end.
Proof.
  induction n as [|n IH]; [reflexivity|]. simpl.
  destruct n; [reflexivity|]. simpl in *. exact IH.
Qed.

Lemma changes_flat (a : Q) (n : nat) :
  ~ (a == 0)%Q ->
  Forall2 feq (changes (Fin a) (replicate n (Fin a))) (replicate n (Fin 0)).
Proof.
  intros Ha. apply Qzero_false in Ha as Hz.
  induction n as [|n IH]; simpl; [constructor|].
  rewrite Hz. constructor; [|exact IH].
  simpl. apply Qzero_false in Hz. field. exact Hz.
Qed.

Lemma last_prices_snoc (pre : list Q) (a : Q) (p : fval) :
  List.last (prices (pre ++ [a])) p = Fin a.
Proof.
  unfold prices. rewrite map_app. simpl. apply last_last.
Qed.

End ReturnFacts.

(** X1.  From the first price and the returns the prices can be rebuilt:
    compounding the returns of a series of non-zero prices gives back the
    series. *)
Theorem returns_compound_to_prices (p : Q) (l : list Q) :
  Forall (fun q => ~ (q == 0)%Q) (p :: l) ->
  Forall2 Qeq (compound p (tail (pct_change (prices (p :: l))))) l.
Proof.
  intros H. apply Forall_cons in H as [Hp Hl].
  rewrite pct_change_prices. simpl.
  apply compound_changes; [reflexivity|exact Hp|exact Hl].
Qed.

Lemma returns_compound_to_prices_witness :
  Forall (fun q => ~ (q == 0)%Q) [100; 102; 99]%Q /\
  Forall2 Qeq
    (compound 100 (tail (pct_change (prices [100; 102; 99]%Q))))
    [102; 99]%Q.
Proof.
  assert (Forall (fun q => ~ (q == 0)%Q) [100; 102; 99]%Q) as H
    by (repeat constructor; intros E; discriminate E).
  split; [exact H|]. exact (returns_compound_to_prices 100 [102; 99]%Q H).
Defined.

(** X2.  The returns do not depend on the unit of the prices: multiplying
    every price by the same positive factor leaves every cell of the
    return column as it is. *)
Theorem returns_scale_invariant (c : Q) (l : list Q) :
  (0 < c)%Q ->
  Forall2 feq (pct_change (prices (map (Qmult c) l))) (pct_change (prices l)).
Proof.
  intros Hc. rewrite !pct_change_prices.
  destruct l as [|p l]; simpl; [constructor|].
  constructor; [exact I|]. now apply changes_scale.
Qed.

Lemma returns_scale_invariant_witness :
  (0 < 10000000)%Q /\
  Forall2 feq (pct_change (prices (map (Qmult 10000000) [100; 102; 99]%Q)))
              (pct_change (prices [100; 102; 99]%Q)).
Proof.
  split; [reflexivity|].
  apply (returns_scale_invariant 10000000 [100; 102; 99]%Q). reflexivity.
Defined.

(** X3.  Missing closes are padded before the division: over a run of
    missing closes the return is 0, and the first close after the run is
    compared with the last close before it. *)
Theorem returns_over_gap (pre : list Q) (a b : Q) (gap : nat) :
  ~ (a == 0)%Q ->
  Forall2 feq
    (pct_change (prices (pre ++ [a]) ++ replicate gap NaN ++ [Fin b]))
    (pct_change (prices (pre ++ [a]))
       ++ replicate gap (Fin 0)
       ++ [fdiv (fsub (Fin b) (Fin a)) (Fin a)]).
Proof.
  intros Ha.
  assert (isna (Fin a) = false) as Hna by reflexivity.
  rewrite !pct_change_changes. unfold pad.
  rewrite pad_from_app, !pad_from_prices, last_prices_snoc.
  rewrite pad_from_app, (pad_from_gap (Fin a) gap Hna).
  simpl pad_from. rewrite changes_app, last_prices_snoc.
  apply Forall2_app; [apply Forall2_same_length_lookup_2; [reflexivity|]|].
  { intros i x y Hx Hy. rewrite Hx in Hy. inversion Hy; subst. apply feq_refl. }
  rewrite changes_app. apply Forall2_app; [now apply changes_flat|].
  rewrite !last_replicate. simpl.
  constructor; [|constructor].
  destruct gap; apply ratio_minus_one.
Qed.

Lemma returns_over_gap_witness :
  ~ (100 == 0)%Q /\
  Forall2 feq
    (pct_change (prices ([] ++ [100%Q]) ++ replicate 1 NaN ++ [Fin 102]))
    (pct_change (prices ([] ++ [100%Q]))
       ++ replicate 1 (Fin 0)
       ++ [fdiv (fsub (Fin 102) (Fin 100)) (Fin 100)]).
Proof.
  assert (~ (100 == 0)%Q) as H by (intros E; discriminate E).
  split; [exact H|]. exact (returns_over_gap [] 100 102 1 H).
Defined.

(** ** [date_fmt] (line 38) *)

Section DateFormat.

Lemma digit_inj (a b : nat) : digit a = digit b -> a mod 10 = b mod 10.
Proof.
  unfold digit. intros H.
  apply (f_equal nat_of_ascii) in H.
  assert (a mod 10 < 10) as Ha by (apply Nat.mod_upper_bound; lia).
  assert (b mod 10 < 10) as Hb by (apply Nat.mod_upper_bound; lia).
  revert H Ha Hb. generalize (a mod 10) (b mod 10). intros x y H Hx Hy.
  rewrite !nat_ascii_embedding in H.
  - apply Nat.add_cancel_l in H. exact H.
  - apply Nat.lt_trans with (48 + 10); [now apply Nat.add_lt_mono_l|].
    apply Nat.ltb_lt. reflexivity.
  - apply Nat.lt_trans with (48 + 10); [now apply Nat.add_lt_mono_l|].
    apply Nat.ltb_lt. reflexivity.
Qed.

Lemma two_digits_inj (a b : nat) :
  a < 100 -> b < 100 -> two_digits a = two_digits b -> a = b.
Proof.
  unfold two_digits. intros Ha Hb H.
  assert (digit (a / 10) = digit (b / 10)) as H1 by congruence.
  assert (digit a = digit b) as H0 by congruence.
  clear H. apply digit_inj in H1, H0.
  pose proof (Nat.div_mod_eq a 10). pose proof (Nat.div_mod_eq b 10).
  assert (a / 10 < 10) by (apply Nat.Div0.div_lt_upper_bound; lia).
  assert (b / 10 < 10) by (apply Nat.Div0.div_lt_upper_bound; lia).
  rewrite !Nat.mod_small in H1 by assumption. lia.
Qed.

Lemma four_digits_inj (a b : nat) :
  a < 100 * 100 -> b < 100 * 100 -> four_digits a = four_digits b -> a = b.
Proof.
  unfold four_digits, two_digits. intros Ha Hb H.
  assert (digit (a / 1000) = digit (b / 1000)) as H3 by congruence.
  assert (digit (a / 100) = digit (b / 100)) as H2 by congruence.
  assert (digit (a / 10) = digit (b / 10)) as H1 by congruence.
  assert (digit a = digit b) as H0 by congruence.
  clear H. apply digit_inj in H3, H2, H1, H0.
  assert (a / 1000 < 10) by (apply Nat.Div0.div_lt_upper_bound; lia).
  assert (b / 1000 < 10) by (apply Nat.Div0.div_lt_upper_bound; lia).
  rewrite !Nat.mod_small in H3 by assumption.
  pose proof (Nat.div_mod_eq a 10) as Ea. pose proof (Nat.div_mod_eq b 10) as Eb.
  pose proof (Nat.div_mod_eq (a / 10) 10) as Ea1.
  pose proof (Nat.div_mod_eq (b / 10) 10) as Eb1.
  pose proof (Nat.div_mod_eq (a / 100) 10) as Ea2.
  pose proof (Nat.div_mod_eq (b / 100) 10) as Eb2.
  rewrite Nat.Div0.div_div in Ea1, Eb1, Ea2, Eb2.
  change (10 * 10) with 100 in *. change (100 * 10) with 1000 in *.
  lia.
Qed.

Lemma append_inj (a b a' b' : string) :
  String.length a = String.length a' ->
  a +:+ b = a' +:+ b' -> a = a' /\ b = b'.
Proof.
  revert a'. induction a as [|c a IH]; intros [|c' a']; simpl;
    try discriminate; [auto|].
  intros [= Hlen] [= -> H]. destruct (IH a' Hlen H) as [-> ->]. auto.
Qed.

(** Two printable dates with the same text are the same date. *)
Lemma date_fmt_inj (l1 l2 : label) :
  printable l1 -> printable l2 -> date_fmt l1 = date_fmt l2 -> l1 = l2.
Proof.
  destruct l1 as [y1 m1 d1|], l2 as [y2 m2 d2|]; simpl; try tauto.
  intros (Hd1 & Hm1 & Hy1) (Hd2 & Hm2 & Hy2) H0.
  match type of H0 with Ok ?a = Ok ?b => assert (a = b) as H by congruence end.
  clear H0. apply append_inj in H as [E1 H]; [|reflexivity].
  apply (append_inj "-" _ "-") in H as [_ H]; [|reflexivity].
  apply append_inj in H as [E2 H]; [|reflexivity].
  apply (append_inj "-" _ "-") in H as [_ E3]; [|reflexivity].
  apply two_digits_inj in E1, E2; try assumption.
  apply four_digits_inj in E3; try assumption.
  congruence.
Qed.

End DateFormat.



(** X5.  The formatting cannot be applied twice: once an index has been
    formatted its labels are texts, and formatting them again raises
    AttributeError. *)
Theorem date_fmt_twice_raises (l labels : list label) :
  l <> [] ->
  date_fmt_all l = Ok labels ->
  Forall2 formatted l labels /\
  date_fmt_all labels = Raise AttributeError_strftime.
Proof.
  intros Hne H. split; [now apply date_fmt_all_formatted|].
  apply date_fmt_all_text in H as [Ht Hlen].
  apply date_fmt_all_of_text; [exact Ht|].
  intros ->. destruct l; [congruence|discriminate].
Qed.

Lemma date_fmt_twice_raises_witness :
  [Timestamp 2026 11 4] <> [] /\
  date_fmt_all [Timestamp 2026 11 4] = Ok [Text "04-11-2026"] /\
  date_fmt_all [Text "04-11-2026"] = Raise AttributeError_strftime.
Proof.
  assert ([Timestamp 2026 11 4] <> []) as H by discriminate.
  split; [exact H|]. split; [reflexivity|].
  exact (proj2 (date_fmt_twice_raises [Timestamp 2026 11 4]
                  [Text "04-11-2026"] H eq_refl)).
Defined.

(** ** [fetch_stock_data] (lines 24 to 32) *)

Section FetchStockFacts.

Variable P : Provider.

Lemma assign_fresh {A : Type} (k : string) (v : A) (l : list (string * A)) :
  k ∉ keys l -> assign k v l = l ++ [(k, v)].
Proof.
  induction l as [|[k' v'] l IH]; simpl; [reflexivity|].
  intros H. apply not_elem_of_cons in H as [Hne Hl].
  destruct (String.eqb_spec k k'); [congruence|]. now rewrite IH.
Qed.

Lemma with_stdout_same (w : world) : with_stdout (stdout w) w = w.
Proof. destruct w. reflexivity. Qed.

Lemma fetch_stock_turn (t : string) (hist : frame) (w : world) :
  history P t = Ok hist ->
  (if empty hist then print ("Warning: No data for " +:+ t) else ret tt) w
  = (Ok tt, with_stdout (stdout w ++ map no_data_warning (without_data P [t]))
                        w).
Proof.
  intros Hh. unfold without_data, frame_of. rewrite filter_cons, Hh.
  destruct (empty hist) eqn:He; simpl.
  - reflexivity.
  - unfold ret. rewrite app_nil_r. now rewrite with_stdout_same.
Qed.

Lemma without_data_cons (t : string) (ts : list string) :
  without_data P (t :: ts) = without_data P [t] ++ without_data P ts.
Proof. apply (filter_app _ [t] ts). Qed.

Lemma fetch_stock_loop_result (ts : list string) :
  forall data w,
    NoDup (keys data ++ ts) ->
    (forall t, t ∈ ts -> exists df, history P t = Ok df) ->
    fetch_stock_loop P ts data w
    = (Ok (data ++ map (fun t => (t, frame_of P t)) ts),
       with_stdout (stdout w ++ map no_data_warning (without_data P ts)) w).
Proof.
  induction ts as [|t ts IH]; intros data w Hnd Hall; simpl.
  - unfold ret. rewrite !app_nil_r. now rewrite with_stdout_same.
  - destruct (Hall t (list_elem_of_here _ _)) as [hist Hh].
    unfold bind, lift. rewrite Hh. rewrite (fetch_stock_turn t hist w Hh).
    apply NoDup_app in Hnd as (Hd & Hdis & Hts).
    apply NoDup_cons in Hts as [Ht Hts].
    rewrite assign_fresh
      by (intros Hin; apply (Hdis t Hin); apply list_elem_of_here).
    rewrite IH.
    + unfold frame_of at 2. rewrite Hh, <- app_assoc. simpl.
      rewrite (without_data_cons t ts), map_app, <- app_assoc.
      reflexivity.
    + unfold keys. rewrite map_app. simpl. rewrite <- app_assoc. simpl.
      apply NoDup_app. repeat split; [exact Hd| |now constructor].
      intros x Hx [->|Hx']%elem_of_cons.
      * apply (Hdis t Hx). apply list_elem_of_here.
      * apply (Hdis x Hx). now apply list_elem_of_further.
    + intros t' Ht'. apply Hall. now apply list_elem_of_further.
Qed.

Lemma fetch_stock_loop_failure (pre : list string) :
  forall t post e data w,
    (forall t', t' ∈ pre -> exists df, history P t' = Ok df) ->
    history P t = Raise e ->
    fetch_stock_loop P (pre ++ t :: post) data w
    = (Raise e,
       with_stdout (stdout w ++ map no_data_warning (without_data P pre)) w).
Proof.
  induction pre as [|t0 pre IH]; intros t post e data w Hall He; simpl.
  - unfold bind, lift. rewrite He, app_nil_r. now rewrite with_stdout_same.
  - destruct (Hall t0 (list_elem_of_here _ _)) as [hist Hh].
    unfold bind, lift. rewrite Hh. rewrite (fetch_stock_turn t0 hist w Hh).
    rewrite (IH t post e); [|intros; apply Hall; now apply list_elem_of_further
                            |exact He].
    unfold with_stdout. simpl.
    rewrite (without_data_cons t0 pre), map_app, <- app_assoc. reflexivity.
Qed.

End FetchStockFacts.

(** X6.  When every history call answers, [fetch_stock_data] returns one
    frame per ticker, in the order of the tickers and as the provider gave
    it, prints its warning for exactly the tickers whose frame is empty,
    and changes nothing else. *)
Theorem fetch_stock_data_result (P : Provider) (ts : list string) (w : world) :
  NoDup ts ->
  (forall t, t ∈ ts -> exists df, history P t = Ok df) ->
  fetch_stock_data P ts w
  = (Ok (map (fun t => (t, frame_of P t)) ts),
     with_stdout (stdout w ++ map no_data_warning (without_data P ts)) w).
Proof.
  intros Hnd Hall. unfold fetch_stock_data.
  now rewrite fetch_stock_loop_result.
Qed.

Lemma fetch_stock_data_result_witness :
  NoDup (keys portfolio_config) /\
  (forall t, t ∈ keys portfolio_config ->
             exists df, history provider_one_series t = Ok df) /\
  fetch_stock_data provider_one_series (keys portfolio_config)
                   (initial portfolio_config)
  = (Ok [("ICICIBANK.NS", empty_frame); ("HDFCBANK.NS", example_frame);
         ("CDSL.NS", empty_frame); ("ETERNAL.NS", empty_frame)],
     with_stdout ["Warning: No data for ICICIBANK.NS";
                  "Warning: No data for CDSL.NS";
                  "Warning: No data for ETERNAL.NS"]
                 (initial portfolio_config)).
Proof.
  assert (NoDup (keys portfolio_config)) as Hnd.
  { apply (bool_decide_unpack (NoDup (keys portfolio_config))).
    vm_compute. exact I. }
  assert (forall t, t ∈ keys portfolio_config ->
                    exists df, history provider_one_series t = Ok df) as Hall.
  { intros t _. simpl. destruct (String.eqb t "HDFCBANK.NS"); eauto. }
  split; [exact Hnd|]. split; [exact Hall|].
  exact (fetch_stock_data_result provider_one_series (keys portfolio_config)
           (initial portfolio_config) Hnd Hall).
Defined.

(** X7.  [fetch_stock_data] guards no call: the first history call that
    raises ends the loop with its exception, after the warnings for the
    tickers before it, and the whole run ends there with no file
    written. *)
Theorem price_fetch_failure_ends_run (P : Provider) (R : Renderer)
    (argsort : list fval -> list nat) (p : list (string * entry))
    (pre : list string) (t : string) (post : list string) (e : exn) :
  keys p = pre ++ t :: post ->
  (forall t', t' ∈ pre -> exists df, history P t' = Ok df) ->
  history P t = Raise e ->
  main P R argsort (initial p)
  = (Raise e,
     with_stdout (map no_data_warning (without_data P pre)) (initial p)).
Proof.
  intros Hk Hall He. unfold main at 1, bind at 1, get at 1. simpl.
  unfold bind at 1, fetch_stock_data. rewrite Hk.
  now rewrite (fetch_stock_loop_failure P pre t post e).
Qed.

Lemma price_fetch_failure_ends_run_witness :
  keys portfolio_config = [] ++ "ICICIBANK.NS" :: keys (tail portfolio_config) /\
  history provider_down "ICICIBANK.NS" = Raise ConnectionError /\
  main provider_down renderer_lenient argsort_stable (initial portfolio_config)
  = (Raise ConnectionError, with_stdout [] (initial portfolio_config)).
Proof.
  split; [reflexivity|]. split; [reflexivity|].
  apply (price_fetch_failure_ends_run provider_down renderer_lenient
           argsort_stable portfolio_config [] "ICICIBANK.NS"
           (keys (tail portfolio_config)) ConnectionError eq_refl).
  - intros t' Ht'. inversion Ht'.
  - reflexivity.
Defined.

(** ** [fetch_market_caps] (lines 78 to 87) *)

Section MarketCapFacts.

Variable P : Provider.




End MarketCapFacts.





(** ** [df_portfolio] (lines 92 to 94) *)

Section RankedFacts.

Lemma StronglySorted_of_map {A B : Type} (f : A -> B) (R : relation B)
    (l : list A) :
  StronglySorted R (map f l) -> StronglySorted (fun x y => R (f x) (f y)) l.
Proof.
  induction l as [|x l IH]; simpl; intros H; [constructor|].
  apply StronglySorted_inv in H as [Hl Hx]. constructor; [now apply IH|].
  apply Forall_forall. intros y Hy. rewrite Forall_forall in Hx.
  apply Hx, elem_of_map. eauto.
Qed.

Lemma known_row (p : list (string * entry)) (r : prow) :
  r ∈ filter cap_known (from_dict p) ->
  exists t e q, (t, e) ∈ p /\ market_cap e = Some q /\
                r = PRow t (sector e) (Fin q) (fdiv (Fin q) crore).
Proof.
  intros [Hk (t & e & Hin & ->)%elem_of_from_dict]%list_elem_of_filter.
  unfold cap_known in Hk. simpl in Hk.
  destruct (market_cap e) as [q|] eqn:Hq; [|discriminate].
  exists t, e, q. auto.
Qed.

Lemma fle_antisym (x y : Q) :
  fle (Fin x) (Fin y) = true -> fle (Fin y) (Fin x) = true -> (x == y)%Q.
Proof.
  simpl. intros H1%Qle_bool_iff H2%Qle_bool_iff. now apply Qle_antisym.
Qed.

End RankedFacts.

(** X10.  When no two tickers hold the same market cap the ranked table
    is the same whatever sorting routine [sort_values] runs on: the order
    of the bar chart and of the report table is then fixed by the market
    caps alone. *)
Theorem ranked_table_unique (a1 a2 : list fval -> list nat)
    (p : list (string * entry)) :
  sorting_routine a1 -> sorting_routine a2 -> tie_free p ->
  df_portfolio a1 p = df_portfolio a2 p.
Proof.
  intros R1 R2 Hfree. unfold df_portfolio.
  destruct (sort_values_desc_shape a1 R1 (from_dict p)) as (k1 & -> & P1 & D1).
  destruct (sort_values_desc_shape a2 R2 (from_dict p)) as (k2 & -> & P2 & D2).
  f_equal.
  apply (StronglySorted_unique_strong
           (fun r r' => fle (market_cap_crore r') (market_cap_crore r) = true)).
  - intros x1 x2 H1 H2 Hle Hge.
    rewrite P1 in H1. rewrite P2 in H2.
    apply known_row in H1 as (t1 & e1 & q1 & Hin1 & Hq1 & ->).
    apply known_row in H2 as (t2 & e2 & q2 & Hin2 & Hq2 & ->).
    cbn [market_cap_crore] in Hle, Hge. rewrite crore_order in Hle, Hge.
    pose proof (fle_antisym q1 q2 Hge Hle) as E.
    assert ((t1, e1) = (t2, e2)) as [= -> ->]
      by (apply (Hfree (t1, e1) (t2, e2) q1 q2); assumption).
    congruence.
  - apply (StronglySorted_of_map market_cap_crore
             (fun a b => fle b a = true)), D1.
  - apply (StronglySorted_of_map market_cap_crore
             (fun a b => fle b a = true)), D2.
  - now rewrite P1, P2.
Qed.

Lemma ranked_table_unique_witness :
  sorting_routine argsort_stable /\ sorting_routine argsort_reversing /\
  tie_free portfolio_example /\
  df_portfolio argsort_stable portfolio_example
  = df_portfolio argsort_reversing portfolio_example.
Proof.
  assert (tie_free portfolio_example) as Hfree.
  { intros kv kv' q q' H H'. unfold portfolio_example in H, H'.
    repeat (apply elem_of_cons in H as [->|H]); try (inversion H; fail);
      repeat (apply elem_of_cons in H' as [->|H']); try (inversion H'; fail);
      simpl; intros [= <-] [= <-] E; try reflexivity; discriminate E. }
  split; [exact argsort_stable_routine|].
  split; [exact argsort_reversing_routine|]. split; [exact Hfree|].
  exact (ranked_table_unique argsort_stable argsort_reversing
           portfolio_example argsort_stable_routine argsort_reversing_routine
           Hfree).
Defined.

(** ** The sector aggregate (lines 111 and 112) *)

Section SectorFacts.

Lemma known_sum_cons (v : fval) (l : list fval) :
  (known_sum (v :: l) == known v + known_sum l)%Q.
Proof. destruct v; simpl; ring. Qed.

Lemma known_sum_add {A : Type} (f g : A -> Q) (ks : list A) :
  (known_sum (map Fin (map (fun s => f s + g s) ks))
   == known_sum (map Fin (map f ks)) + known_sum (map Fin (map g ks)))%Q.
Proof.
  induction ks as [|k ks IH]; simpl; [ring|]. rewrite IH. ring.
Qed.

Lemma known_sum_ext {A : Type} (f g : A -> Q) (ks : list A) :
  (forall s, (f s == g s)%Q) ->
  (known_sum (map Fin (map f ks)) == known_sum (map Fin (map g ks)))%Q.
Proof.
  intros H. induction ks as [|k ks IH]; simpl; [reflexivity|].
  now rewrite IH, (H k).
Qed.

(** A value counted for one key of a duplicate-free list is counted
    once. *)
Lemma known_sum_single (s0 : string) (x : Q) (ks : list string) :
  NoDup ks ->
  (known_sum (map Fin (map (fun s => if decide (s0 = s) then x else 0) ks))
   == if decide (s0 ∈ ks) then x else 0)%Q.
Proof.
  induction 1 as [|k ks Hk Hnd IH]; simpl; [reflexivity|].
  rewrite IH. destruct (decide (s0 = k)) as [->|Hne].
  - rewrite (decide_True (P := k ∈ k :: ks)) by apply list_elem_of_here.
    rewrite (decide_False (P := k ∈ ks)) by assumption. ring.
  - destruct (decide (s0 ∈ ks)) as [Hin|Hout].
    + rewrite (decide_True (P := s0 ∈ k :: ks))
        by now apply list_elem_of_further.
      ring.
    + rewrite (decide_False (P := s0 ∈ k :: ks)); [ring|].
      intros [?|?]%elem_of_cons; congruence.
Qed.

Lemma known_sum_group_cons (s : string) (r : prow) (df : list prow) :
  (known_sum (group s (r :: df))
   == (if decide (row_sector r = s) then known (market_cap_crore r) else 0)
      + known_sum (group s df))%Q.
Proof.
  unfold group. rewrite filter_cons.
  destruct (decide (row_sector r = s)); simpl map.
  - apply known_sum_cons.
  - ring.
Qed.

(** Summing group by group, over keys that cover every row, is summing
    the whole column. *)
Lemma known_sum_groups (ks : list string) (df : list prow) :
  NoDup ks ->
  (forall r, r ∈ df -> row_sector r ∈ ks) ->
  (known_sum (map Fin (map (fun s => known_sum (group s df)) ks))
   == known_sum (map market_cap_crore df))%Q.
Proof.
  intros Hnd. induction df as [|r df IH]; intros Hall.
  - clear Hall Hnd. simpl. induction ks as [|k ks IHk]; simpl; [reflexivity|].
    rewrite IHk. ring.
  - rewrite (known_sum_ext _ _ ks (fun s => known_sum_group_cons s r df)).
    rewrite (known_sum_add
               (fun s => if decide (row_sector r = s)
                         then known (market_cap_crore r) else 0%Q)
               (fun s => known_sum (group s df))).
    rewrite known_sum_single by exact Hnd.
    rewrite decide_True by apply Hall, list_elem_of_here.
    rewrite IH by (intros r' Hr'; now apply Hall, list_elem_of_further).
    simpl map. now rewrite known_sum_cons.
Qed.

Lemma known_sum_bound (l : list fval) (c : Q) :
  Forall (fun v => forall q, v = Fin q -> (0 <= q)%Q) l ->
  Fin c ∈ l -> (c <= known_sum l)%Q.
Proof.
  intros H Hin. induction H as [|v l Hv Hl IH]; [inversion Hin|].
  apply elem_of_cons in Hin as [<-|Hin]; simpl.
  - pose proof (known_sum_nonneg l Hl) as Hs.
    rewrite <- (Qplus_0_r c) at 1. now apply Qplus_le_compat; [apply Qle_refl|].
  - specialize (IH Hin). destruct v as [q| |]; try assumption.
    specialize (Hv q eq_refl).
    rewrite <- (Qplus_0_l c). now apply Qplus_le_compat.
Qed.

End SectorFacts.

(** X11.  Grouping loses nothing and counts nothing twice: on a column of
    numbers and missing cells the sector totals add up to the sum of the
    whole market-cap column (missing cells left out on both sides). *)
Theorem sector_totals_regroup (df : list prow) :
  Forall number_or_missing (map market_cap_crore df) ->
  feq (sum_skipna (map snd (sector_caps df)))
      (sum_skipna (map market_cap_crore df)).
Proof.
  intros Hn.
  rewrite (map_snd_sector_caps df Hn).
  rewrite (sum_skipna_known _ (known_sum_numbers (totals df))).
  rewrite (sum_skipna_known _ Hn). simpl. unfold totals.
  apply known_sum_groups; [apply group_keys_NoDup|].
  intros r Hr. apply elem_of_group_keys, elem_of_map. eauto.
Qed.

Lemma sector_totals_regroup_witness :
  Forall number_or_missing
         (map market_cap_crore (from_dict portfolio_example)) /\
  feq (sum_skipna (map snd (sector_caps (from_dict portfolio_example))))
      (Fin (1000 / 10000000)).
Proof.
  assert (Forall number_or_missing
                 (map market_cap_crore (from_dict portfolio_example))) as Hn.
  { simpl. repeat (constructor; [right; eexists; reflexivity|]).
    constructor. }
  split; [exact Hn|].
  pose proof (sector_totals_regroup (from_dict portfolio_example) Hn) as H.
  simpl in *. rewrite H. reflexivity.
Defined.

(** X12.  When no market cap is negative and one is positive, every sector
    share is a number between 0 and 100. *)
Theorem sector_share_bounds (argsort : list fval -> list nat)
    (p : list (string * entry)) (s : string) (v : fval) :
  sorting_routine argsort ->
  (forall t e q, (t, e) ∈ p -> market_cap e = Some q -> (0 <= q)%Q) ->
  (exists t e q, (t, e) ∈ p /\ market_cap e = Some q /\ (0 < q)%Q) ->
  (s, v) ∈ sector_percentage (sector_caps (df_portfolio argsort p)) ->
  exists q, v = Fin q /\ (0 <= q)%Q /\ (q <= 100)%Q.
Proof.
  intros routine Hnn (t & e & q & Hin & Hq & Hpos) Hv.
  assert (v ∈ map snd (sector_percentage (sector_caps (df_portfolio argsort p))))
    as Hv' by (apply elem_of_map; exists (s, v); auto).
  destruct (shares_of_portfolio argsort routine p) as [E _].
  rewrite E in Hv'. clear E Hv.
  set (T := known_sum (map Fin (totals (df_portfolio argsort p)))) in *.
  assert (0 < T)%Q as HT by (eapply total_pos; eassumption).
  apply elem_of_map in Hv' as (c' & -> & Hc).
  pose proof (totals_nonneg argsort routine p Hnn) as Hall.
  pose proof (fun c => known_sum_bound _ c Hall) as Hb.
  rewrite Forall_forall in Hall.
  apply elem_of_map in Hc as Hc'. destruct Hc' as (c & -> & _).
  specialize (Hall _ Hc c eq_refl). specialize (Hb c Hc). fold T in Hb.
  simpl. assert (Qzero T = false) as ->.
  { apply Qzero_false. intros E0. rewrite E0 in HT. discriminate HT. }
  exists (c / T * 100)%Q. split; [reflexivity|]. split.
  - apply Qmult_le_0_compat; [|discriminate].
    apply Qle_shift_div_l; [exact HT|]. now rewrite Qmult_0_l.
  - rewrite <- (Qmult_1_l 100) at 2.
    apply Qmult_le_compat_r; [|discriminate].
    apply Qle_shift_div_r; [exact HT|]. now rewrite Qmult_1_l.
Qed.

Lemma sector_share_bounds_witness :
  sorting_routine argsort_stable /\
  (exists t e q, (t, e) ∈ portfolio_example /\ market_cap e = Some q /\
                 (0 < q)%Q) /\
  (exists q, (0 <= q)%Q /\ (q <= 100)%Q /\
     ("Tech", Fin q)
       ∈ sector_percentage
           (sector_caps (df_portfolio argsort_stable portfolio_example))).
Proof.
  assert (forall t e q, (t, e) ∈ portfolio_example -> market_cap e = Some q ->
                        (0 <= q)%Q) as Hnn.
  { intros t e q H Hq. unfold portfolio_example in H.
    repeat (apply elem_of_cons in H as [H|H];
            [inversion H; subst; simpl in Hq; inversion Hq; subst;
             discriminate|]).
    inversion H. }
  assert (exists t e q, (t, e) ∈ portfolio_example /\ market_cap e = Some q /\
                        (0 < q)%Q) as Hpos.
  { exists "A", (Entry "Banking" (Some 500%Q)), 500%Q.
    split; [apply list_elem_of_here|]. split; reflexivity. }
  split; [exact argsort_stable_routine|]. split; [exact Hpos|].
  assert (("Tech",
           Fin (((200 / 10000000 + 0)
                 / (500 / 10000000 + (300 / 10000000 + 0)
                    + (200 / 10000000 + 0 + 0))) * 100))
            ∈ sector_percentage
                (sector_caps (df_portfolio argsort_stable portfolio_example)))
    as Hin by (apply list_elem_of_further, list_elem_of_here).
  destruct (sector_share_bounds argsort_stable portfolio_example "Tech" _
              argsort_stable_routine Hnn Hpos Hin) as (q & E & H0 & H100).
  exists q. split; [exact H0|]. split; [exact H100|].
  rewrite <- E. exact Hin.
Defined.

(** ** [generate_email_body] (lines 143 to 178) *)

Section ReportFacts.

Lemma ranks_enumerate {A : Type} (n : nat) (l : list A) :
  map fst (enumerate n l) = seq n (length l).
Proof. revert n. induction l; intros; simpl; f_equal; auto. Qed.

Lemma combine_fst_snd {A B : Type} (l : list (A * B)) :
  combine (map fst l) (map snd l) = l.
Proof. induction l as [|[a b] l IH]; simpl; f_equal; auto. Qed.

Lemma pie_slices_percentage (caps : list (string * fval)) :
  pie_slices caps = sector_percentage caps.
Proof.
  unfold pie_slices. rewrite <- keys_sector_percentage.
  apply combine_fst_snd.
Qed.

(** Looking a label up in a series with distinct labels finds the value
    at the label's own position. *)
Lemma assoc_map_values {A B : Type} (f : A -> B) (l : list (string * A))
    (k : string) (v : A) :
  NoDup (keys l) -> (k, v) ∈ l ->
  assoc k (map (fun kv => (fst kv, f (snd kv))) l) = Some (f v).
Proof.
  induction l as [|[k' v'] l IH]; simpl; intros Hnd Hin; [inversion Hin|].
  apply NoDup_cons in Hnd as [Hk Hnd].
  apply elem_of_cons in Hin as [[= -> ->]|Hin].
  - now rewrite String.eqb_refl.
  - destruct (String.eqb_spec k k') as [->|_]; [|now apply IH].
    exfalso. apply Hk, elem_of_map. exists (k', v). auto.
Qed.

Lemma percentage_of_position (caps : list (string * fval)) (s : string)
    (v : fval) :
  NoDup (keys caps) -> (s, v) ∈ caps ->
  percentage_of s (sector_percentage caps)
  = fmul (fdiv v (sum_skipna (map snd caps))) (Fin 100).
Proof.
  intros Hnd Hin. unfold percentage_of, sector_percentage.
  now rewrite (assoc_map_values
                 (fun v => fmul (fdiv v (sum_skipna (map snd caps))) (Fin 100))
                 caps s v Hnd Hin).
Qed.

Lemma sector_rows_from (caps all : list (string * fval)) (n : nat) :
  NoDup (keys all) -> (forall kv, kv ∈ caps -> kv ∈ all) ->
  map (fun ikv : nat * (string * fval) =>
         (fst (snd ikv), percentage_of (fst (snd ikv)) (sector_percentage all)))
      (enumerate n caps)
  = map (fun kv => (fst kv,
                    fmul (fdiv (snd kv) (sum_skipna (map snd all))) (Fin 100)))
        caps.
Proof.
  intros Hnd. revert n. induction caps as [|[s v] caps IH]; intros n Hall;
    simpl; [reflexivity|].
  rewrite (percentage_of_position all s v Hnd)
    by apply Hall, list_elem_of_here.
  f_equal. apply IH. intros kv Hkv. now apply Hall, list_elem_of_further.
Qed.

End ReportFacts.

(** X13.  The two tables of the report.  The market-cap table numbers the
    rows of the ranked table from 1 and keeps their order; the sector table
    numbers the sector totals from 1, keeps their order, and shows for
    every sector the percentage of its slice in the pie chart (the lookup
    by sector name meets the value at the sector's own position). *)
Theorem report_tables (df : list prow) :
  let caps := sector_caps df in
  let mrows := marketcap_table_rows df in
  let srows := sector_table_rows caps in
  generate_email_body df caps = HtmlBody mrows srows /\
  map (fun r => fst (fst (fst r))) mrows = seq 1 (length df) /\
  map (fun r => (snd (fst (fst r)), snd (fst r), snd r)) mrows
  = map (fun r => (ticker r, market_cap_crore r, row_sector r)) df /\
  map (fun r => fst (fst (fst r))) srows = seq 1 (length caps) /\
  map (fun r => (snd (fst (fst r)), snd (fst r))) srows = caps /\
  map (fun r => (snd (fst (fst r)), snd r)) srows = pie_slices caps.
Proof.
  intros caps mrows srows. subst mrows srows.
  unfold marketcap_table_rows, sector_table_rows.
  split; [reflexivity|]. rewrite !map_map. simpl.
  split; [apply ranks_enumerate|].
  split; [apply (map_fst_enumerate
                   (fun r => (ticker r, market_cap_crore r, row_sector r)))|].
  split; [apply ranks_enumerate|].
  split.
  - rewrite (map_fst_enumerate (fun kv : string * fval => (fst kv, snd kv))).
    rewrite <- (map_id caps) at 2. apply map_ext. now intros [s v].
  - rewrite pie_slices_percentage.
    apply (sector_rows_from caps caps 1); [|auto].
    unfold caps. rewrite keys_sector_caps. apply group_keys_NoDup.
Qed.

(** ** The price-trend loop (lines 125 to 133) *)

Section TrendFacts.

Lemma date_fmt_all_timestamps (l : list label) :
  Forall (fun d => ~ is_text d) l ->
  exists labels, date_fmt_all l = Ok labels.
Proof.
  induction 1 as [|d l Hd _ [labels IH]]; simpl; [eauto|].
  destruct d as [y m dd|s]; [|destruct Hd; exact I].
  simpl. rewrite IH. eauto.
Qed.

Lemma with_figure_same (w : world) : with_figure (figure w) w = w.
Proof. now destruct w. Qed.

End TrendFacts.

(** X14.  On frames as the provider delivers them (timestamps as row
    labels, a Close column wherever there are rows) the trend loop returns
    and draws exactly one line per ticker with rows, in the order of
    [stock_data]: the Close column against the day-month-year texts of the
    index, in bold for HDFCBANK.NS only; nothing else changes. *)
Theorem trend_loop_fresh (items : list (string * frame)) (w : world) :
  Forall (fun kv => empty (snd kv) = false ->
                    has_column "Close" (snd kv) = true /\ dated (snd kv))
         items ->
  exists lines,
    trend_loop items w = (Ok tt, with_figure (figure w ++ lines) w) /\
    map line_label lines = keys (with_rows items) /\
    Forall (fun l => exists df,
              (line_label l, df) ∈ items /\
              column "Close" df = Some (line_y l) /\
              Forall2 formatted (index df) (line_x l) /\
              (bold l = true <-> line_label l = "HDFCBANK.NS"))
           lines.
Proof.
  intros H. revert w.
  induction H as [|[t df] items Hdf _ IH]; intros w.
  - exists []. simpl. unfold ret. rewrite app_nil_r, with_figure_same.
    repeat split; constructor.
  - simpl in Hdf. unfold with_rows. rewrite filter_cons. simpl.
    destruct (empty df) eqn:He.
    + destruct (IH w) as (lines & E & Hl & Hall).
      exists lines. rewrite decide_False by discriminate.
      split; [exact E|]. split; [exact Hl|].
      eapply Forall_impl; [exact Hall|].
      intros l (df' & Hin & ?). exists df'.
      split; [now apply list_elem_of_further|assumption].
    + destruct (Hdf eq_refl) as [Hc Hd]. unfold has_column in Hc.
      unfold bind, lift, getitem, column.
      destruct (assoc "Close" (columns df)) as [close|] eqn:Hclose;
        [|discriminate].
      destruct (date_fmt_all_timestamps _ Hd) as [labels Hfmt].
      rewrite Hfmt. unfold plt_plot at 1.
      set (l0 := Line t labels close (String.eqb t highlight_stock)).
      destruct (IH (with_figure (figure w ++ [l0]) w))
        as (lines & E & Hl & Hall).
      exists (l0 :: lines). rewrite decide_True by reflexivity.
      split; [|split].
      * unfold with_figure in E. simpl in E. rewrite E.
        unfold with_figure. simpl. now rewrite <- app_assoc.
      * simpl. f_equal. exact Hl.
      * constructor.
        -- exists df. simpl. split; [apply list_elem_of_here|].
           split; [exact Hclose|].
           split; [now apply date_fmt_all_formatted|].
           unfold highlight_stock. split.
           ++ intros Hb. now apply String.eqb_eq.
           ++ intros ->. reflexivity.
        -- eapply Forall_impl; [exact Hall|].
           intros l (df' & Hin & ?). exists df'.
           split; [now apply list_elem_of_further|assumption].
Qed.

Lemma trend_loop_fresh_witness :
  Forall (fun kv => empty (snd kv) = false ->
                    has_column "Close" (snd kv) = true /\ dated (snd kv))
         [("ICICIBANK.NS", empty_frame); ("HDFCBANK.NS", example_frame)] /\
  (exists lines,
     trend_loop [("ICICIBANK.NS", empty_frame); ("HDFCBANK.NS", example_frame)]
                (initial portfolio_config)
     = (Ok tt, with_figure lines (initial portfolio_config)) /\
     map line_label lines = ["HDFCBANK.NS"]).
Proof.
  assert (Forall (fun kv => empty (snd kv) = false ->
                            has_column "Close" (snd kv) = true /\
                            dated (snd kv))
                 [("ICICIBANK.NS", empty_frame);
                  ("HDFCBANK.NS", example_frame)]) as H.
  { constructor; [discriminate|]. constructor; [|constructor].
    intros _. split; [reflexivity|].
    repeat (constructor; [intros []|]). constructor. }
  split; [exact H|].
  destruct (trend_loop_fresh _ (initial portfolio_config) H)
    as (lines & E & Hl & _).
  exists lines. split; [exact E|exact Hl].
Defined.

(** ** The returns table (lines 37 to 49) *)

Section ReturnsTableFacts.

Lemma setitem_series_shape (name : string) (s : series) (df df' : frame) :
  setitem_series name s df = Ok df' ->
  index df' = (if Nat.eqb (length (index df)) 0 then s_index s else index df)
  /\ exists vs, columns df' = assign name vs (columns df).
Proof.
  unfold setitem_series, set_column.
  destruct (Nat.eqb _ 0); [|destruct (bool_decide _); [|destruct (unique _)]];
    intros [= <-]; simpl; eauto.
Qed.

(** One turn of the returns loop on an item that passes the test. *)
Lemma returns_loop_turn (t : string) (df : frame)
    (rest : list (string * frame)) (returns : frame) (w : world)
    (r : frame) (w' : world) :
  qualifies (t, df) = true ->
  returns_loop ((t, df) :: rest) returns w = (Ok r, w') ->
  exists labels returns' w1,
    date_fmt_all (index df) = Ok labels /\
    index returns'
    = (if Nat.eqb (length (index returns)) 0 then labels else index returns) /\
    (exists vs, columns returns' = assign t vs (columns returns)) /\
    returns_loop rest returns' w1 = (Ok r, w').
Proof.
  unfold qualifies. simpl. intros Hq H. rewrite Hq in H.
  apply andb_prop in Hq as [_ Hc]. unfold has_column in Hc.
  unfold bind, lift, getitem, column, mutate_frame in H.
  destruct (assoc "Close" (columns df)) as [close|]; [|discriminate].
  simpl in H.
  destruct (date_fmt_all (index df)) as [labels|e]; [|discriminate].
  rewrite assoc_assign_same in H.
  destruct (setitem_series t _ returns) as [returns'|e] eqn:Hset;
    [|discriminate].
  apply setitem_series_shape in Hset as [Hi Hcols]. simpl in Hi.
  eauto 8.
Qed.

Lemma returns_loop_skip (t : string) (df : frame)
    (rest : list (string * frame)) (returns : frame) (w : world) :
  qualifies (t, df) = false ->
  returns_loop ((t, df) :: rest) returns w = returns_loop rest returns w.
Proof. unfold qualifies. simpl. now intros ->. Qed.

Lemma returns_loop_columns (items : list (string * frame)) :
  forall returns w r w',
    NoDup (keys (columns returns) ++ keys items) ->
    returns_loop items returns w = (Ok r, w') ->
    keys (columns r) = keys (columns returns) ++ keys (qualified items).
Proof.
  induction items as [|[t df] items IH]; intros returns w r w' Hnd H.
  - simpl in H. inversion H; subst. simpl. now rewrite app_nil_r.
  - unfold qualified. rewrite filter_cons.
    change (keys ((t, df) :: items)) with (t :: keys items) in Hnd.
    apply NoDup_app in Hnd as Hnd'. destruct Hnd' as (Hr & Hdis & Hi).
    apply NoDup_cons in Hi as [Ht Hi].
    assert (t ∉ keys (columns returns)) as Hfresh
      by (intros Hin; apply (Hdis t Hin), list_elem_of_here).
    destruct (qualifies (t, df)) eqn:Hq.
    + rewrite decide_True by reflexivity.
      destruct (returns_loop_turn _ _ _ _ _ _ _ Hq H)
        as (labels & returns' & w1 & _ & _ & [vs Hcols] & H').
      assert (keys (columns returns') = keys (columns returns) ++ [t]) as Hk
        by (rewrite Hcols; now apply keys_assign_notin).
      apply IH in H'.
      * rewrite H', Hk, <- app_assoc. reflexivity.
      * rewrite Hk, <- app_assoc. simpl.
        apply NoDup_app. repeat split; [exact Hr| |now constructor].
        intros x Hx [->|Hx']%elem_of_cons; [now apply Hfresh|].
        apply (Hdis x Hx). now apply list_elem_of_further.
    + rewrite decide_False by discriminate.
      rewrite returns_loop_skip in H by exact Hq.
      apply IH in H; [exact H|].
      apply NoDup_app. repeat split; [exact Hr| |exact Hi].
      intros x Hx Hx'. apply (Hdis x Hx). now apply list_elem_of_further.
Qed.

(** Once the returns frame has row labels, no later ticker changes
    them. *)
Lemma returns_loop_index (items : list (string * frame)) :
  forall returns w r w',
    index returns <> [] ->
    returns_loop items returns w = (Ok r, w') ->
    index r = index returns.
Proof.
  induction items as [|[t df] items IH]; intros returns w r w' Hne H.
  - simpl in H. now inversion H.
  - destruct (qualifies (t, df)) eqn:Hq.
    + destruct (returns_loop_turn _ _ _ _ _ _ _ Hq H)
        as (labels & returns' & w1 & _ & Hi & _ & H').
      assert (index returns' = index returns) as E.
      { rewrite Hi. destruct (index returns); [congruence|reflexivity]. }
      rewrite <- E. apply (IH returns' w1 r w'); [congruence|exact H'].
    + rewrite returns_loop_skip in H by exact Hq. now apply (IH returns w r w').
Qed.

(** The row labels of the returns frame are those of the first item that
    passes the test. *)
Lemma returns_loop_first (items : list (string * frame)) :
  forall w r w',
    returns_loop items empty_frame w = (Ok r, w') ->
    match qualified items with
    | [] => index r = []
    | (t, df) :: _ => date_fmt_all (index df) = Ok (index r)
    end.
Proof.
  induction items as [|[t df] items IH]; intros w r w' H.
  - simpl in H. now inversion H.
  - unfold qualified. rewrite filter_cons.
    destruct (qualifies (t, df)) eqn:Hq.
    + rewrite decide_True by reflexivity.
      destruct (returns_loop_turn _ _ _ _ _ _ _ Hq H)
        as (labels & returns' & w1 & Hfmt & Hi & _ & H').
      simpl in Hi. rewrite Hfmt. f_equal. rewrite <- Hi. symmetry.
      apply (returns_loop_index items returns' w1 r w'); [|exact H'].
      rewrite Hi. intros ->.
      apply date_fmt_all_text in Hfmt as [_ Hlen]. simpl in Hlen.
      unfold qualifies, empty in Hq. simpl in Hq.
      destruct (index df); [discriminate Hq|discriminate Hlen].
    + rewrite decide_False by discriminate.
      rewrite returns_loop_skip in H by exact Hq. now apply (IH w r w').
Qed.

Lemma select_sublist {A : Type} (mask : list bool) (l : list A) :
  select mask l `sublist_of` l.
Proof.
  revert l. induction mask as [|b mask IH]; intros [|x l]; simpl;
    try apply sublist_nil_l.
  destruct b; [apply sublist_skip|apply sublist_cons]; apply IH.
Qed.

Lemma daily_returns_table (w : world) (tbl : rtable) (w' : world) :
  daily_returns w = (Ok tbl, w') ->
  exists returns w1,
    returns_loop (stock_data w) empty_frame w = (Ok returns, w1) /\
    tbl = dropna_all (sort_index (transpose returns)).
Proof.
  unfold daily_returns, bind, get. intros H.
  destruct (returns_loop (stock_data w) empty_frame w) as [[returns|e] w1];
    [|discriminate].
  inversion H; subst. eauto.
Qed.

End ReturnsTableFacts.

(** X15.  The returns table has one row for every ticker whose frame has
    rows and a Close column, no other row, and its rows are in ascending
    order of the ticker, whatever the order of the configuration. *)
Theorem returns_table_rows (w : world) (tbl : rtable) (w' : world) :
  NoDup (keys (stock_data w)) ->
  daily_returns w = (Ok tbl, w') ->
  keys (rows tbl) ≡ₚ keys (qualified (stock_data w)) /\
  StronglySorted str_le (keys (rows tbl)).
Proof.
  intros Hnd (returns & w1 & H & ->)%daily_returns_table.
  apply returns_loop_columns in H; [|exact Hnd]. simpl in H.
  rewrite keys_dropna_all. split.
  - rewrite keys_sort_index. simpl. now rewrite H.
  - unfold sort_index, keys. simpl.
    apply (StronglySorted_fmap fst key_le str_le); [auto|].
    apply StronglySorted_merge_sort; apply _.
Qed.

Lemma returns_table_rows_witness :
  NoDup (keys (stock_data two_tickers)) /\
  (exists tbl w',
     daily_returns two_tickers = (Ok tbl, w') /\
     keys (rows tbl) = ["CDSL.NS"; "HDFCBANK.NS"] /\
     StronglySorted str_le (keys (rows tbl))).
Proof.
  assert (NoDup (keys (stock_data two_tickers))) as Hnd.
  { apply (bool_decide_unpack (NoDup (keys (stock_data two_tickers)))).
    vm_compute. exact I. }
  split; [exact Hnd|].
  destruct (returns_table_rows two_tickers _ _ Hnd eq_refl) as [_ Hs].
  do 2 eexists. split; [reflexivity|]. split; [reflexivity|exact Hs].
Defined.

(** X16.  The date columns of the returns table come from the first
    ticker that has rows and a Close column: every later return column is
    aligned with that index, so the dates of the table are among the
    formatted dates of that first frame, in their order, and a date that
    only a later ticker has is dropped. *)
Theorem returns_table_dates (w : world) (tbl : rtable) (w' : world)
    (t : string) (df : frame) (others : list (string * frame)) :
  daily_returns w = (Ok tbl, w') ->
  qualified (stock_data w) = (t, df) :: others ->
  exists labels,
    Forall2 formatted (index df) labels /\
    dates tbl `sublist_of` labels.
Proof.
  intros (returns & w1 & H & ->)%daily_returns_table Hq.
  apply returns_loop_first in H. rewrite Hq in H.
  exists (index returns). split; [now apply date_fmt_all_formatted|].
  unfold dropna_all. simpl. apply select_sublist.
Qed.

Lemma returns_table_dates_witness :
  qualified (stock_data two_tickers)
  = [("HDFCBANK.NS", example_frame); ("CDSL.NS", later_frame)] /\
  (exists tbl w' labels,
     daily_returns two_tickers = (Ok tbl, w') /\
     Forall2 formatted (index example_frame) labels /\
     dates tbl `sublist_of` labels /\
     dates tbl = [Text "03-11-2026"; Text "04-11-2026"]).
Proof.
  split; [reflexivity|].
  destruct (returns_table_dates two_tickers _ _ _ _ _ eq_refl eq_refl)
    as (labels & HF & Hsub).
  do 2 eexists. exists labels. split; [reflexivity|].
  split; [exact HF|]. split; [exact Hsub|reflexivity].
Defined.

(** ** [dropna(axis=1, how='all')] (line 49) *)

Section DropnaFacts.

Lemma length_select {A B : Type} (mask : list bool) (l : list A)
    (l' : list B) :
  length l = length l' -> length (select mask l) = length (select mask l').
Proof.
  revert l l'. induction mask as [|b mask IH]; intros [|x l] [|y l'] H;
    simpl in *; try reflexivity; try discriminate.
  destruct b; simpl; [f_equal|]; apply IH; lia.
Qed.

(** Dropping cells that are missing anyway keeps the values of a row. *)
Lemma values_select (mask : list bool) (vs : list fval) :
  length vs <= length mask ->
  (forall i, mask !! i = Some false -> notna (cell i vs) = false) ->
  values (select mask vs) = values vs.
Proof.
  revert vs. induction mask as [|b mask IH]; intros [|v vs] Hlen Hm;
    simpl in *; try reflexivity; try lia.
  assert (values (select mask vs) = values vs) as E.
  { apply IH; [lia|]. intros i Hi. apply (Hm (S i)). exact Hi. }
  unfold values in *. destruct b.
  - rewrite !filter_cons, E. reflexivity.
  - rewrite filter_cons, E. specialize (Hm 0 eq_refl). simpl in Hm.
    rewrite decide_False; [reflexivity|]. unfold cell in Hm. simpl in Hm.
    congruence.
Qed.

(** The cell at a position of the selection is the cell at a position
    where the mask holds, the same position for every row. *)
Lemma cell_select {A : Type} (mask : list bool) (ds : list A) (j : nat) :
  j < length (select mask ds) ->
  exists i, mask !! i = Some true /\
            forall vs : list fval, cell j (select mask vs) = cell i vs.
Proof.
  revert ds j. induction mask as [|b mask IH]; intros [|d ds] j Hj;
    simpl in Hj; try lia.
  destruct b.
  - destruct j as [|j].
    + exists 0. split; [reflexivity|]. now intros [|v vs].
    + simpl in Hj. destruct (IH ds j) as (i & Hi & Hc); [lia|].
      exists (S i). split; [exact Hi|]. intros [|v vs]; [reflexivity|].
      apply (Hc vs).
  - destruct (IH ds j Hj) as (i & Hi & Hc).
    exists (S i). split; [exact Hi|]. intros [|v vs]; simpl.
    + unfold cell. now destruct j.
    + apply (Hc vs).
Qed.

Lemma select_all {A : Type} (mask : list bool) (l : list A) :
  Forall (fun b => b = true) mask -> length l <= length mask ->
  select mask l = l.
Proof.
  intros H. revert l. induction H as [|b mask -> _ IH]; intros [|x l] Hl;
    simpl in *; try reflexivity; try lia.
  f_equal. apply IH. lia.
Qed.

Lemma lookup_mask (f : nat -> bool) (n i : nat) (b : bool) :
  map f (seq 0 n) !! i = Some b -> i < n /\ f i = b.
Proof.
  change (map f (seq 0 n)) with (f <$> seq 0 n).
  rewrite list_lookup_fmap. intros H.
  destruct (seq 0 n !! i) as [k|] eqn:E; [|discriminate].
  apply lookup_seq in E as [-> Hi]. simpl in H. split; [exact Hi|congruence].
Qed.

Lemma column_kept_false (rs : list (string * list fval)) (j : nat)
    (r : string * list fval) :
  column_kept rs j = false -> r ∈ rs -> notna (cell j (snd r)) = false.
Proof.
  unfold column_kept. intros H Hin.
  destruct (notna (cell j (snd r))) eqn:E; [|reflexivity].
  assert (existsb (fun r => notna (cell j (snd r))) rs = true) as H'.
  { apply existsb_exists. exists r. split; [|exact E].
    now apply list_elem_of_In. }
  congruence.
Qed.

Lemma dropna_all_rectangular (t : rtable) :
  rectangular t -> rectangular (dropna_all t).
Proof.
  unfold rectangular, dropna_all. simpl. intros H.
  apply Forall_forall. intros r' [r [-> Hr]]%elem_of_map. simpl.
  rewrite Forall_forall in H. apply length_select, H, Hr.
Qed.

Lemma dropna_all_columns (t : rtable) (j : nat) :
  j < length (dates (dropna_all t)) ->
  column_kept (rows (dropna_all t)) j = true.
Proof.
  unfold dropna_all. simpl. intros Hj.
  apply cell_select in Hj as (i & Hi & Hc).
  apply lookup_mask in Hi as [_ Hi].
  unfold column_kept in Hi. apply existsb_exists in Hi as (r & Hr & Hv).
  unfold column_kept. apply existsb_exists.
  exists (fst r, select (map (column_kept (rows t))
                             (seq 0 (length (dates t)))) (snd r)).
  split.
  - apply list_elem_of_In, elem_of_map. exists r.
    split; [reflexivity|now apply list_elem_of_In].
  - simpl. rewrite Hc. exact Hv.
Qed.

End DropnaFacts.

(** X17.  Dropping the dates without any return loses no return: on a
    table with one cell per date the outcome again has one cell per date,
    every row keeps its name and all of its values in their order, and
    every date column that is left holds a value in some row. *)
Theorem dropna_all_keeps_values (t : rtable) :
  rectangular t ->
  rectangular (dropna_all t) /\
  map (fun r => (fst r, values (snd r))) (rows (dropna_all t))
  = map (fun r => (fst r, values (snd r))) (rows t) /\
  (forall j, j < length (dates (dropna_all t)) ->
             column_kept (rows (dropna_all t)) j = true).
Proof.
  intros Hrect. split; [now apply dropna_all_rectangular|].
  split; [|apply dropna_all_columns].
  unfold dropna_all. simpl. rewrite map_map. simpl.
  apply map_ext_in. intros r Hr%list_elem_of_In. f_equal.
  unfold rectangular in Hrect. rewrite Forall_forall in Hrect.
  apply values_select.
  - rewrite length_map, length_seq, (Hrect r Hr). lia.
  - intros i [_ Hi]%lookup_mask. eapply column_kept_false; eassumption.
Qed.

Lemma dropna_all_keeps_values_witness :
  rectangular sparse_table /\
  dropna_all sparse_table
  = RTable [Text "03-11-2026"; Text "04-11-2026"]
           [("CDSL.NS", [NaN; Fin 0.1]);
            ("HDFCBANK.NS", [Fin 0.02; Fin (-0.03)])] /\
  map (fun r => (fst r, values (snd r))) (rows (dropna_all sparse_table))
  = map (fun r => (fst r, values (snd r))) (rows sparse_table).
Proof.
  assert (rectangular sparse_table) as H
    by (repeat constructor).
  split; [exact H|]. split; [reflexivity|].
  exact (proj1 (proj2 (dropna_all_keeps_values sparse_table H))).
Defined.

(** X18.  Dropping the empty dates a second time changes nothing. *)
Theorem dropna_all_idempotent (t : rtable) :
  rectangular t -> dropna_all (dropna_all t) = dropna_all t.
Proof.
  intros Hrect. apply dropna_all_rectangular in Hrect.
  pose proof (dropna_all_columns t) as Hcols.
  set (t' := dropna_all t) in *. unfold dropna_all at 1.
  assert (Forall (fun b => b = true)
                 (map (column_kept (rows t')) (seq 0 (length (dates t')))))
    as Hmask.
  { apply Forall_forall. intros b [j [-> Hj]]%elem_of_map.
    apply elem_of_seq in Hj. apply Hcols. lia. }
  rewrite (select_all _ (dates t') Hmask)
    by (rewrite length_map, length_seq; lia).
  replace (map _ (rows t')) with (rows t'); [now destruct t'|].
  rewrite <- (map_id (rows t')) at 1. apply map_ext_in.
  intros [s vs] Hr%list_elem_of_In. simpl. f_equal. symmetry.
  apply select_all; [exact Hmask|].
  unfold rectangular in Hrect. rewrite Forall_forall in Hrect.
  pose proof (Hrect _ Hr) as Hlen. simpl in Hlen.
  rewrite length_map, length_seq. lia.
Qed.

Lemma dropna_all_idempotent_witness :
  rectangular sparse_table /\
  dropna_all (dropna_all sparse_table) = dropna_all sparse_table.
Proof.
  assert (rectangular sparse_table) as H
    by (repeat constructor).
  split; [exact H|]. exact (dropna_all_idempotent sparse_table H).
Defined.

(** ** What a run prints (lines 30, 84 and 184) *)

Section Printing.

Lemma quiet_silent {A : Type} (m : M A) :
  (forall w, stdout (snd (m w)) = stdout w) -> quiet m.
Proof.
  intros H w r w' E. exists []. split; [|constructor].
  rewrite app_nil_r, <- (H w), E. reflexivity.
Qed.

Lemma quiet_bind {A B : Type} (m : M A) (k : A -> M B) :
  quiet m -> (forall a, quiet (k a)) -> quiet (bind m k).
Proof.
  intros Hm Hk w r w' E. unfold bind in E.
  destruct (m w) as [[a|e] w1] eqn:E1;
    destruct (Hm _ _ _ E1) as (out1 & H1 & F1).
  - destruct (Hk a _ _ _ E) as (out2 & H2 & F2).
    exists (out1 ++ out2). split; [|now apply Forall_app].
    rewrite H2, H1. now rewrite app_assoc.
  - inversion E; subst. eauto.
Qed.

Lemma quiet_try_except {A : Type} (body : M A) (handler : exn -> M A) :
  quiet body -> (forall e, quiet (handler e)) ->
  quiet (try_except body handler).
Proof.
  intros Hm Hk w r w' E. unfold try_except in E.
  destruct (body w) as [[a|e] w1] eqn:E1;
    destruct (Hm _ _ _ E1) as (out1 & H1 & F1).
  - inversion E; subst. eauto.
  - destruct (Hk e _ _ _ E) as (out2 & H2 & F2).
    exists (out1 ++ out2). split; [|now apply Forall_app].
    rewrite H2, H1. now rewrite app_assoc.
Qed.

Lemma quiet_print (s : string) : log_line s -> quiet (print s).
Proof.
  intros Hs w r w' [= <- <-]. exists [s]. split; [reflexivity|].
  now constructor.
Qed.

Lemma quiet_set_market_cap (t : string) (v : option Q) :
  quiet (set_market_cap t v).
Proof.
  apply quiet_silent. intros w. unfold set_market_cap.
  now destruct (assoc t (portfolio_stocks w)).
Qed.

Lemma quiet_draw (r : option exn) : quiet (draw r).
Proof. apply quiet_silent. intros w. now destruct r. Qed.

Ltac quiet_step :=
  cbv zeta;
  first
    [ apply quiet_bind; [|intros ?]
    | apply quiet_set_market_cap
    | apply quiet_draw
    | apply quiet_silent; intros ?; reflexivity ].

Lemma quiet_fetch_stock_data (P : Provider) (ts : list string) :
  quiet (fetch_stock_data P ts).
Proof.
  unfold fetch_stock_data. generalize (@nil (string * frame)).
  induction ts as [|t ts IH]; intros data; simpl; [quiet_step|].
  quiet_step; [quiet_step|]. quiet_step; [|apply IH].
  destruct (empty _); [|quiet_step].
  apply quiet_print. left. now exists t.
Qed.

Lemma quiet_returns_loop (items : list (string * frame)) :
  forall returns, quiet (returns_loop items returns).
Proof.
  induction items as [|[t df] items IH]; intros returns; simpl;
    [quiet_step|].
  destruct (negb (empty df) && has_column "Close" df); [|apply IH].
  repeat (quiet_step; [quiet_step|]). apply IH.
Qed.

Lemma quiet_daily_returns : quiet daily_returns.
Proof.
  unfold daily_returns. quiet_step; [quiet_step|].
  quiet_step; [apply quiet_returns_loop|quiet_step].
Qed.

Lemma quiet_render_heatmap (R : Renderer) (tbl : rtable) :
  quiet (render_heatmap R tbl).
Proof. unfold render_heatmap. repeat (quiet_step; [quiet_step|]). quiet_step. Qed.

Lemma quiet_render_marketcap (R : Renderer) (df : list prow) :
  quiet (render_marketcap R df).
Proof.
  unfold render_marketcap. repeat (quiet_step; [quiet_step|]). quiet_step.
Qed.

Lemma quiet_render_sector (R : Renderer) (caps : list (string * fval)) :
  quiet (render_sector R caps).
Proof.
  unfold render_sector. repeat (quiet_step; [quiet_step|]). quiet_step.
Qed.

Lemma quiet_fetch_market_caps (P : Provider) (ts : list string) :
  quiet (fetch_market_caps P ts).
Proof.
  induction ts as [|t ts IH]; simpl; [quiet_step|].
  quiet_step; [|apply IH]. apply quiet_try_except.
  - quiet_step; quiet_step.
  - intros e. quiet_step; [|quiet_step].
    apply quiet_print. right. now exists t, e.
Qed.

Lemma quiet_trend_loop (items : list (string * frame)) :
  quiet (trend_loop items).
Proof.
  induction items as [|[t df] items IH]; simpl; [quiet_step|].
  destruct (empty df); [apply IH|].
  repeat (quiet_step; [quiet_step|]). apply IH.
Qed.

Lemma quiet_render_trends : quiet render_trends.
Proof.
  unfold render_trends. quiet_step; [quiet_step|].
  quiet_step; [quiet_step|]. quiet_step; [apply quiet_trend_loop|].
  quiet_step; quiet_step.
Qed.

Lemma closing_bind {A : Type} (m : M A) (k : A -> M unit) :
  quiet m -> (forall a, closing (k a)) -> closing (bind m k).
Proof.
  intros Hm Hk w r w' E. unfold bind in E.
  destruct (m w) as [[a|e] w1] eqn:E1;
    destruct (Hm _ _ _ E1) as (out1 & H1 & F1).
  - destruct (Hk a _ _ _ E) as (out2 & F2 & H2).
    exists (out1 ++ out2). split; [now apply Forall_app|].
    rewrite H2, H1. now rewrite <- !app_assoc.
  - inversion E; subst. exists out1. split; [exact F1|].
    now rewrite app_nil_r.
Qed.

Lemma closing_print : closing (print done_message).
Proof.
  intros w r w' [= <- <-]. exists []. split; [constructor|reflexivity].
Qed.

Lemma closing_main (P : Provider) (R : Renderer)
    (argsort : list fval -> list nat) :
  closing (main P R argsort).
Proof.
  unfold main. cbv zeta.
  apply closing_bind; [quiet_step|intros w0].
  apply closing_bind; [apply quiet_fetch_stock_data|intros data].
  apply closing_bind; [quiet_step|intros _].
  apply closing_bind; [apply quiet_daily_returns|intros returns].
  apply closing_bind; [apply quiet_render_heatmap|intros _].
  apply closing_bind; [quiet_step|intros w1].
  apply closing_bind; [apply quiet_fetch_market_caps|intros _].
  apply closing_bind; [quiet_step|intros w2].
  apply closing_bind; [apply quiet_render_marketcap|intros _].
  apply closing_bind; [apply quiet_render_sector|intros _].
  apply closing_bind; [apply quiet_render_trends|intros _].
  apply closing_bind; [quiet_step|intros _].
  apply closing_print.
Qed.

Lemma log_line_not_done (s : string) : log_line s -> s <> done_message.
Proof. intros [[t ->]|(t & e & ->)]; discriminate. Qed.

End Printing.

(** X19.  The closing line tells how the run ended.  A run that ends
    normally has printed it once, as its last line; a run that ends with an
    exception has not printed it.  Every other line of a run is a warning
    of [fetch_stock_data] or an error line of [fetch_market_caps]. *)
Theorem closing_line_printed (P : Provider) (R : Renderer)
    (argsort : list fval -> list nat) (p : list (string * entry)) :
  exists out,
    Forall log_line out /\ (done_message ∉ out) /\
    stdout (snd (main P R argsort (initial p)))
    = out ++ match fst (main P R argsort (initial p)) with
             | Ok _ => [done_message]
             | Raise _ => []
             end.
Proof.
  destruct (main P R argsort (initial p)) as [r w'] eqn:E.
  destruct (closing_main P R argsort _ _ _ E) as (out & F & H).
  exists out. split; [exact F|]. split; [|exact H].
  intros Hin. rewrite Forall_forall in F.
  now apply (log_line_not_done _ (F _ Hin)).
Qed.

(** ** A run that ends normally *)

Section NormalRun.




End NormalRun.



(** ** The returns table on a common calendar *)

Section CommonCalendar.

Variables (ds labels : list label).
Hypothesis calendar : ds <> [].
Hypothesis formatted_calendar : date_fmt_all ds = Ok labels.

Lemma labels_nonempty : Nat.eqb (length labels) 0 = false.
Proof.
  apply date_fmt_all_text in formatted_calendar as [_ Hlen].
  apply Nat.eqb_neq. rewrite Hlen. destruct ds; [congruence|simpl; lia].
Qed.

Lemma on_calendar_qualifies (df : frame) :
  on_calendar ds df -> negb (empty df) && has_column "Close" df = true.
Proof.
  intros [Hi (qs & Hc & _)]. unfold empty, has_column, column in *.
  rewrite Hi, Hc. destruct ds; [congruence|].
  destruct (columns df); [discriminate Hc|reflexivity].
Qed.

(** On such frames every turn of the returns loop appends the return
    column of its ticker, under the formatted calendar. *)
Lemma returns_loop_calendar (items : list (string * frame)) :
  forall returns w,
    Forall (fun kv => on_calendar ds (snd kv)) items ->
    NoDup (keys (columns returns) ++ keys items) ->
    index returns = [] \/ index returns = labels ->
    exists w',
      returns_loop items returns w
      = (Ok (Frame (match items with [] => index returns | _ => labels end)
                   (columns returns
                    ++ map (fun kv => (fst kv, return_column (snd kv))) items)),
         w').
Proof.
  induction items as [|[t df] items IH]; intros returns w Hall Hnd Hix.
  - exists w. simpl. rewrite app_nil_r. now destruct returns.
  - apply Forall_cons in Hall as [Hdf Hall]. simpl in Hdf.
    change (keys ((t, df) :: items)) with (t :: keys items) in Hnd.
    apply NoDup_app in Hnd as Hnd'. destruct Hnd' as (Hr & Hdis & Hi).
    apply NoDup_cons in Hi as [Ht Hi].
    assert (t ∉ keys (columns returns)) as Hfresh
      by (intros Hin; apply (Hdis t Hin), list_elem_of_here).
    pose proof (on_calendar_qualifies df Hdf) as Hq.
    destruct Hdf as [Hidx (qs & Hc & Hlen & Hqs)].
    cbn [returns_loop]. rewrite Hq.
    unfold bind, lift, getitem, mutate_frame. rewrite Hc.
    cbn [set_column index]. rewrite Hidx, formatted_calendar.
    unfold column, set_index, set_column. cbn [columns index].
    rewrite assoc_assign_same.
    assert (setitem_series t (Series labels (pct_change (prices qs))) returns
            = Ok (Frame labels
                        (columns returns ++ [(t, pct_change (prices qs))])))
      as Hset.
    { unfold setitem_series, set_column. cbn [s_index s_values].
      rewrite (assign_fresh t _ (columns returns) Hfresh).
      destruct Hix as [E|E]; rewrite E.
      - reflexivity.
      - rewrite labels_nonempty.
        now rewrite bool_decide_eq_true_2 by reflexivity. }
    cbn [index]. rewrite Hset.
    match goal with
    | |- context [returns_loop items ?r ?w1] =>
        destruct (IH r w1 Hall) as [w' E]
    end.
    + simpl. unfold keys. rewrite map_app, <- app_assoc. simpl.
      apply NoDup_app. repeat split; [exact Hr| |now constructor].
      intros x Hx [->|Hx']%elem_of_cons; [now apply Hfresh|].
      apply (Hdis x Hx). now apply list_elem_of_further.
    + now right.
    + exists w'. rewrite E. simpl. unfold return_column at 2. simpl.
      rewrite Hc, <- app_assoc. simpl. now destruct items.
Qed.

Lemma on_calendar_return_row (df : frame) :
  on_calendar ds df -> return_row (length ds) (return_column df).
Proof.
  intros [_ (qs & Hc & Hlen & Hqs)]. unfold return_column. rewrite Hc.
  rewrite pct_change_prices. split; [|split].
  - rewrite length_changes. unfold prices. now rewrite length_map.
  - destruct qs as [|q qs]; [reflexivity|]. unfold cell. simpl.
    reflexivity.
  - intros j [Hj1 Hjn]. destruct j as [|j]; [lia|].
    assert (length (prices qs) = length ds) as Hlp
      by (unfold prices; now rewrite length_map).
    rewrite nth_changes by lia.
    rewrite !cell_prices by lia.
    assert (~ (nth j qs 0 == 0)%Q) as Hne.
    { rewrite Forall_forall in Hqs. apply Hqs, list_elem_of_In, nth_In. lia. }
    apply Qzero_false in Hne. simpl. now rewrite Hne.
Qed.

End CommonCalendar.

Section FirstDay.

Lemma map_constant {A B : Type} (f : A -> B) (b : B) (l : list A) :
  (forall x, x ∈ l -> f x = b) -> map f l = replicate (length l) b.
Proof.
  induction l as [|x l IH]; intros H; simpl; [reflexivity|].
  rewrite (H x) by apply list_elem_of_here.
  f_equal. apply IH. intros y Hy. now apply H, list_elem_of_further.
Qed.

Lemma select_first_off {A : Type} (k : nat) (l : list A) :
  length l <= S k -> select (false :: replicate k true) l = tail l.
Proof.
  destruct l as [|x l]; [reflexivity|]. simpl. intros H.
  apply select_all; [apply Forall_replicate; reflexivity|].
  rewrite length_replicate. lia.
Qed.

(** On rows of returns the first day is the one date without a value in
    any row. *)
Lemma first_day_mask (n : nat) (rs : list (string * list fval)) :
  rs <> [] -> n <> 0 ->
  Forall (fun r => return_row n (snd r)) rs ->
  map (column_kept rs) (seq 0 n) = false :: replicate (n - 1) true.
Proof.
  intros Hrs Hn Hall. rewrite Forall_forall in Hall.
  destruct n as [|n]; [congruence|]. simpl seq. simpl map. f_equal.
  - unfold column_kept.
    destruct (existsb _ rs) eqn:E; [|reflexivity].
    apply existsb_exists in E as (r & Hr%list_elem_of_In & Hv).
    destruct (Hall r Hr) as (_ & H0 & _). congruence.
  - rewrite (map_constant (column_kept rs) true).
    + rewrite length_seq. f_equal. lia.
    + intros j Hj%elem_of_seq. unfold column_kept. apply existsb_exists.
      destruct rs as [|r rs]; [congruence|]. exists r.
      split; [now left|].
      destruct (Hall r (list_elem_of_here _ _)) as (_ & _ & Hlater).
      apply Hlater. lia.
Qed.

End FirstDay.

(** X21.  The returns table on a common calendar.  When every ticker has
    one usable closing price for each day of the same calendar, the
    return calculation returns, and the table of the heatmap has the
    formatted dates from the second day on as its columns and one row per
    ticker, in ascending order of the ticker: the return column of the
    ticker without its first cell, a number on every date. *)
Theorem returns_table_common_calendar (w : world) (ds labels : list label) :
  NoDup (keys (stock_data w)) ->
  stock_data w <> [] -> ds <> [] ->
  date_fmt_all ds = Ok labels ->
  Forall (fun kv => on_calendar ds (snd kv)) (stock_data w) ->
  fst (daily_returns w)
  = Ok (RTable (tail labels)
          (map (fun r => (fst r, tail (snd r)))
               (merge_sort key_le
                  (map (fun kv => (fst kv, return_column (snd kv)))
                       (stock_data w))))) /\
  Forall (fun kv => Forall (fun v => notna v = true)
                           (tail (return_column (snd kv))))
         (stock_data w).
Proof.
  intros Hnd Hdata Hds Hfmt Hall.
  assert (length labels = length ds) as Hlen
    by (now apply date_fmt_all_text in Hfmt as [_ ?]).
  assert (length ds <> 0) as Hn by (destruct ds; [congruence|simpl; lia]).
  split.
  - unfold daily_returns, bind, get.
    destruct (returns_loop_calendar ds labels Hds Hfmt (stock_data w)
                empty_frame w Hall Hnd) as [w' E]; [now left|].
    rewrite E. simpl.
    destruct (stock_data w) as [|kv0 data0] eqn:Hsd; [congruence|].
    rewrite <- Hsd in *. clear Hsd kv0 data0.
    set (cols := map (fun kv => (fst kv, return_column (snd kv)))
                     (stock_data w)).
    unfold dropna_all, sort_index, transpose. simpl.
    assert (Forall (fun r : string * list fval =>
                      return_row (length ds) (snd r))
                   (merge_sort key_le cols)) as Hrows.
    { rewrite merge_sort_Permutation. apply Forall_forall.
      intros r [kv [-> Hkv]]%elem_of_map. simpl.
      rewrite Forall_forall in Hall.
      now apply (on_calendar_return_row ds), Hall. }
    assert (merge_sort key_le cols <> []) as Hne.
    { intros E0. assert (cols ≡ₚ []) as Hp
        by (now rewrite <- E0, merge_sort_Permutation).
      apply Permutation_nil_r in Hp. unfold cols in Hp.
      destruct (stock_data w); [congruence|discriminate]. }
    rewrite Hlen, (first_day_mask (length ds) _ Hne Hn Hrows).
    rewrite select_first_off by lia. do 2 f_equal.
    apply map_ext_in. intros r Hr%list_elem_of_In. f_equal.
    apply select_first_off.
    rewrite Forall_forall in Hrows. destruct (Hrows r Hr) as [-> _]. lia.
  - apply Forall_forall. intros kv Hkv. rewrite Forall_forall in Hall.
    destruct (on_calendar_return_row ds (snd kv) (Hall kv Hkv))
      as (Hl & _ & Hlater).
    apply Forall_forall. intros v Hv.
    apply list_elem_of_lookup in Hv as [j Hj]. rewrite lookup_tail in Hj.
    assert (cell (S j) (return_column (snd kv)) = v) as <-
      by (unfold cell; now apply nth_lookup_Some).
    apply Hlater. apply lookup_lt_Some in Hj. lia.
Qed.

Lemma returns_table_common_calendar_witness :
  NoDup (keys (stock_data (World portfolio_config
                             [("HDFCBANK.NS", example_frame);
                              ("CDSL.NS", example_frame)] [] [] []))) /\
  fst (daily_returns (World portfolio_config
                        [("HDFCBANK.NS", example_frame);
                         ("CDSL.NS", example_frame)] [] [] []))
  = Ok (RTable [Text "03-11-2026"; Text "04-11-2026"]
          [("CDSL.NS", tail (pct_change (prices [100; 102; 99]%Q)));
           ("HDFCBANK.NS", tail (pct_change (prices [100; 102; 99]%Q)))]).
Proof.
  set (w := World portfolio_config
              [("HDFCBANK.NS", example_frame); ("CDSL.NS", example_frame)]
              [] [] []).
  assert (NoDup (keys (stock_data w))) as Hnd.
  { apply (bool_decide_unpack (NoDup (keys (stock_data w)))).
    vm_compute. exact I. }
  assert (stock_data w <> []) as Hdata by discriminate.
  assert (index example_frame <> []) as Hds by discriminate.
  assert (on_calendar (index example_frame) example_frame) as Hcal.
  { split; [reflexivity|]. exists [100; 102; 99]%Q.
    split; [reflexivity|]. split; [reflexivity|].
    repeat (constructor; [discriminate|]). constructor. }
  assert (Forall (fun kv => on_calendar (index example_frame) (snd kv))
                 (stock_data w)) as Hall
    by (repeat (constructor; [exact Hcal|]); constructor).
  split; [exact Hnd|].
  exact (proj1 (returns_table_common_calendar w (index example_frame)
                  [Text "02-11-2026"; Text "03-11-2026"; Text "04-11-2026"]
                  Hnd Hdata Hds eq_refl Hall)).
Defined.

(** ** The run on price histories with rows *)

Section FreshFrames.

Lemma unique_NoDup (l : list label) : NoDup l -> unique l = true.
Proof.
  induction 1 as [|x l Hx _ IH]; simpl; [reflexivity|].
  rewrite IH, bool_decide_eq_false_2 by exact Hx. reflexivity.
Qed.

Lemma date_fmt_all_elem (l labels : list label) (x : label) :
  date_fmt_all l = Ok labels -> x ∈ labels ->
  exists d s, d ∈ l /\ date_fmt d = Ok s /\ x = Text s.
Proof.
  revert labels. induction l as [|d l IH]; simpl; intros labels.
  - intros [= <-] Hx. inversion Hx.
  - destruct (date_fmt d) as [s|] eqn:Hd; [|discriminate].
    destruct (date_fmt_all l) as [r|]; [|discriminate].
    intros [= <-] [->|Hx]%elem_of_cons.
    + exists d, s. split; [apply list_elem_of_here|]. auto.
    + destruct (IH r eq_refl Hx) as (d' & s' & Hin & ? & ?).
      exists d', s'. split; [now apply list_elem_of_further|]. auto.
Qed.

(** Distinct printable days are formatted to distinct texts. *)
Lemma date_fmt_all_distinct (l : list label) :
  NoDup l -> Forall printable l ->
  exists labels, date_fmt_all l = Ok labels /\ NoDup labels.
Proof.
  induction 1 as [|d l Hd Hnd IH]; intros Hp.
  - exists []. split; [reflexivity|constructor].
  - apply Forall_cons in Hp as [Hpd Hp].
    destruct (IH Hp) as (labels & E & Hl). simpl.
    destruct d as [y m dd|s]; [|destruct Hpd]. simpl. rewrite E.
    eexists. split; [reflexivity|]. constructor; [|exact Hl].
    intros Hin.
    destruct (date_fmt_all_elem _ _ _ E Hin) as (d' & s' & Hd' & Hf & Hs).
    apply Hd. replace (Timestamp y m dd) with d'; [exact Hd'|].
    rewrite Forall_forall in Hp. symmetry.
    apply date_fmt_inj; [exact Hpd|now apply Hp|]. simpl.
    rewrite Hf. congruence.
Qed.

Lemma setitem_series_unique (name : string) (s : series) (df : frame) :
  unique (s_index s) = true -> exists df', setitem_series name s df = Ok df'.
Proof.
  intros H. unfold setitem_series. rewrite H.
  destruct (Nat.eqb _ 0); [eauto|]. destruct (bool_decide _); eauto.
Qed.

Lemma returns_loop_fresh (items : list (string * frame)) :
  forall returns w,
    Forall (fun kv => fresh (snd kv)) items ->
    exists r w', returns_loop items returns w = (Ok r, w').
Proof.
  induction items as [|[t df] items IH]; intros returns w Hall.
  - simpl. unfold ret. eauto.
  - apply Forall_cons in Hall as [(Hnd & Hp & Hc) Hall]. simpl in *.
    destruct (negb (empty df) && has_column "Close" df) eqn:Hq;
      [|now apply IH].
    apply andb_prop in Hq as [_ Hclose]. unfold has_column in Hclose.
    unfold bind, lift, getitem, column, mutate_frame.
    destruct (assoc "Close" (columns df)) as [close|]; [|discriminate].
    simpl.
    destruct (date_fmt_all_distinct _ Hnd Hp) as (labels & E & Hl).
    rewrite E, assoc_assign_same.
    destruct (setitem_series_unique t
                (Series labels (pct_change close)) returns) as [r' Hset];
      [now apply unique_NoDup|].
    simpl. rewrite Hset. now apply IH.
Qed.

Lemma daily_returns_fresh (w : world) :
  Forall (fun kv => fresh (snd kv)) (stock_data w) ->
  exists tbl w', daily_returns w = (Ok tbl, w').
Proof.
  intros Hall. unfold daily_returns, bind, get.
  destruct (returns_loop_fresh (stock_data w) empty_frame w Hall)
    as (r & w' & E).
  rewrite E. unfold ret. eauto.
Qed.


End FreshFrames.

(** X22.  On price histories as the provider delivers them (distinct
    printable days as row labels, a Close column wherever there are rows)
    the return calculation does not raise, whatever the calendars of the
    tickers are, and leaves every frame with rows changed in place. *)
Theorem daily_returns_returns (w : world) :
  NoDup (keys (stock_data w)) ->
  Forall (fun kv => fresh (snd kv)) (stock_data w) ->
  exists tbl w',
    daily_returns w = (Ok tbl, w') /\
    stock_data w' = map updated (stock_data w).
Proof.
  intros Hnd Hall. destruct (daily_returns_fresh w Hall) as (tbl & w' & E).
  exists tbl, w'. split; [exact E|].
  now apply daily_returns_spec in E as (_ & _ & _ & _ & ? & _).
Qed.

Lemma daily_returns_returns_witness :
  NoDup (keys (stock_data two_tickers)) /\
  Forall (fun kv => fresh (snd kv)) (stock_data two_tickers) /\
  (exists tbl w', daily_returns two_tickers = (Ok tbl, w')).
Proof.
  assert (NoDup (keys (stock_data two_tickers))) as Hnd.
  { apply (bool_decide_unpack (NoDup (keys (stock_data two_tickers)))).
    vm_compute. exact I. }
  assert (forall y m d, printable (Timestamp y m d) <->
                        d < 100 /\ m < 100 /\ y < 100 * 100) as Hp
    by reflexivity.
  assert (Forall (fun kv => fresh (snd kv)) (stock_data two_tickers)) as Hall.
  { repeat (constructor;
            [split; [apply (bool_decide_unpack (NoDup _)); vm_compute; exact I|];
             split; [repeat (constructor; [apply Hp; lia|]); constructor
                    |intros; reflexivity || discriminate]|]).
    constructor. }
  split; [exact Hnd|]. split; [exact Hall|].
  destruct (daily_returns_returns two_tickers Hnd Hall) as (tbl & w' & E & _).
  eauto.
Defined.


